(** * Cyclic cross-correlation: a shallow embedding of [cyclic_correlation.py]

    The module has three functions: [ZC_sequence] (Zadoff-Chu generator),
    [check_inputs_define_limits] (validation and length reconciliation of
    two signals) and [cyclic_corr] (the correlation engine with its analytic
    and FFT branches and the summary statistics).

    Conventions of the embedding.
    - Python values are the inductive [pyobj]; exceptions are the type [exn];
      a call returns ([Ok]) or raises ([Raise]), and the warnings it emits
      are collected beside its outcome.
    - numpy's arithmetic is idealised: float64 and complex128 are the exact
      real and complex numbers ([R] and the record [C] below), and integer
      arrays hold exact numbers too (no rounding, no int64 wrap-around).
    - A numpy array is a record of its shape and its row-major data; the
      functions of numpy the module calls ([np.array], [np.pad], slicing,
      [np.resize], [np.fft.fft], [np.fft.ifft], [np.max], [np.min],
      [np.argmax]) are modelled from numpy's documented behaviour, the
      transforms as the discrete Fourier sums they compute.
    - The functions are given twice: first on values, then over an explicit
      store in which the caller's lists and arrays are objects that a callee
      could update in place.  The second form is used for the frame
      property, and is shown to agree with the first on valid signals. *)

From Stdlib Require Import Reals Lra Lia ZArith String Ascii Bool Arith List.
From Stdlib Require Import Znumtheory.
Import ListNotations.

(** ** Complex numbers *)

Record C : Type := mkC { Re : R; Im : R }.

Declare Scope C_scope.
Delimit Scope C_scope with C.
Bind Scope C_scope with C.

Section ComplexOps.
Local Open Scope R_scope.

Definition RtoC (x : R) : C := mkC x 0.
Definition ZtoC (z : Z) : C := RtoC (IZR z).
Definition C0 : C := RtoC 0.
Definition C1 : C := RtoC 1.
(** Python's [1j]. *)
Definition Ci : C := mkC 0 1.

Definition Cadd (a b : C) : C := mkC (Re a + Re b) (Im a + Im b).
Definition Copp (a : C) : C := mkC (- Re a) (- Im a).
Definition Csub (a b : C) : C := Cadd a (Copp b).
Definition Cmul (a b : C) : C :=
  mkC (Re a * Re b - Im a * Im b) (Re a * Im b + Im a * Re b).
(** [np.conj]. *)
Definition Cconj (a : C) : C := mkC (Re a) (- Im a).
(** Division of a complex number by a real scalar ([Z / n]). *)
Definition Cdiv_R (a : C) (x : R) : C := mkC (Re a / x) (Im a / x).
(** [np.abs] on a complex number. *)
Definition Cabs (a : C) : R := sqrt (Re a * Re a + Im a * Im a).
(** [np.exp] on a complex number. *)
Definition Cexp (a : C) : C :=
  mkC (exp (Re a) * cos (Im a)) (exp (Re a) * sin (Im a)).
End ComplexOps.

Infix "+" := Cadd : C_scope.
Infix "*" := Cmul : C_scope.
Notation "- x" := (Copp x) : C_scope.

(** ** Python values, exceptions and results *)

Inductive exn : Type :=
| ValueError (msg : string)
| TypeError
| IndexError
| UnboundLocalError (var : string)
| SystemError.

Inductive result (A : Type) : Type :=
| Ok (a : A)
| Raise (e : exn).

Arguments Ok {A} a.
Arguments Raise {A} e.

(** A call also emits warnings ([warnings.warn]); they are collected in the
    order of emission, and those emitted before an exception are kept. *)
Definition M (A : Type) : Type := (result A * list string)%type.

Definition ret {A : Type} (a : A) : M A := (Ok a, []).
Definition raise {A : Type} (e : exn) : M A := (Raise e, []).
Definition lift {A : Type} (r : result A) : M A := (r, []).
Definition warn (msg : string) : M unit := (Ok tt, [msg]).

Definition bind {A B : Type} (m : M A) (k : A -> M B) : M B :=
  match m with
  | (Ok a, w) => let (r, w') := k a in (r, w ++ w')
  | (Raise e, w) => (Raise e, w)
  end.

Notation "x <- m ;; k" := (bind m (fun x => k))
  (at level 61, m at next level, right associativity).
Notation "m ;;; k" := (bind m (fun _ => k))
  (at level 61, right associativity).

(** Elements of an array: a number, or a value of a non-numeric dtype
    (a string, [None]) whose content the model does not track. *)
Inductive elem : Type :=
| ENum (c : C)
| EObj.

(** [numpy.ndarray]: its shape and its elements in row-major order. *)
Record ndarray : Type := mk_ndarray { shape : list nat; data : list elem }.

#[warnings="-register-all"]
Inductive pyobj : Type :=
| PyNone
| PyInt (z : Z)
| PyNum (c : C)
| PyStr (s : string)
| PyList (l : list pyobj)
| PyNdarray (a : ndarray).

(** ** [ZC_sequence] *)

Section ZadoffChu.
Local Open Scope Z_scope.

(** [np.arange(0, N)] as the list of its integer values. *)
Definition arange (N : Z) : list Z := map Z.of_nat (seq 0 (Z.to_nat N)).

(** One element of the sequence, in the order the source multiplies:
    [-1j * (np.pi / N) * r * ((k%N) + N%2 + 2 * (q%N)) * (k%N)]. *)
Definition ZC_phase (r q N k : Z) : C :=
  ((((- Ci) * RtoC (PI / IZR N)) * ZtoC r)
     * ZtoC ((k mod N) + N mod 2 + 2 * (q mod N))
     * ZtoC (k mod N))%C.

Definition ZC_sequence (r q N : pyobj) : result (list C) :=
  match r, q, N with
  | PyInt r, PyInt q, PyInt N =>
      if N <? 1 then Raise (ValueError "Parameter N must be >= 1.")
      else if negb ((1 <=? r) && (r <=? N)) then
        Raise (ValueError "Parameter r must satisfy 1 <= r <= N.")
      else if q <? 0 then Raise (ValueError "Parameter q must be >= 0.")
      else Ok (map (fun k => Cexp (ZC_phase r q N k)) (arange N))
  | _, _, _ =>
      Raise (ValueError "Parameters r, q, and N must all be integers.")
  end.
End ZadoffChu.

(** ** Strings: [str.lower] *)

(** [str.lower] on the characters the model tracks (bytes): the ASCII capital
    letters are mapped to small letters, every other byte is kept.  No
    non-ASCII character lower-cases to a letter of the four accepted words,
    so membership in the accepted sets is decided as in Python. *)
Definition lower_ascii (c : ascii) : ascii :=
  let n := nat_of_ascii c in
  if (65 <=? n)%nat && (n <=? 90)%nat then ascii_of_nat (n + 32) else c.

Fixpoint lower (s : string) : string :=
  match s with
  | EmptyString => EmptyString
  | String c s' => String (lower_ascii c) (lower s')
  end.

(** [x in ("a", "b")] for a tuple of strings. *)
Definition str_in (s : string) (t : list string) : bool :=
  existsb (String.eqb s) t.

(** ** The part of numpy the module calls *)

Definition is_num (e : elem) : bool :=
  match e with ENum _ => true | EObj => false end.

(** An array has a numeric dtype when all its elements are numbers. *)
Definition is_numeric (a : ndarray) : bool := forallb is_num (data a).

Definition ndim (a : ndarray) : nat := length (shape a).
(** [a.shape[0]], read only after [a.ndim == 1] was checked. *)
Definition shape0 (a : ndarray) : nat := hd 0%nat (shape a).
(** The zero of the array's dtype: [0] for numbers, a non-numeric value
    (['0'], ['']) otherwise. *)
Definition fill (a : ndarray) : elem :=
  if is_numeric a then ENum C0 else EObj.

Definition scalar_elem (o : pyobj) : elem :=
  match o with
  | PyInt z => ENum (ZtoC z)
  | PyNum c => ENum c
  | _ => EObj
  end.

Fixpoint list_nat_eqb (a b : list nat) : bool :=
  match a, b with
  | [], [] => true
  | x :: a', y :: b' => (x =? y)%nat && list_nat_eqb a' b'
  | _, _ => false
  end.

(** The rows of a nested sequence must all have the shape [s]; their data
    are concatenated. *)
Fixpoint stack_rows (s : list nat) (rows : list (option (list nat * list elem)))
  : option (list elem) :=
  match rows with
  | [] => Some []
  | None :: _ => None
  | Some (s', d) :: rows' =>
      if list_nat_eqb s s' then option_map (app d) (stack_rows s rows')
      else None
  end.

Definition stack (rows : list (option (list nat * list elem)))
  : option (list nat * list elem) :=
  match rows with
  | [] => Some ([0%nat], [])
  | None :: _ => None
  | Some (s, _) :: _ =>
      option_map (fun d => (length rows :: s, d)) (stack_rows s rows)
  end.

(** Shape discovery of [np.array]: scalars (numbers, strings, [None]) have
    shape [()]; a sequence of [k] items of common shape [s] has shape
    [(k,) + s]; [None] stands for a ragged nesting. *)
Fixpoint discover (o : pyobj) : option (list nat * list elem) :=
  match o with
  | PyList l => stack (map discover l)
  | PyNdarray a => Some (shape a, data a)
  | _ => Some ([], [scalar_elem o])
  end.

(** dtype promotion: one non-numeric item makes the whole array non-numeric. *)
Definition promote (d : list elem) : list elem :=
  if forallb is_num d then d else map (fun _ => EObj) d.

(** [np.array(o)]; a ragged nesting raises [ValueError] (numpy >= 1.24; the
    text of numpy's message is abbreviated). *)
Definition np_array (o : pyobj) : result ndarray :=
  match discover o with
  | Some (s, d) => Ok (mk_ndarray s (promote d))
  | None => Raise (ValueError "inhomogeneous shape")
  end.

(** [np.pad(a, (0, k), mode='constant')] on a 1-D array. *)
Definition np_pad (a : ndarray) (k : nat) : ndarray :=
  mk_ndarray [(shape0 a + k)%nat] (data a ++ repeat (fill a) k).

(** The slice [a[:m]] of a 1-D array. *)
Definition slice_to (a : ndarray) (m : nat) : ndarray :=
  mk_ndarray [Nat.min m (shape0 a)] (firstn m (data a)).

(** [np.resize(a, m)], as numpy implements it: an empty array or an empty
    target is zero filled; otherwise [ceil(m / size)] copies of the flattened
    array are concatenated and cut to [m] items. *)
Definition ceil_div (m k : nat) : nat := ((m + k - 1) / k)%nat.

Definition np_resize (a : ndarray) (m : nat) : ndarray :=
  let size := length (data a) in
  if (size =? 0)%nat || (m =? 0)%nat then mk_ndarray [m] (repeat (fill a) m)
  else
    let repeats := ceil_div m size in
    mk_ndarray [m] (firstn m (concat (repeat (data a) repeats))).

(** ** [check_inputs_define_limits] *)

Definition is_None (o : pyobj) : bool :=
  match o with PyNone => true | _ => false end.

(** [isinstance(o, (list, np.ndarray))]. *)
Definition is_list_or_ndarray (o : pyobj) : bool :=
  match o with PyList _ | PyNdarray _ => true | _ => false end.

(** [np.array(s) if not isinstance(s, np.ndarray) else s]. *)
Definition to_ndarray (o : pyobj) : result ndarray :=
  match o with
  | PyNdarray a => Ok a
  | _ => np_array o
  end.

Definition valid_methods : list string := ["fft"; "analytic"]%string.
Definition valid_wrt : list string := ["short"; "long"]%string.

(** Validation of [method] and of [wrt]: the value must be a [str] whose
    lower-cased form is in the tuple; the lower-cased form is returned.
    (The test [is None] that follows the [isinstance] test in the source
    cannot succeed.) *)
Definition check_choice (what : string) (plural : string) (tuple_repr : string)
    (valid : list string) (o : pyobj) : M string :=
  match o with
  | PyStr s =>
      let s := lower s in
      if negb (str_in s valid) then
        raise (ValueError ("Invalid " ++ what ++ " '" ++ s ++ "'. Supported "
                             ++ plural ++ " are " ++ tuple_repr ++ "."))
      else ret s
  | _ => raise (ValueError ("Parameter '" ++ what ++ "' must be a string."))
  end.

Definition check_inputs_define_limits
    (s1 s2 method wrt : pyobj) (padded : bool) : M (ndarray * ndarray) :=
  if is_None s1 || is_None s2 then
    raise (ValueError "Input signals s1 and s2 must not be None.")
  else if negb (is_list_or_ndarray s1 && is_list_or_ndarray s2) then
    raise (ValueError "Input signals s1 and s2 must be lists or numpy arrays.")
  else
    s1 <- lift (to_ndarray s1) ;;
    s2 <- lift (to_ndarray s2) ;;
    if negb (ndim s1 =? 1)%nat || negb (ndim s2 =? 1)%nat then
      raise (ValueError "Both s1 and s2 must be 1D arrays.")
    else
      method <- check_choice "method" "methods" "('fft', 'analytic')"
                  valid_methods method ;;
      wrt <- check_choice "wrt" "options" "('short', 'long')" valid_wrt wrt ;;
      if negb (shape0 s1 =? shape0 s2)%nat then
        if padded then
          if (shape0 s2 <? shape0 s1)%nat then
            let s2 := np_pad s2 (shape0 s1 - shape0 s2) in
            warn "s2 is padded to s1 length" ;;;
            ret (s1, s2)
          else
            let s1 := np_pad s1 (shape0 s2 - shape0 s1) in
            warn "s1 is padded to s2 length" ;;;
            ret (s1, s2)
        else if String.eqb wrt "short" then
          let min_len := Nat.min (shape0 s1) (shape0 s2) in
          let s1 := slice_to s1 min_len in
          let s2 := slice_to s2 min_len in
          warn "Signals are truncated to the length of the shorter one" ;;;
          ret (s1, s2)
        else
          let max_len := Nat.max (shape0 s1) (shape0 s2) in
          let s1 := np_resize s1 max_len in
          let s2 := np_resize s2 max_len in
          warn "Signals are resized to the length of the longer one" ;;;
          ret (s1, s2)
      else ret (s1, s2).

(** ** More of numpy: element access, transforms, reductions *)

(** [a[i]] for a 1-D array and [0 <= i]. *)
Definition getitem (a : ndarray) (i : nat) : result elem :=
  match nth_error (data a) i with
  | Some e => Ok e
  | None => Raise IndexError
  end.

(** Arithmetic on a non-numeric element raises [TypeError]. *)
Definition num (e : elem) : result C :=
  match e with
  | ENum c => Ok c
  | EObj => Raise TypeError
  end.

(** The numbers of a numeric array. *)
Definition values (a : ndarray) : list C :=
  flat_map (fun e => match e with ENum c => [c] | EObj => [] end) (data a).

(** [sum_{k = 0}^{n-1} f k]. *)
Fixpoint big_sum (f : nat -> C) (n : nat) : C :=
  match n with
  | O => C0
  | S n' => (big_sum f n' + f n')%C
  end.

Section Fourier.
Local Open Scope R_scope.

(** [exp(sign * 2 pi i * j * k / n)]. *)
Definition twiddle (sign : R) (n j k : nat) : C :=
  Cexp (mkC 0 (sign * (2 * PI * INR j * INR k / INR n))).

(** The discrete Fourier sum [A_k = sum_j a_j exp(sign 2 pi i j k / n)]. *)
Definition dft (sign : R) (a : list C) : list C :=
  let n := length a in
  map (fun k => big_sum (fun j => (nth j a C0 * twiddle sign n j k)%C) n)
      (seq 0 n).

(** [np.fft.fft] on a 1-D array. *)
Definition np_fft (a : ndarray) : result (list C) :=
  if negb (is_numeric a) then Raise TypeError
  else
    match values a with
    | [] => Raise (ValueError "Invalid number of FFT data points (0) specified.")
    | x => Ok (dft (-1) x)
    end.

(** [np.fft.ifft] on a 1-D complex array: the conjugate sum, scaled by
    [1/n]. *)
Definition np_ifft (X : list C) : result (list C) :=
  match X with
  | [] => Raise (ValueError "Invalid number of FFT data points (0) specified.")
  | _ => Ok (map (fun z => Cdiv_R z (INR (length X))) (dft 1 X))
  end.

(** Element-wise product of two 1-D arrays, with numpy's broadcasting of a
    one-element operand. *)
Fixpoint map2 (f : C -> C -> C) (x y : list C) : list C :=
  match x, y with
  | a :: x', b :: y' => f a b :: map2 f x' y'
  | _, _ => []
  end.

Definition np_mul (x y : list C) : result (list C) :=
  if (length x =? length y)%nat then Ok (map2 Cmul x y)
  else
    match x, y with
    | [a], _ => Ok (map (Cmul a) y)
    | _, [b] => Ok (map (fun a => (a * b)%C) x)
    | _, _ => Raise (ValueError "operands could not be broadcast together")
    end.

(** [np.max] and [np.min] of a real 1-D array. *)
Definition np_max (l : list R) : result R :=
  match l with
  | [] => Raise (ValueError "zero-size array to reduction operation maximum which has no identity")
  | x :: xs => Ok (fold_left Rmax xs x)
  end.

Definition np_min (l : list R) : result R :=
  match l with
  | [] => Raise (ValueError "zero-size array to reduction operation minimum which has no identity")
  | x :: xs => Ok (fold_left Rmin xs x)
  end.

(** [np.argmax]: a scan that moves to a later index only on a strictly
    larger value. *)
Fixpoint argmax_from (best : nat) (vbest : R) (i : nat) (l : list R) : nat :=
  match l with
  | [] => best
  | x :: xs =>
      if Rlt_dec vbest x then argmax_from i x (S i) xs
      else argmax_from best vbest (S i) xs
  end.

Definition np_argmax (l : list R) : result nat :=
  match l with
  | [] => Raise (ValueError "attempt to get argmax of an empty sequence")
  | x :: xs => Ok (argmax_from 0%nat x 1%nat xs)
  end.
End Fourier.

(** ** [cyclic_corr] *)

(** A loop [for x in l: s = body(x, s)] that may raise. *)
Fixpoint for_each {A S : Type} (l : list A) (s : S) (body : A -> S -> result S)
  : result S :=
  match l with
  | [] => Ok s
  | a :: l' =>
      match body a s with
      | Ok s' => for_each l' s' body
      | Raise e => Raise e
      end
  end.

Definition rbind {A B : Type} (r : result A) (k : A -> result B) : result B :=
  match r with
  | Ok a => k a
  | Raise e => Raise e
  end.

(** Reading the local variable [n], which is bound only on some paths. *)
Definition read_n (n : option nat) : result nat :=
  match n with
  | Some v => Ok v
  | None => Raise (UnboundLocalError "n")
  end.

(** [acc += s1[i] * np.conj(s2[j])]. *)
Definition step_Zk (s1 s2 : ndarray) (i j : nat) (acc : C) : result C :=
  rbind (getitem s1 i) (fun x =>
  rbind (getitem s2 j) (fun y =>
  rbind (num y) (fun y =>
  rbind (num x) (fun x => Ok (acc + x * Cconj y)%C)))).

(** [acc += np.conj(s1[i]) * s2[j]]. *)
Definition step_Zl (s1 s2 : ndarray) (i j : nat) (acc : C) : result C :=
  rbind (getitem s1 i) (fun x =>
  rbind (num x) (fun x =>
  rbind (getitem s2 j) (fun y =>
  rbind (num y) (fun y => Ok (acc + Cconj x * y)%C)))).

(** The body of [if method == "analytic":]. *)
Definition analytic_branch (s1 s2 : ndarray) (n : option nat)
    (normalized : bool) : result (list C) :=
  rbind (read_n n) (fun n0 =>
  rbind (for_each (seq 0 n0) []
           (fun t Z =>
              rbind (for_each (seq 0 n0) C0
                       (fun k Zk => step_Zk s1 s2 k ((k + t) mod n0) Zk))
                (fun Zk =>
              rbind (for_each (seq 0 n0) C0
                       (fun l Zl => step_Zl s1 s2 l ((l + t) mod n0) Zl))
                (fun Zl => Ok (Z ++ [(Zk * Zl)%C])))))
    (fun Z =>
  if normalized then
    rbind (read_n n) (fun n0 =>
      Ok (map (fun z => Cdiv_R z (INR (n0 ^ 2))) Z))
  else Ok Z)).

(** The body of the [else:] branch. *)
Definition fft_branch (s1 s2 : ndarray) (n : option nat)
    (normalized : bool) : result (list C) :=
  rbind (np_fft s1) (fun X =>
  rbind (np_fft s2) (fun Y =>
  rbind (np_mul X (map Cconj Y)) (fun P =>
  rbind (np_ifft P) (fun Z =>
  if normalized then
    rbind (read_n n) (fun n0 => Ok (map (fun z => Cdiv_R z (INR n0)) Z))
  else Ok Z)))).

(** [method == "analytic"] on the caller's value. *)
Definition eq_analytic (method : pyobj) : bool :=
  match method with
  | PyStr s => String.eqb s "analytic"
  | _ => false
  end.

Definition statistics (Z : list C) : result (list C * R * nat * R) :=
  let abs_Z := map Cabs Z in
  rbind (np_max abs_Z) (fun max_val =>
  rbind (np_min abs_Z) (fun min_val =>
  rbind (np_argmax abs_Z) (fun t_max =>
  Ok (Z, max_val, t_max, min_val)))).

Definition cyclic_corr (s1 s2 method : pyobj) (padded : bool) (wrt : pyobj)
    (normalized : bool) : M (list C * R * nat * R) :=
  if negb (is_list_or_ndarray s1 && is_list_or_ndarray s2) then
    raise (ValueError "Input signals s1 and s2 must be lists or numpy arrays.")
  else
    p <- check_inputs_define_limits s1 s2 method wrt padded ;;
    let (s1, s2) := p in
    let n := if normalized then Some (Nat.min (shape0 s1) (shape0 s2))
             else None in
    Z <- lift (if eq_analytic method then analytic_branch s1 s2 n normalized
               else fft_branch s1 s2 n normalized) ;;
    lift (statistics Z).

(** The part of [cyclic_corr] that follows the call of
    [check_inputs_define_limits], as a function of the two arrays it
    returned; [n] is bound only when [normalized] holds. *)
Definition engine (method : pyobj) (normalized : bool) (a1 a2 : ndarray)
  : result (list C * R * nat * R) :=
  let n := if normalized then Some (Nat.min (shape0 a1) (shape0 a2))
           else None in
  rbind (if eq_analytic method then analytic_branch a1 a2 n normalized
         else fft_branch a1 a2 n normalized)
        statistics.

(** The 1-D numeric array that holds the numbers [x]. *)
Definition arr (x : list C) : ndarray := mk_ndarray [length x] (map ENum x).

(** * The same functions over a store

    The definitions above pass arrays and lists by value.  Python passes
    references: the caller's list or array is an object in a store, and a
    callee could update it in place.  The definitions below run the same
    code over an explicit store.  Objects in the store are the caller's
    signals, the arrays handed back to the caller, and the one object the
    module updates in place (the local list [Z] of the analytic branch);
    arrays that are only temporaries of an expression stay values. *)

Definition loc : Type := nat.

(** A Python value: a scalar, or a reference to an object of the store. *)
Inductive val : Type :=
| VNone
| VInt (z : Z)
| VNum (c : C)
| VStr (s : string)
| VRef (l : loc).

(** An object of the store: a Python list and its items, the header of an
    array (its shape and the buffer it views), or the buffer of an array. *)
Inductive obj : Type :=
| OList (items : list pyobj)
| OArray (shp : list nat) (base : loc)
| OBuf (buf : list elem).

Record state : Type := mk_state { heap : list obj; log : list string }.

(** A stateful call: it returns or raises, and leaves a store and a log of
    warnings. *)
Definition St (A : Type) : Type := state -> result A * state.

Definition ret_s {A : Type} (a : A) : St A := fun st => (Ok a, st).
Definition raise_s {A : Type} (e : exn) : St A := fun st => (Raise e, st).
Definition bind_s {A B : Type} (m : St A) (k : A -> St B) : St B :=
  fun st =>
    match m st with
    | (Ok a, st') => k a st'
    | (Raise e, st') => (Raise e, st')
    end.

Notation "x <~ m ;; k" := (bind_s m (fun x => k))
  (at level 61, m at next level, right associativity).
Notation "m ;;~ k" := (bind_s m (fun _ => k))
  (at level 61, right associativity).

Definition lift_r {A : Type} (r : result A) : St A := fun st => (r, st).

(** A call of a function of the value-passing level: its warnings go to
    the log. *)
Definition lift_M {A : Type} (m : M A) : St A :=
  fun st => (fst m, mk_state (heap st) (log st ++ snd m)).

Definition warn_s (msg : string) : St unit := lift_M (warn msg).

(** Allocation of a new object, at the first unused location. *)
Definition alloc (o : obj) : St loc :=
  fun st => (Ok (length (heap st)), mk_state (heap st ++ [o]) (log st)).

(** Reading an object; a location outside the store cannot be reached from
    Python and is reported as [SystemError]. *)
Definition load (l : loc) : St obj :=
  fun st =>
    match nth_error (heap st) l with
    | Some o => (Ok o, st)
    | None => (Raise SystemError, st)
    end.

(** In-place update of the object at [l]. *)
Definition store (l : loc) (o : obj) : St unit :=
  fun st =>
    if (l <? length (heap st))%nat then
      (Ok tt, mk_state (firstn l (heap st) ++ o :: skipn (S l) (heap st))
                       (log st))
    else (Raise SystemError, st).

(** The number of items of an array of shape [s]. *)
Definition size_of (s : list nat) : nat := fold_right Nat.mul 1%nat s.

(** The array a header denotes: the first items of its buffer. *)
Definition read_array (l : loc) : St ndarray :=
  o <~ load l ;;
  match o with
  | OArray s b =>
      ob <~ load b ;;
      match ob with
      | OBuf d => ret_s (mk_ndarray s (firstn (size_of s) d))
      | _ => raise_s SystemError
      end
  | _ => raise_s SystemError
  end.

(** A new array object with a buffer of its own. *)
Definition alloc_array (a : ndarray) : St loc :=
  b <~ alloc (OBuf (data a)) ;;
  alloc (OArray (shape a) b).

(** The slice [a[:m]] of a 1-D array: a new header on the same buffer. *)
Definition slice_view (l : loc) (m : nat) : St loc :=
  o <~ load l ;;
  match o with
  | OArray s b => alloc (OArray [Nat.min m (hd 0%nat s)] b)
  | _ => raise_s SystemError
  end.

Definition is_None_v (v : val) : bool :=
  match v with VNone => true | _ => false end.

(** [isinstance(v, (list, np.ndarray))]. *)
Definition is_list_or_ndarray_s (v : val) : St bool :=
  match v with
  | VRef l =>
      o <~ load l ;;
      ret_s (match o with OList _ | OArray _ _ => true | OBuf _ => false end)
  | _ => ret_s false
  end.

(** [np.array(s) if not isinstance(s, np.ndarray) else s], on a value that
    passed the [isinstance] test. *)
Definition to_ndarray_s (v : val) : St loc :=
  match v with
  | VRef l =>
      o <~ load l ;;
      match o with
      | OArray _ _ => ret_s l
      | OList items =>
          a <~ lift_r (np_array (PyList items)) ;;
          alloc_array a
      | OBuf _ => raise_s SystemError
      end
  | _ => raise_s SystemError
  end.

(** The scalar a [method] or [wrt] argument is; a reference is no string. *)
Definition scalar_of (v : val) : pyobj :=
  match v with
  | VNone => PyNone
  | VInt z => PyInt z
  | VNum c => PyNum c
  | VStr s => PyStr s
  | VRef _ => PyList []
  end.

Definition check_inputs_define_limits_s
    (s1 s2 method wrt : val) (padded : bool) : St (loc * loc) :=
  if is_None_v s1 || is_None_v s2 then
    raise_s (ValueError "Input signals s1 and s2 must not be None.")
  else
    i1 <~ is_list_or_ndarray_s s1 ;;
    i2 <~ (if i1 then is_list_or_ndarray_s s2 else ret_s false) ;;
    if negb (i1 && i2) then
      raise_s
        (ValueError "Input signals s1 and s2 must be lists or numpy arrays.")
    else
      s1 <~ to_ndarray_s s1 ;;
      s2 <~ to_ndarray_s s2 ;;
      a1 <~ read_array s1 ;;
      a2 <~ read_array s2 ;;
      if negb (ndim a1 =? 1)%nat || negb (ndim a2 =? 1)%nat then
        raise_s (ValueError "Both s1 and s2 must be 1D arrays.")
      else
        method <~ lift_M (check_choice "method" "methods" "('fft', 'analytic')"
                            valid_methods (scalar_of method)) ;;
        wrt <~ lift_M (check_choice "wrt" "options" "('short', 'long')"
                         valid_wrt (scalar_of wrt)) ;;
        if negb (shape0 a1 =? shape0 a2)%nat then
          if padded then
            if (shape0 a2 <? shape0 a1)%nat then
              s2 <~ alloc_array (np_pad a2 (shape0 a1 - shape0 a2)) ;;
              warn_s "s2 is padded to s1 length" ;;~
              ret_s (s1, s2)
            else
              s1 <~ alloc_array (np_pad a1 (shape0 a2 - shape0 a1)) ;;
              warn_s "s1 is padded to s2 length" ;;~
              ret_s (s1, s2)
          else if String.eqb wrt "short" then
            let min_len := Nat.min (shape0 a1) (shape0 a2) in
            s1 <~ slice_view s1 min_len ;;
            s2 <~ slice_view s2 min_len ;;
            warn_s "Signals are truncated to the length of the shorter one" ;;~
            ret_s (s1, s2)
          else
            let max_len := Nat.max (shape0 a1) (shape0 a2) in
            s1 <~ alloc_array (np_resize a1 max_len) ;;
            s2 <~ alloc_array (np_resize a2 max_len) ;;
            warn_s "Signals are resized to the length of the longer one" ;;~
            ret_s (s1, s2)
        else ret_s (s1, s2).

(** [Z.append(x)] on the list at [l]: an update in place. *)
Definition append_s (l : loc) (x : pyobj) : St unit :=
  o <~ load l ;;
  match o with
  | OList items => store l (OList (items ++ [x]))
  | _ => raise_s SystemError
  end.

Fixpoint for_each_s {A S : Type} (l : list A) (s : S)
    (body : A -> S -> St S) : St S :=
  match l with
  | [] => ret_s s
  | a :: l' => s' <~ body a s ;; for_each_s l' s' body
  end.

(** [a[i]] through the reference [l]. *)
Definition getitem_s (l : loc) (i : nat) : St elem :=
  a <~ read_array l ;;
  lift_r (getitem a i).

Definition step_Zk_s (s1 s2 : loc) (i j : nat) (acc : C) : St C :=
  x <~ getitem_s s1 i ;;
  y <~ getitem_s s2 j ;;
  y <~ lift_r (num y) ;;
  x <~ lift_r (num x) ;;
  ret_s (acc + x * Cconj y)%C.

Definition step_Zl_s (s1 s2 : loc) (i j : nat) (acc : C) : St C :=
  x <~ getitem_s s1 i ;;
  x <~ lift_r (num x) ;;
  y <~ getitem_s s2 j ;;
  y <~ lift_r (num y) ;;
  ret_s (acc + Cconj x * y)%C.

(** The analytic branch: [Z = []] is a new list object, [Z.append] updates
    it in place, [np.array(Z)] reads it. *)
Definition analytic_branch_s (s1 s2 : loc) (n : option nat)
    (normalized : bool) : St (list C) :=
  Z <~ alloc (OList []) ;;
  n0 <~ lift_r (read_n n) ;;
  for_each_s (seq 0 n0) tt
    (fun t _ =>
       Zk <~ for_each_s (seq 0 n0) C0
               (fun k Zk => step_Zk_s s1 s2 k ((k + t) mod n0) Zk) ;;
       Zl <~ for_each_s (seq 0 n0) C0
               (fun l Zl => step_Zl_s s1 s2 l ((l + t) mod n0) Zl) ;;
       append_s Z (PyNum (Zk * Zl)%C)) ;;~
  o <~ load Z ;;
  match o with
  | OList items =>
      a <~ lift_r (np_array (PyList items)) ;;
      if normalized then
        n0 <~ lift_r (read_n n) ;;
        ret_s (map (fun z => Cdiv_R z (INR (n0 ^ 2))) (values a))
      else ret_s (values a)
  | _ => raise_s SystemError
  end.

(** The FFT branch reads the two arrays; its intermediate arrays are
    temporaries. *)
Definition fft_branch_s (s1 s2 : loc) (n : option nat) (normalized : bool)
  : St (list C) :=
  a1 <~ read_array s1 ;;
  a2 <~ read_array s2 ;;
  lift_r (fft_branch a1 a2 n normalized).

(** [cyclic_corr] over the store; the returned [Z] is a new array object. *)
Definition cyclic_corr_s (s1 s2 method : val) (padded : bool) (wrt : val)
    (normalized : bool) : St (loc * R * nat * R) :=
  i1 <~ is_list_or_ndarray_s s1 ;;
  i2 <~ (if i1 then is_list_or_ndarray_s s2 else ret_s false) ;;
  if negb (i1 && i2) then
    raise_s
      (ValueError "Input signals s1 and s2 must be lists or numpy arrays.")
  else
    p <~ check_inputs_define_limits_s s1 s2 method wrt padded ;;
    let (s1, s2) := p in
    a1 <~ read_array s1 ;;
    a2 <~ read_array s2 ;;
    let n := if normalized then Some (Nat.min (shape0 a1) (shape0 a2))
             else None in
    Z <~ (if eq_analytic (scalar_of method)
          then analytic_branch_s s1 s2 n normalized
          else fft_branch_s s1 s2 n normalized) ;;
    r <~ lift_r (statistics Z) ;;
    let '(Z, max_val, t_max, min_val) := r in
    lZ <~ alloc_array (arr Z) ;;
    ret_s (lZ, max_val, t_max, min_val).

(** * Specification-level definitions

    The definitions below do not come from the source: they state what the
    specification says, and the theorems compare them with the model. *)

Section ZadoffChuSpec.
Local Open Scope Z_scope.

(** The angle of element [k]: the sequence is [exp(-i * angle)]. *)
Definition ZC_angle (r q N k : Z) : R :=
  (PI / IZR N * IZR r * IZR ((k mod N) + N mod 2 + 2 * (q mod N))
   * IZR (k mod N))%R.

(** The parameters the specification accepts: integers with [N >= 1],
    [1 <= r <= N] and [q >= 0]. *)
Definition ZC_valid (r q N : pyobj) : Prop :=
  exists r' q' N', r = PyInt r' /\ q = PyInt q' /\ N = PyInt N' /\
                   1 <= N' /\ 1 <= r' <= N' /\ 0 <= q'.
End ZadoffChuSpec.

(** ** Signals and the reconciliation policy *)

Definition num_of (o : pyobj) : option C :=
  match o with
  | PyInt z => Some (ZtoC z)
  | PyNum c => Some c
  | _ => None
  end.

(** [is_signal o x]: the Python value [o] is a one-dimensional numeric
    sequence (a list of numbers, or a 1-D array of numbers) with values [x]. *)
Inductive is_signal : pyobj -> list C -> Prop :=
| signal_list (items : list pyobj) (x : list C) :
    Forall2 (fun o c => num_of o = Some c) items x ->
    is_signal (PyList items) x
| signal_array (x : list C) : is_signal (PyNdarray (arr x)) x.

(** A [method] or [wrt] value the validation accepts: a string that is,
    ignoring case, one of the listed words. *)
Definition accepted (valid : list string) (o : pyobj) : Prop :=
  exists s, o = PyStr s /\ str_in (lower s) valid = true.

(** Zero padding on the right up to length [m]. *)
Definition pad_to (x : list C) (m : nat) : list C :=
  x ++ repeat C0 (m - length x).

(** Cyclic tiling up to length [m]: [value_at(i) = original[i mod len]]. *)
Definition tile (x : list C) (m : nat) : list C :=
  map (fun i => nth (i mod length x) x C0) (seq 0 m).

(** The policy table of the specification, on the values of the signals;
    [w] is the lower-cased window. *)
Definition reconciled (padded : bool) (w : string) (x y : list C)
  : list C * list C :=
  let lmax := Nat.max (length x) (length y) in
  let lmin := Nat.min (length x) (length y) in
  if (length x =? length y)%nat then (x, y)
  else if padded then (pad_to x lmax, pad_to y lmax)
  else if String.eqb w "short" then (firstn lmin x, firstn lmin y)
  else (tile x lmax, tile y lmax).

(** The diagnostic that goes with each row of the table. *)
Definition reconcile_warnings (padded : bool) (w : string) (x y : list C)
  : list string :=
  if (length x =? length y)%nat then []
  else if padded then
    if (length y <? length x)%nat then ["s2 is padded to s1 length"%string]
    else ["s1 is padded to s2 length"%string]
  else if String.eqb w "short" then
    ["Signals are truncated to the length of the shorter one"%string]
  else ["Signals are resized to the length of the longer one"%string].

(** ** The two correlation formulas of the specification *)

(** [Zk(t) = sum_{k=0}^{n-1} s1[k] * conj(s2[(k+t) mod n])]. *)
Definition Zk_sum (x y : list C) (n t : nat) : C :=
  big_sum (fun k => (nth k x C0 * Cconj (nth ((k + t) mod n) y C0))%C) n.

(** [Zl(t) = sum_{l=0}^{n-1} conj(s1[l]) * s2[(l+t) mod n]]. *)
Definition Zl_sum (x y : list C) (n t : nat) : C :=
  big_sum (fun l => (Cconj (nth l x C0) * nth ((l + t) mod n) y C0)%C) n.

(** The cyclic cross-correlation at lag [t]:
    [sum_{m=0}^{n-1} x[(m+t) mod n] * conj(y[m])]. *)
Definition cross_correlation (x y : list C) (n t : nat) : C :=
  big_sum (fun m => (nth ((m + t) mod n) x C0 * Cconj (nth m y C0))%C) n.

(** The point of the unit circle at angle [theta]. *)
Definition cis (theta : R) : C := mkC (cos theta) (sin theta).

(** The forward and inverse transforms on lists of numbers. *)
Definition fft (x : list C) : list C := dft (-1) x.
Definition ifft (X : list C) : list C :=
  map (fun z => Cdiv_R z (INR (length X))) (dft 1 X).

(** ** Summary statistics *)

(** [t] is the first index at which the list [l] takes its largest value. *)
Definition is_first_max (l : list R) (t : nat) : Prop :=
  (t < length l)%nat
  /\ (forall j, (j < length l)%nat -> (nth j l 0 <= nth t l 0)%R)
  /\ (forall j, (j < t)%nat -> (nth j l 0 < nth t l 0)%R).

(** ** What the validation inspects *)

(** An item numpy takes as a scalar: anything but a list or an array of one
    or more dimensions. *)
Definition scalar_like (o : pyobj) : bool :=
  match o with
  | PyList _ => false
  | PyNdarray a => match shape a with [] => true | _ => false end
  | _ => true
  end.

(** [o] is a list or an array that numpy sees as one-dimensional: a list of
    scalars of any type, or an array with [ndim == 1]. *)
Definition one_dim (o : pyobj) : bool :=
  match o with
  | PyList l => forallb scalar_like l
  | PyNdarray a => (length (shape a) =? 1)%nat
  | _ => false
  end.

(** The decidable form of [accepted]. *)
Definition choice_ok (valid : list string) (o : pyobj) : bool :=
  match o with
  | PyStr s => str_in (lower s) valid
  | _ => false
  end.

(** ** Frame conditions on the store *)

(** The first [n0] objects of the store [h] are the same in [h']. *)
Definition preserved (n0 : nat) (h h' : list obj) : Prop :=
  (n0 <= length h')%nat
  /\ forall l, (l < n0)%nat -> nth_error h' l = nth_error h l.

(** [m] leaves the first [n0] objects of any store as they are, and a value
    it returns satisfies [Q]. *)
Definition safe {A : Type} (n0 : nat) (m : St A) (Q : A -> Prop) : Prop :=
  forall st, (n0 <= length (heap st))%nat ->
    preserved n0 (heap st) (heap (snd (m st)))
    /\ forall a, fst (m st) = Ok a -> Q a.

(** The list or array a value denotes in a store. *)
Definition denotes (h : list obj) (v : val) : option pyobj :=
  match v with
  | VRef l =>
      match nth_error h l with
      | Some (OList items) => Some (PyList items)
      | Some (OArray s b) =>
          match nth_error h b with
          | Some (OBuf d) =>
              Some (PyNdarray (mk_ndarray s (firstn (size_of s) d)))
          | _ => None
          end
      | _ => None
      end
  | _ => Some (scalar_of v)
  end.

(** The reference [l] denotes the array [a] in the store [h]. *)
Definition array_at (h : list obj) (l : loc) (a : ndarray) : Prop :=
  denotes h (VRef l) = Some (PyNdarray a).

(** ** Energy of a signal *)

Section Energy.
Local Open Scope R_scope.

(** [sum_{k = 0}^{n-1} f k] for real terms. *)
Fixpoint Rsum (f : nat -> R) (n : nat) : R :=
  match n with
  | O => 0%R
  | S n' => (Rsum f n' + f n')%R
  end.

(** The energy of a signal: the sum of its squared magnitudes. *)
Definition energy (x : list C) : R :=
  Rsum (fun m => (Cabs (nth m x C0) * Cabs (nth m x C0))%R) (length x).
End Energy.

(** * Properties *)

(** ** Facts on complex arithmetic *)

Section ComplexFacts.
Local Open Scope R_scope.

Lemma C_eq (a b : C) : Re a = Re b -> Im a = Im b -> a = b.
Proof. destruct a, b; simpl; intros -> ->; reflexivity. Qed.

Lemma Cabs_nonneg (z : C) : 0 <= Cabs z.
Proof. apply sqrt_pos. Qed.

Lemma Cabs_Cexp (z : C) : Cabs (Cexp z) = exp (Re z).
Proof.
  unfold Cabs, Cexp; simpl.
  replace (exp (Re z) * cos (Im z) * (exp (Re z) * cos (Im z))
           + exp (Re z) * sin (Im z) * (exp (Re z) * sin (Im z)))
    with (exp (Re z) * exp (Re z) * ((sin (Im z))² + (cos (Im z))²))
    by (unfold Rsqr; ring).
  rewrite sin2_cos2, Rmult_1_r.
  apply sqrt_square. left. apply exp_pos.
Qed.

Lemma Cabs_Cexp_imaginary (z : C) : Re z = 0 -> Cabs (Cexp z) = 1.
Proof. intros H. rewrite Cabs_Cexp, H. apply exp_0. Qed.
End ComplexFacts.

Lemma C_ring_theory : ring_theory C0 C1 Cadd Cmul Csub Copp (@eq C).
Proof. constructor; intros; apply C_eq; simpl; ring. Qed.

Add Ring C_ring : C_ring_theory.

Section Cis.
Local Open Scope R_scope.

Lemma twiddle_cis (sign : R) (n j k : nat) :
  twiddle sign n j k = cis (sign * (2 * PI * INR j * INR k / INR n)).
Proof.
  unfold twiddle, Cexp, cis. cbn [Re Im]. now rewrite exp_0, !Rmult_1_l.
Qed.

Lemma cis_add (a b : R) : cis (a + b) = (cis a * cis b)%C.
Proof.
  unfold cis, Cmul; simpl. rewrite cos_plus, sin_plus. f_equal; ring.
Qed.

Lemma cis_conj (a : R) : Cconj (cis a) = cis (- a).
Proof. unfold cis, Cconj; simpl. now rewrite cos_neg, sin_neg. Qed.

Lemma cis_0 : cis 0 = C1.
Proof. unfold cis, C1, RtoC. now rewrite cos_0, sin_0. Qed.

Lemma cis_period (a : R) (k : nat) : cis (a + 2 * INR k * PI) = cis a.
Proof. unfold cis. now rewrite cos_period, sin_period. Qed.

Lemma cis_multiple (k : nat) : cis (2 * INR k * PI) = C1.
Proof.
  replace (2 * INR k * PI) with (0 + 2 * INR k * PI) by ring.
  rewrite cis_period. apply cis_0.
Qed.

(** [cis a = 1] forces [a] to be a multiple of [2 pi]. *)
Lemma cis_eq_1 (b : R) : cis (2 * b) = C1 -> exists k : Z, b = IZR k * PI.
Proof.
  intros H. apply (f_equal Re) in H. simpl in H.
  rewrite cos_2a_sin in H.
  apply sin_eq_0_0. nra.
Qed.

Lemma Cmul_cancel (a b : C) : (a * b)%C = C0 -> b <> C0 -> a = C0.
Proof.
  destruct a as [ar ai], b as [br bi]. unfold Cmul, C0, RtoC; simpl.
  intros [= H1 H2] Hb.
  assert (Hn : br * br + bi * bi <> 0).
  { intros E. apply Hb.
    destruct (Rplus_sqr_eq_0 br bi E) as [-> ->]. reflexivity. }
  assert (Ha : ar * (br * br + bi * bi) = 0).
  { replace (ar * (br * br + bi * bi))
      with (br * (ar * br - ai * bi) + bi * (ar * bi + ai * br)) by ring.
    rewrite H1, H2. ring. }
  assert (Hi : ai * (br * br + bi * bi) = 0).
  { replace (ai * (br * br + bi * bi))
      with (br * (ar * bi + ai * br) - bi * (ar * br - ai * bi)) by ring.
    rewrite H1, H2. ring. }
  apply Rmult_integral in Ha, Hi.
  destruct Ha as [->|Ha]; [|contradiction].
  destruct Hi as [->|Hi]; [|contradiction].
  reflexivity.
Qed.
End Cis.

(** ** The Zadoff-Chu generator *)

Section ZadoffChuFacts.
Local Open Scope Z_scope.

(** The phase is purely imaginary: its real part vanishes. *)
Lemma ZC_phase_Re (r q N k : Z) : Re (ZC_phase r q N k) = 0%R.
Proof. unfold ZC_phase, ZtoC, RtoC, Cmul, Copp, Ci; simpl. ring. Qed.

Lemma ZC_phase_Im (r q N k : Z) :
  Im (ZC_phase r q N k) = (- ZC_angle r q N k)%R.
Proof.
  unfold ZC_phase, ZC_angle, ZtoC, RtoC, Cmul, Copp, Ci; simpl. ring.
Qed.

Lemma arange_length (N : Z) : length (arange N) = Z.to_nat N.
Proof. unfold arange. now rewrite length_map, length_seq. Qed.

Lemma arange_nth (N : Z) (k : nat) :
  (k < Z.to_nat N)%nat -> nth k (arange N) 0 = Z.of_nat k.
Proof.
  intros H. unfold arange.
  change 0 with (Z.of_nat 0). rewrite map_nth, seq_nth by assumption.
  reflexivity.
Qed.

Lemma ZC_sequence_valid (r q N : Z) :
  1 <= N -> 1 <= r <= N -> 0 <= q ->
  ZC_sequence (PyInt r) (PyInt q) (PyInt N)
  = Ok (map (fun k => Cexp (ZC_phase r q N k)) (arange N)).
Proof.
  intros HN Hr Hq. unfold ZC_sequence.
  destruct (Z.ltb_spec N 1); [lia|].
  destruct (Z.leb_spec 1 r); [|lia].
  destruct (Z.leb_spec r N); [|lia]. simpl.
  destruct (Z.ltb_spec q 0); [lia|]. reflexivity.
Qed.

Lemma ZC_sequence_raises_iff (r q N : pyobj) :
  (exists msg, ZC_sequence r q N = Raise (ValueError msg))
  <-> ~ ZC_valid r q N.
Proof.
  split.
  - intros [msg H] (r' & q' & N' & -> & -> & -> & HN & Hr & Hq).
    rewrite ZC_sequence_valid in H by assumption. discriminate.
  - intros Hn. unfold ZC_sequence.
    destruct r as [| r' | | | |]; try (eexists; reflexivity).
    destruct q as [| q' | | | |]; try (eexists; reflexivity).
    destruct N as [| N' | | | |]; try (eexists; reflexivity).
    destruct (Z.ltb_spec N' 1); [eexists; reflexivity|].
    destruct (Z.leb_spec 1 r'); simpl; [|eexists; reflexivity].
    destruct (Z.leb_spec r' N'); simpl; [|eexists; reflexivity].
    destruct (Z.ltb_spec q' 0); [eexists; reflexivity|].
    exfalso. apply Hn. exists r', q', N'. repeat split; auto; lia.
Qed.
End ZadoffChuFacts.

Section ZadoffChuClaims.
Local Open Scope Z_scope.

(** Every element of a generated sequence lies on the unit circle. *)
Lemma ZC_sequence_unit_modulus (r q N : Z) (l : list C) :
  ZC_sequence (PyInt r) (PyInt q) (PyInt N) = Ok l ->
  Forall (fun z => Cabs z = 1%R) l.
Proof.
  unfold ZC_sequence.
  destruct (N <? 1); [discriminate|].
  destruct (negb _); [discriminate|].
  destruct (q <? 0); [discriminate|].
  intros [= <-]. apply Forall_map, Forall_forall. intros k _.
  apply Cabs_Cexp_imaginary, ZC_phase_Re.
Qed.

(** Each element in trigonometric form: [cos(angle) - i sin(angle)]. *)
Lemma ZC_element_trig (r q N k : Z) :
  Cexp (ZC_phase r q N k)
  = mkC (cos (ZC_angle r q N k)) (- sin (ZC_angle r q N k)).
Proof.
  unfold Cexp. rewrite ZC_phase_Re, ZC_phase_Im, exp_0, cos_neg, sin_neg.
  f_equal; ring.
Qed.

(** C7. [ZC_sequence(r, q, N)] raises [ValueError] exactly when [r], [q],
    [N] are not all integers, or [N < 1], or [r] is outside [[1, N]], or
    [q < 0]; [ZC_sequence(0, 0, 5)] raises, naming the root constraint;
    for valid parameters the call returns the sequence of length [N] with
    [ZC[k] = exp(-i (pi/N) r ((k mod N) + (N mod 2) + 2 (q mod N)) (k mod N))]. *)
Theorem C7_ZC_sequence_contract :
  (forall r q N : pyobj,
      (exists msg, ZC_sequence r q N = Raise (ValueError msg))
      <-> ~ ZC_valid r q N)
  /\ ZC_sequence (PyInt 0) (PyInt 0) (PyInt 5)
     = Raise (ValueError "Parameter r must satisfy 1 <= r <= N.")
  /\ (forall r q N : Z,
         1 <= N -> 1 <= r <= N -> 0 <= q ->
         exists l,
           ZC_sequence (PyInt r) (PyInt q) (PyInt N) = Ok l
           /\ length l = Z.to_nat N
           /\ forall k, 0 <= k < N ->
                nth (Z.to_nat k) l C0
                = Cexp ((- Ci) * RtoC (PI / IZR N) * ZtoC r
                        * ZtoC ((k mod N) + N mod 2 + 2 * (q mod N))
                        * ZtoC (k mod N))%C).
Proof.
  split; [exact ZC_sequence_raises_iff|]. split; [reflexivity|].
  intros r q N HN Hr Hq. eexists. split; [now apply ZC_sequence_valid|].
  split; [now rewrite length_map, arange_length|].
  intros k Hk.
  rewrite nth_indep with (d' := Cexp (ZC_phase r q N 0))
    by (rewrite length_map, arange_length; lia).
  rewrite (map_nth (fun k => Cexp (ZC_phase r q N k))).
  rewrite arange_nth by lia. rewrite Z2Nat.id by lia. reflexivity.
Qed.

Lemma C7_witness :
  exists l, ZC_sequence (PyInt 2) (PyInt 1) (PyInt 4) = Ok l
            /\ length l = 4%nat.
Proof.
  destruct C7_ZC_sequence_contract as (_ & _ & H).
  destruct (H 2 1 4 ltac:(lia) ltac:(lia) ltac:(lia)) as (l & H1 & H2 & _).
  exists l. split; assumption.
Defined.

(** C9. For every prime [N], [ZC_sequence(1, 0, N)] returns a sequence of
    [N] elements, each of magnitude 1 (exact arithmetic). *)
Theorem C9_prime_length_unit_magnitude (N : Z) :
  Z.prime N ->
  exists l, ZC_sequence (PyInt 1) (PyInt 0) (PyInt N) = Ok l
            /\ length l = Z.to_nat N
            /\ Forall (fun z => Cabs z = 1%R) l.
Proof.
  intros HN. apply Z.prime_ge_2 in HN.
  eexists. split; [apply ZC_sequence_valid; lia|].
  split; [now rewrite length_map, arange_length|].
  eapply ZC_sequence_unit_modulus. apply ZC_sequence_valid; lia.
Qed.

Lemma C9_witness :
  exists l, ZC_sequence (PyInt 1) (PyInt 0) (PyInt 3) = Ok l
            /\ length l = 3%nat
            /\ Forall (fun z => Cabs z = 1%R) l.
Proof. exact (C9_prime_length_unit_magnitude 3 Z.prime_3). Defined.
End ZadoffChuClaims.

(** ** Lists: repetition and tiling *)

Section ListFacts.
Context {A : Type}.

Lemma concat_repeat_length (d : list A) (r : nat) :
  length (concat (repeat d r)) = (r * length d)%nat.
Proof.
  induction r as [|r IH]; simpl; [reflexivity|].
  now rewrite length_app, IH.
Qed.

(** Item [i] of [r] concatenated copies of [d] is item [i mod len(d)]. *)
Lemma concat_repeat_nth (d : list A) (r i : nat) (dflt : A) :
  (i < r * length d)%nat ->
  nth i (concat (repeat d r)) dflt = nth (i mod length d) d dflt.
Proof.
  revert i. induction r as [|r IH]; intros i Hi; simpl in *; [lia|].
  destruct (Nat.lt_ge_cases i (length d)) as [Hlt|Hge].
  - rewrite app_nth1 by assumption. now rewrite Nat.mod_small.
  - rewrite app_nth2 by assumption. rewrite IH by lia.
    f_equal.
    replace i with ((i - length d) + 1 * length d)%nat at 2 by lia.
    now rewrite Nat.Div0.mod_add.
Qed.

Lemma map_const_seq (c : A) (s m : nat) :
  map (fun _ => c) (seq s m) = repeat c m.
Proof.
  revert s. induction m as [|m IH]; intros s; simpl; [reflexivity|].
  now rewrite IH.
Qed.
End ListFacts.

Lemma ceil_div_covers (m k : nat) : (0 < k -> m <= ceil_div m k * k)%nat.
Proof.
  intros Hk. unfold ceil_div.
  pose proof (Nat.div_mod_eq (m + k - 1) k) as E.
  pose proof (Nat.mod_upper_bound (m + k - 1) k ltac:(lia)) as B.
  nia.
Qed.

(** ** Arrays of numbers *)

Lemma is_numeric_arr (x : list C) : is_numeric (arr x) = true.
Proof.
  unfold is_numeric, arr; simpl. apply forallb_forall.
  intros e He. apply in_map_iff in He. destruct He as (c & <- & _).
  reflexivity.
Qed.

Lemma fill_arr (x : list C) : fill (arr x) = ENum C0.
Proof. unfold fill. now rewrite is_numeric_arr. Qed.

Lemma shape0_arr (x : list C) : shape0 (arr x) = length x.
Proof. reflexivity. Qed.

Lemma ndim_arr (x : list C) : ndim (arr x) = 1%nat.
Proof. reflexivity. Qed.

Lemma values_arr (x : list C) : values (arr x) = x.
Proof.
  unfold values, arr; simpl. induction x as [|c x IH]; simpl; [reflexivity|].
  now rewrite IH.
Qed.


Lemma np_pad_arr (x : list C) (k : nat) :
  np_pad (arr x) k = arr (x ++ repeat C0 k).
Proof.
  unfold np_pad. rewrite fill_arr, shape0_arr. unfold arr; simpl.
  now rewrite length_app, repeat_length, map_app, map_repeat.
Qed.

Lemma slice_to_arr (x : list C) (m : nat) :
  slice_to (arr x) m = arr (firstn m x).
Proof.
  unfold slice_to. rewrite shape0_arr. unfold arr; simpl.
  now rewrite length_firstn, firstn_map.
Qed.

Lemma tile_length (x : list C) (m : nat) : length (tile x m) = m.
Proof. unfold tile. now rewrite length_map, length_seq. Qed.

Lemma tile_nth (x : list C) (m i : nat) :
  (i < m)%nat -> nth i (tile x m) C0 = nth (i mod length x) x C0.
Proof.
  intros Hi. unfold tile.
  rewrite nth_indep with (d' := nth (0 mod length x) x C0)
    by now rewrite length_map, length_seq.
  rewrite (map_nth (fun i => nth (i mod length x) x C0)).
  now rewrite seq_nth.
Qed.

(** numpy's [resize] is the cyclic tiling; on an empty array both give
    zeros. *)
Lemma np_resize_arr (x : list C) (m : nat) :
  np_resize (arr x) m = arr (tile x m).
Proof.
  unfold np_resize. rewrite fill_arr. cbn [data arr].
  rewrite length_map.
  destruct (Nat.eqb_spec (length x) 0) as [Hx|Hx]; simpl.
  - unfold arr. rewrite tile_length. f_equal.
    unfold tile. destruct x; [|discriminate]. simpl.
    erewrite map_ext with (g := fun _ => C0)
      by (intros i; simpl; destruct i; reflexivity).
    now rewrite map_const_seq, map_repeat.
  - destruct (Nat.eqb_spec m 0) as [Hm|Hm]; simpl.
    + subst m. reflexivity.
    + unfold arr. rewrite tile_length. f_equal.
      pose proof (ceil_div_covers m (length x) ltac:(lia)) as Hc.
      apply nth_ext with (d := ENum C0) (d' := ENum C0).
      * rewrite length_firstn, concat_repeat_length, !length_map, tile_length.
        lia.
      * rewrite length_firstn, concat_repeat_length, length_map.
        intros i Hi.
        rewrite nth_firstn.
        destruct (Nat.ltb_spec i m); [|lia].
        rewrite concat_repeat_nth by (rewrite length_map; lia).
        rewrite length_map.
        rewrite (map_nth ENum), (map_nth ENum).
        f_equal. symmetry. now apply tile_nth.
Qed.

Lemma stack_scalars (x : list C) :
  stack (map (fun c => Some (@nil nat, [ENum c])) x)
  = Some ([length x], map ENum x).
Proof.
  assert (S : forall x, stack_rows [] (map (fun c => Some (@nil nat, [ENum c])) x)
                        = Some (map ENum x)).
  { intros x0. induction x0 as [|c x0 IH]; simpl; [reflexivity|].
    now rewrite IH. }
  destruct x as [|c x]; [reflexivity|].
  specialize (S (c :: x)). cbn [map] in S.
  unfold stack. cbn [map]. rewrite S. cbn [option_map length].
  now rewrite length_map.
Qed.

Lemma promote_numbers (x : list C) : promote (map ENum x) = map ENum x.
Proof.
  unfold promote.
  now rewrite (is_numeric_arr x : forallb is_num (map ENum x) = true).
Qed.

Lemma to_ndarray_signal (o : pyobj) (x : list C) :
  is_signal o x -> to_ndarray o = Ok (arr x).
Proof.
  intros [items x' H | x']; [|reflexivity].
  unfold to_ndarray, np_array. cbn [discover].
  assert (E : map discover items
              = map (fun c => Some (@nil nat, [ENum c])) x').
  { induction H as [|it c items x' Hit _ IH]; simpl; [reflexivity|].
    rewrite IH. f_equal.
    destruct it; simpl in Hit; inversion Hit; reflexivity. }
  rewrite E, stack_scalars, promote_numbers. reflexivity.
Qed.

Lemma is_signal_container (o : pyobj) (x : list C) :
  is_signal o x -> is_list_or_ndarray o = true /\ is_None o = false.
Proof. intros [? ? ?|?]; split; reflexivity. Qed.

(** ** Validation and reconciliation of two signals *)

Lemma check_choice_accepted (what plural repr : string) (valid : list string)
    (o : pyobj) :
  accepted valid o ->
  exists s, o = PyStr s /\
            check_choice what plural repr valid o = (Ok (lower s), []).
Proof.
  intros (s & -> & Hs). exists s. split; [reflexivity|].
  unfold check_choice. now rewrite Hs.
Qed.

(** On two signals and accepted options, [check_inputs_define_limits]
    returns the arrays the policy table prescribes, with its diagnostic. *)
Lemma check_inputs_signals (s1 s2 method : pyobj) (w : string)
    (padded : bool) (x y : list C) :
  is_signal s1 x -> is_signal s2 y ->
  accepted valid_methods method ->
  str_in (lower w) valid_wrt = true ->
  check_inputs_define_limits s1 s2 method (PyStr w) padded
  = (Ok (arr (fst (reconciled padded (lower w) x y)),
         arr (snd (reconciled padded (lower w) x y))),
     reconcile_warnings padded (lower w) x y).
Proof.
  intros H1 H2 Hm Hw. unfold check_inputs_define_limits.
  destruct (is_signal_container _ _ H1) as [L1 N1].
  destruct (is_signal_container _ _ H2) as [L2 N2].
  rewrite N1, N2, L1, L2. cbn [orb andb negb].
  rewrite (to_ndarray_signal _ _ H1), (to_ndarray_signal _ _ H2).
  unfold lift. cbn [bind]. rewrite !ndim_arr. cbn [Nat.eqb negb orb].
  destruct (check_choice_accepted "method" "methods" "('fft', 'analytic')"
              _ _ Hm)
    as (m & -> & ->).
  unfold check_choice at 1. rewrite Hw. cbn [negb bind ret].
  rewrite !shape0_arr. unfold reconciled, reconcile_warnings.
  destruct (Nat.eqb_spec (length x) (length y)) as [E|E]; cbn [negb].
  - reflexivity.
  - destruct padded.
    + destruct (Nat.ltb_spec (length y) (length x)) as [Hlt|Hge].
      * rewrite np_pad_arr. unfold warn, ret, bind, pad_to. cbn [fst snd app].
        replace (Nat.max (length x) (length y)) with (length x) by lia.
        replace (length x - length x)%nat with 0%nat by lia.
        cbn [repeat]. now rewrite app_nil_r.
      * rewrite np_pad_arr. unfold warn, ret, bind, pad_to. cbn [fst snd app].
        replace (Nat.max (length x) (length y)) with (length y) by lia.
        replace (length y - length y)%nat with 0%nat by lia.
        cbn [repeat]. now rewrite app_nil_r.
    + destruct (String.eqb (lower w) "short").
      * rewrite !slice_to_arr. reflexivity.
      * rewrite !np_resize_arr. reflexivity.
Qed.

Lemma reconciled_same_length (padded : bool) (w : string) (x y : list C) :
  length (fst (reconciled padded w x y))
  = length (snd (reconciled padded w x y)).
Proof.
  unfold reconciled, pad_to.
  destruct (Nat.eqb_spec (length x) (length y)); [assumption|].
  destruct padded; [|destruct (String.eqb w "short")]; cbn [fst snd].
  - rewrite !length_app, !repeat_length. lia.
  - rewrite !length_firstn. lia.
  - now rewrite !tile_length.
Qed.

(** C5. For two valid signals of unequal lengths and accepted options,
    [check_inputs_define_limits] raises nothing and returns two signals of
    equal length: with [padded] the shorter one is zero-padded on the right
    to the longer length and the longer one is unchanged; without [padded]
    and with window "short" both are cut to the shorter length; without
    [padded] and with window "long" both have the longer length and
    [value_at(i) = original[i mod original_length]]. *)
Theorem C5_reconcile_policy (s1 s2 method : pyobj) (w : string)
    (x y : list C) :
  is_signal s1 x -> is_signal s2 y -> x <> [] -> y <> [] ->
  length x <> length y ->
  accepted valid_methods method ->
  str_in (lower w) valid_wrt = true ->
  (* padded = true *)
  ((length x < length y)%nat ->
   check_inputs_define_limits s1 s2 method (PyStr w) true
   = (Ok (arr (x ++ repeat C0 (length y - length x)), arr y),
      ["s1 is padded to s2 length"%string]))
  /\ ((length y < length x)%nat ->
      check_inputs_define_limits s1 s2 method (PyStr w) true
      = (Ok (arr x, arr (y ++ repeat C0 (length x - length y))),
         ["s2 is padded to s1 length"%string]))
  (* padded = false, window "short" *)
  /\ (lower w = "short"%string ->
      let m := Nat.min (length x) (length y) in
      check_inputs_define_limits s1 s2 method (PyStr w) false
      = (Ok (arr (firstn m x), arr (firstn m y)),
         ["Signals are truncated to the length of the shorter one"%string]))
  (* padded = false, window "long" *)
  /\ (lower w = "long"%string ->
      let m := Nat.max (length x) (length y) in
      exists x' y',
        check_inputs_define_limits s1 s2 method (PyStr w) false
        = (Ok (arr x', arr y'),
           ["Signals are resized to the length of the longer one"%string])
        /\ length x' = m /\ length y' = m
        /\ forall i, (i < m)%nat ->
             nth i x' C0 = nth (i mod length x) x C0
             /\ nth i y' C0 = nth (i mod length y) y C0)
  (* in every case: a result, of two signals of equal length *)
  /\ (forall padded, exists x' y' ws,
        check_inputs_define_limits s1 s2 method (PyStr w) padded
        = (Ok (arr x', arr y'), ws)
        /\ length x' = length y').
Proof.
  intros H1 H2 _ _ Hne Hm Hw.
  pose proof (fun padded =>
                check_inputs_signals s1 s2 method w padded x y H1 H2 Hm Hw)
    as Hc.
  assert (Hneb : (length x =? length y)%nat = false)
    by now apply Nat.eqb_neq.
  repeat split.
  - intros Hlt. rewrite Hc. unfold reconciled, reconcile_warnings, pad_to.
    rewrite Hneb. cbn [fst snd].
    destruct (Nat.ltb_spec (length y) (length x)); [lia|].
    replace (Nat.max (length x) (length y)) with (length y) by lia.
    replace (length y - length y)%nat with 0%nat by lia.
    cbn [repeat]. now rewrite app_nil_r.
  - intros Hlt. rewrite Hc. unfold reconciled, reconcile_warnings, pad_to.
    rewrite Hneb. cbn [fst snd].
    destruct (Nat.ltb_spec (length y) (length x)); [|lia].
    replace (Nat.max (length x) (length y)) with (length x) by lia.
    replace (length x - length x)%nat with 0%nat by lia.
    cbn [repeat]. now rewrite app_nil_r.
  - intros Hs m. rewrite Hc. unfold reconciled, reconcile_warnings.
    rewrite Hneb, Hs. reflexivity.
  - intros Hl m. rewrite Hc. unfold reconciled, reconcile_warnings.
    rewrite Hneb, Hl. cbn [String.eqb fst snd].
    exists (tile x m), (tile y m).
    split; [reflexivity|]. rewrite !tile_length.
    split; [reflexivity|]. split; [reflexivity|].
    intros i Hi. split; now apply tile_nth.
  - intros padded. rewrite Hc. do 3 eexists. split; [reflexivity|].
    apply reconciled_same_length.
Qed.

Lemma C5_witness :
  let x := map ZtoC [1; 2; 3; 4]%Z in
  let y := map ZtoC [1; 2; 3; 4; 5; 6]%Z in
  check_inputs_define_limits
    (PyList (map PyInt [1; 2; 3; 4]%Z))
    (PyList (map PyInt [1; 2; 3; 4; 5; 6]%Z))
    (PyStr "fft") (PyStr "Long") true
  = (Ok (arr (x ++ [C0; C0]), arr y), ["s1 is padded to s2 length"%string]).
Proof.
  intros x y.
  refine (proj1 (C5_reconcile_policy
                   (PyList (map PyInt [1; 2; 3; 4]%Z))
                   (PyList (map PyInt [1; 2; 3; 4; 5; 6]%Z))
                   (PyStr "fft") "Long" x y _ _ _ _ _ _ _) _).
  - constructor. repeat constructor.
  - constructor. repeat constructor.
  - discriminate.
  - discriminate.
  - simpl. lia.
  - exists "fft"%string. split; reflexivity.
  - reflexivity.
  - simpl. lia.
Defined.

(** ** Loops *)

Lemma for_each_app {A S : Type} (l1 l2 : list A) (s : S)
    (body : A -> S -> result S) :
  for_each (l1 ++ l2) s body
  = rbind (for_each l1 s body) (fun s' => for_each l2 s' body).
Proof.
  revert s. induction l1 as [|a l1 IH]; intros s; simpl; [reflexivity|].
  destruct (body a s); simpl; [apply IH|reflexivity].
Qed.

(** An accumulation loop over [range(m)] computes the sum of its terms. *)
Lemma for_each_sum (f : nat -> C) (body : nat -> C -> result C) (m : nat) :
  (forall k acc, (k < m)%nat -> body k acc = Ok (acc + f k)%C) ->
  for_each (seq 0 m) C0 body = Ok (big_sum f m).
Proof.
  induction m as [|m IH]; intros Hb; [reflexivity|].
  rewrite seq_S, for_each_app, IH by (intros; apply Hb; lia).
  simpl. now rewrite Hb by lia.
Qed.

(** A loop over [range(m)] that appends one item per round builds the list
    of these items. *)
Lemma for_each_collect {B : Type} (g : nat -> B)
    (body : nat -> list B -> result (list B)) (m : nat) :
  (forall t Z, (t < m)%nat -> body t Z = Ok (Z ++ [g t])) ->
  for_each (seq 0 m) [] body = Ok (map g (seq 0 m)).
Proof.
  induction m as [|m IH]; intros Hb; [reflexivity|].
  rewrite seq_S, for_each_app, IH by (intros; apply Hb; lia).
  simpl. rewrite Hb by lia. now rewrite map_app.
Qed.

Lemma getitem_arr (x : list C) (k : nat) :
  (k < length x)%nat -> getitem (arr x) k = Ok (ENum (nth k x C0)).
Proof.
  intros Hk. unfold getitem, arr; simpl.
  rewrite nth_error_map.
  rewrite (nth_error_nth' x C0 Hk). reflexivity.
Qed.

(** ** The analytic branch *)

Lemma analytic_branch_arr (x y : list C) (normalized : bool) :
  length x = length y ->
  let n := length x in
  analytic_branch (arr x) (arr y) (Some n) normalized
  = Ok (map (fun z => if normalized then Cdiv_R z (INR (n ^ 2)) else z)
            (map (fun t => (Zk_sum x y n t * Zl_sum x y n t)%C) (seq 0 n))).
Proof.
  intros Hlen n. unfold analytic_branch. cbn [read_n rbind].
  rewrite for_each_collect
    with (g := fun t => (Zk_sum x y n t * Zl_sum x y n t)%C).
  - cbn [rbind]. destruct normalized; cbn [rbind]; [reflexivity|].
    now rewrite map_id.
  - intros t Z Ht.
    assert (Hmod : forall k, ((k + t) mod n < length y)%nat).
    { intros k. rewrite <- Hlen. apply Nat.mod_upper_bound. subst n. lia. }
    rewrite for_each_sum
      with (f := fun k => (nth k x C0 * Cconj (nth ((k + t) mod n) y C0))%C).
    2:{ intros k acc Hk. unfold step_Zk.
        rewrite getitem_arr by assumption. cbn [rbind].
        rewrite getitem_arr by apply Hmod. reflexivity. }
    cbn [rbind].
    rewrite for_each_sum
      with (f := fun l => (Cconj (nth l x C0) * nth ((l + t) mod n) y C0)%C).
    2:{ intros k acc Hk. unfold step_Zl.
        rewrite getitem_arr by assumption. cbn [rbind num].
        rewrite getitem_arr by apply Hmod. reflexivity. }
    reflexivity.
Qed.

(** With [n] unbound (the caller passed [normalized=False]) the analytic
    branch raises at its first read of [n]. *)
Lemma analytic_branch_unbound (a1 a2 : ndarray) (normalized : bool) :
  analytic_branch a1 a2 None normalized = Raise (UnboundLocalError "n").
Proof. reflexivity. Qed.

(** ** The reductions [np.max], [np.min] and [np.argmax] *)

Section Reductions.
Local Open Scope R_scope.

Lemma fold_left_Rmax_upper (xs : list R) (x : R) :
  x <= fold_left Rmax xs x
  /\ Forall (fun v => v <= fold_left Rmax xs x) xs.
Proof.
  revert x. induction xs as [|y xs IH]; intros x; simpl.
  - split; [lra|constructor].
  - destruct (IH (Rmax x y)) as [H1 H2].
    pose proof (Rmax_l x y). pose proof (Rmax_r x y).
    split; [lra|]. constructor; [lra|assumption].
Qed.

Lemma fold_left_Rmax_in (xs : list R) (x : R) :
  In (fold_left Rmax xs x) (x :: xs).
Proof.
  revert x. induction xs as [|y xs IH]; intros x; simpl; [now left|].
  destruct (IH (Rmax x y)) as [H|H]; [|now right; right].
  rewrite <- H. unfold Rmax. destruct (Rle_dec x y); [right|]; now left.
Qed.

Lemma fold_left_Rmin_lower (xs : list R) (x : R) :
  fold_left Rmin xs x <= x
  /\ Forall (fun v => fold_left Rmin xs x <= v) xs.
Proof.
  revert x. induction xs as [|y xs IH]; intros x; simpl.
  - split; [lra|constructor].
  - destruct (IH (Rmin x y)) as [H1 H2].
    pose proof (Rmin_l x y). pose proof (Rmin_r x y).
    split; [lra|]. constructor; [lra|assumption].
Qed.

Lemma fold_left_Rmin_in (xs : list R) (x : R) :
  In (fold_left Rmin xs x) (x :: xs).
Proof.
  revert x. induction xs as [|y xs IH]; intros x; simpl; [now left|].
  destruct (IH (Rmin x y)) as [H|H]; [|now right; right].
  rewrite <- H. unfold Rmin. destruct (Rle_dec x y); [|right]; now left.
Qed.

(** The scan keeps the first maximum of the prefix already read. *)
Lemma argmax_from_first_max (xs pre : list R) (best i : nat) (v : R) :
  is_first_max pre best -> v = nth best pre 0 -> i = length pre ->
  is_first_max (pre ++ xs) (argmax_from best v i xs).
Proof.
  revert pre best i v.
  induction xs as [|x xs IH]; intros pre best i v Hb -> ->; simpl.
  - now rewrite app_nil_r.
  - destruct Hb as (Hlt & Hmax & Hfirst).
    replace (pre ++ x :: xs) with ((pre ++ [x]) ++ xs)
      by now rewrite <- app_assoc.
    assert (Hlast : nth (length pre) (pre ++ [x]) 0 = x)
      by (rewrite app_nth2, Nat.sub_diag by lia; reflexivity).
    assert (Hlen : length (pre ++ [x]) = S (length pre))
      by (rewrite length_app; simpl; lia).
    destruct (Rlt_dec (nth best pre 0) x) as [Hx|Hx].
    + apply IH; [|now rewrite Hlast|now rewrite Hlen].
      repeat split.
      * lia.
      * intros j Hj. rewrite Hlast.
        destruct (Nat.eq_dec j (length pre)) as [->|Hne].
        -- rewrite Hlast. lra.
        -- rewrite app_nth1 by lia. specialize (Hmax j ltac:(lia)). lra.
      * intros j Hj. rewrite Hlast.
        rewrite app_nth1 by lia. specialize (Hmax j Hj). lra.
    + apply IH; [|now rewrite app_nth1|now rewrite Hlen].
      repeat split.
      * lia.
      * intros j Hj. rewrite (app_nth1 pre [x] 0 Hlt).
        destruct (Nat.eq_dec j (length pre)) as [->|Hne].
        -- rewrite Hlast. lra.
        -- rewrite app_nth1 by lia. apply Hmax. lia.
      * intros j Hj. rewrite !app_nth1 by lia. now apply Hfirst.
Qed.

Lemma np_argmax_first_max (l : list R) (t : nat) :
  np_argmax l = Ok t -> is_first_max l t.
Proof.
  destruct l as [|x xs]; [discriminate|]. intros [= <-].
  apply (argmax_from_first_max xs [x] 0 1 x); [|reflexivity|reflexivity].
  repeat split; simpl.
  - lia.
  - intros j Hj. assert (j = 0%nat) as -> by lia. lra.
  - intros j Hj. lia.
Qed.

(** The largest value of a list is the value at its first maximum. *)
Lemma np_max_at_first_max (l : list R) (m : R) (t : nat) :
  np_max l = Ok m -> is_first_max l t -> nth t l 0 = m.
Proof.
  destruct l as [|x xs]; [discriminate|]. intros [= <-] (Hlt & Hmax & _).
  destruct (fold_left_Rmax_upper xs x) as [U1 U2].
  apply Rle_antisym.
  - destruct (nth_In (x :: xs) 0 Hlt) as [<-|Hin]; [assumption|].
    rewrite Forall_forall in U2. now apply U2.
  - destruct (In_nth _ _ 0 (fold_left_Rmax_in xs x)) as (j & Hj & <-).
    now apply Hmax.
Qed.
End Reductions.

(** ** The structure of [cyclic_corr] *)

Lemma bind_lift_statistics (r : result (list C)) :
  bind (lift r) (fun Z => lift (statistics Z)) = lift (rbind r statistics).
Proof.
  destruct r as [Z|e]; [|reflexivity].
  unfold lift, bind. cbn [rbind]. reflexivity.
Qed.

(** [cyclic_corr] is its type check, then [check_inputs_define_limits], then
    the engine on the two reconciled arrays. *)
Lemma cyclic_corr_unfold (s1 s2 method wrt : pyobj)
    (padded normalized : bool) :
  cyclic_corr s1 s2 method padded wrt normalized
  = if negb (is_list_or_ndarray s1 && is_list_or_ndarray s2) then
      raise (ValueError "Input signals s1 and s2 must be lists or numpy arrays.")
    else
      bind (check_inputs_define_limits s1 s2 method wrt padded)
           (fun p => lift (engine method normalized (fst p) (snd p))).
Proof.
  unfold cyclic_corr. destruct (negb _); [reflexivity|].
  destruct (check_inputs_define_limits s1 s2 method wrt padded)
    as [[[a1 a2]|e] ws]; [|reflexivity].
  unfold bind at 1 3. cbn [fst snd].
  rewrite bind_lift_statistics. reflexivity.
Qed.

Lemma cyclic_corr_Ok_inv (s1 s2 method wrt : pyobj)
    (padded normalized : bool) (r : list C * R * nat * R) (ws : list string) :
  cyclic_corr s1 s2 method padded wrt normalized = (Ok r, ws) ->
  exists a1 a2,
    check_inputs_define_limits s1 s2 method wrt padded = (Ok (a1, a2), ws)
    /\ engine method normalized a1 a2 = Ok r.
Proof.
  rewrite cyclic_corr_unfold. destruct (negb _); [discriminate|].
  destruct (check_inputs_define_limits _ _ _ _ _) as [[[a1 a2]|e] ws'];
    [|discriminate].
  unfold bind, lift. cbn [fst snd]. rewrite app_nil_r.
  intros [= H <-]. now exists a1, a2.
Qed.

(** On two signals and accepted options the call is the engine applied to
    the reconciled signals. *)
Lemma cyclic_corr_signals (s1 s2 method : pyobj) (w : string)
    (padded normalized : bool) (x y : list C) :
  is_signal s1 x -> is_signal s2 y ->
  accepted valid_methods method ->
  str_in (lower w) valid_wrt = true ->
  cyclic_corr s1 s2 method padded (PyStr w) normalized
  = (engine method normalized
       (arr (fst (reconciled padded (lower w) x y)))
       (arr (snd (reconciled padded (lower w) x y))),
     reconcile_warnings padded (lower w) x y).
Proof.
  intros H1 H2 Hm Hw. rewrite cyclic_corr_unfold.
  destruct (is_signal_container _ _ H1) as [L1 _].
  destruct (is_signal_container _ _ H2) as [L2 _].
  rewrite L1, L2. cbn [andb negb].
  rewrite (check_inputs_signals s1 s2 method w padded x y H1 H2 Hm Hw).
  unfold bind, lift. cbn [fst snd]. now rewrite app_nil_r.
Qed.

Lemma statistics_inv (Z0 Z : list C) (max_val min_val : R) (t_max : nat) :
  statistics Z0 = Ok (Z, max_val, t_max, min_val) ->
  Z = Z0
  /\ np_max (map Cabs Z) = Ok max_val
  /\ np_min (map Cabs Z) = Ok min_val
  /\ np_argmax (map Cabs Z) = Ok t_max.
Proof.
  unfold statistics.
  destruct (np_max (map Cabs Z0)) as [mx|] eqn:Emax; [|discriminate].
  destruct (np_min (map Cabs Z0)) as [mn|] eqn:Emin; [|discriminate].
  destruct (np_argmax (map Cabs Z0)) as [t|] eqn:Earg; [|discriminate].
  cbn [rbind]. intros [= <- <- <- <-]. repeat split; assumption.
Qed.

Lemma statistics_nonempty (Z : list C) :
  Z <> [] ->
  exists max_val t_max min_val,
    statistics Z = Ok (Z, max_val, t_max, min_val).
Proof.
  destruct Z as [|z Z]; [congruence|]. intros _.
  unfold statistics. cbn [map np_max np_min np_argmax rbind].
  do 3 eexists. reflexivity.
Qed.

Lemma engine_inv (method : pyobj) (normalized : bool) (a1 a2 : ndarray)
    (Z : list C) (max_val min_val : R) (t_max : nat) :
  engine method normalized a1 a2 = Ok (Z, max_val, t_max, min_val) ->
  statistics Z = Ok (Z, max_val, t_max, min_val).
Proof.
  unfold engine. destruct (if eq_analytic method then _ else _) as [Z0|e];
    [|discriminate].
  cbn [rbind]. intros H. destruct (statistics_inv _ _ _ _ _ H) as [-> _].
  exact H.
Qed.

Section StatisticsClaim.
Local Open Scope R_scope.

Lemma nth_map_Cabs (Z : list C) (t : nat) :
  nth t (map Cabs Z) 0 = if (t <? length Z)%nat then Cabs (nth t Z C0) else 0.
Proof.
  destruct (Nat.ltb_spec t (length Z)) as [H|H].
  - rewrite nth_indep with (d' := Cabs C0) by now rewrite length_map.
    apply map_nth.
  - apply nth_overflow. now rewrite length_map.
Qed.

(** C8. For every result [(Z, max_val, t_max, min_val)] that [cyclic_corr]
    returns: [max_val] is the largest and [min_val] the smallest of the
    magnitudes [|Z[t]|], both are non-negative, and [t_max] is the smallest
    index with [|Z[t_max]| = max_val] (every earlier item is strictly
    smaller). *)
Theorem C8_statistics (s1 s2 method wrt : pyobj) (padded normalized : bool)
    (Z : list C) (max_val min_val : R) (t_max : nat) (ws : list string) :
  cyclic_corr s1 s2 method padded wrt normalized
  = (Ok (Z, max_val, t_max, min_val), ws) ->
  (* max_val = max |Z| *)
  (forall t, (t < length Z)%nat -> Cabs (nth t Z C0) <= max_val)
  /\ (exists t, (t < length Z)%nat /\ Cabs (nth t Z C0) = max_val)
  (* min_val = min |Z| *)
  /\ (forall t, (t < length Z)%nat -> min_val <= Cabs (nth t Z C0))
  /\ (exists t, (t < length Z)%nat /\ Cabs (nth t Z C0) = min_val)
  /\ 0 <= min_val /\ 0 <= max_val
  (* t_max is the first index of the maximum *)
  /\ (t_max < length Z)%nat
  /\ Cabs (nth t_max Z C0) = max_val
  /\ (forall t, (t < t_max)%nat -> Cabs (nth t Z C0) < max_val).
Proof.
  intros H. apply cyclic_corr_Ok_inv in H. destruct H as (a1 & a2 & _ & H).
  apply engine_inv, statistics_inv in H.
  destruct H as (_ & Hmax & Hmin & Harg).
  pose proof (np_argmax_first_max _ _ Harg) as Hfm.
  pose proof (np_max_at_first_max _ _ _ Hmax Hfm) as Hat.
  destruct Hfm as (Hlt & Hge & Hfirst).
  rewrite length_map in Hlt, Hge.
  assert (Habs : forall t, (t < length Z)%nat ->
                           nth t (map Cabs Z) 0 = Cabs (nth t Z C0)).
  { intros t Ht. rewrite nth_map_Cabs.
    now destruct (Nat.ltb_spec t (length Z)); [|lia]. }
  rewrite Habs in Hat by assumption.
  assert (Hmn : (forall t, (t < length Z)%nat -> min_val <= Cabs (nth t Z C0))
                /\ exists t, (t < length Z)%nat /\ Cabs (nth t Z C0) = min_val).
  { destruct Z as [|z Z]; [discriminate|]. cbn [map np_min] in Hmin.
    injection Hmin as <-.
    destruct (fold_left_Rmin_lower (map Cabs Z) (Cabs z)) as [L1 L2].
    split.
    - intros [|t] Ht; [exact L1|]. cbn [nth]. simpl in Ht.
      rewrite Forall_forall in L2. apply L2.
      apply in_map, nth_In. lia.
    - destruct (In_nth _ _ 0 (fold_left_Rmin_in (map Cabs Z) (Cabs z)))
        as (j & Hj & Ej).
      change (Cabs z :: map Cabs Z) with (map Cabs (z :: Z)) in Hj, Ej.
      rewrite length_map in Hj. exists j. split; [assumption|].
      rewrite <- Ej. symmetry. now apply Habs. }
  destruct Hmn as [Hmn1 (tm & Htm & Etm)].
  repeat split.
  - intros t Ht. rewrite <- Hat, <- !Habs by assumption. now apply Hge.
  - now exists t_max.
  - exact Hmn1.
  - now exists tm.
  - rewrite <- Etm. apply Cabs_nonneg.
  - rewrite <- Hat. apply Cabs_nonneg.
  - assumption.
  - assumption.
  - intros t Ht. rewrite <- Hat, <- !Habs by lia. now apply Hfirst.
Qed.
End StatisticsClaim.

Lemma C8_witness :
  exists z : C,
    cyclic_corr (PyList [PyInt 3]) (PyList [PyInt 2]) (PyStr "analytic")
      true (PyStr "short") true
    = (Ok ([z], Cabs z, 0%nat, Cabs z), [])
    /\ (0 <= Cabs z)%R /\ (0 < length [z])%nat.
Proof.
  eexists.
  assert (H : cyclic_corr (PyList [PyInt 3]) (PyList [PyInt 2])
                (PyStr "analytic") true (PyStr "short") true
              = (Ok ([_], Cabs _, 0%nat, Cabs _), []))
    by reflexivity.
  split; [exact H|].
  destruct (C8_statistics _ _ _ _ _ _ _ _ _ _ _ H)
    as (_ & _ & _ & _ & Hmin & _ & Hlt & _).
  split; assumption.
Defined.

(** ** The two branches on reconciled signals *)

Lemma reconciled_nonempty (padded : bool) (w : string) (x y : list C) :
  x <> [] -> y <> [] ->
  (1 <= length (fst (reconciled padded w x y)))%nat.
Proof.
  intros Hx Hy.
  assert (1 <= length x)%nat by (destruct x; [congruence|simpl; lia]).
  assert (1 <= length y)%nat by (destruct y; [congruence|simpl; lia]).
  unfold reconciled, pad_to.
  destruct (Nat.eqb_spec (length x) (length y)); [assumption|].
  destruct padded; [|destruct (String.eqb w "short")]; cbn [fst].
  - rewrite length_app. lia.
  - rewrite length_firstn. lia.
  - rewrite tile_length. lia.
Qed.

Lemma dft_length (sign : R) (a : list C) : length (dft sign a) = length a.
Proof. unfold dft. now rewrite length_map, length_seq. Qed.

Lemma map2_length (f : C -> C -> C) (x y : list C) :
  length x = length y -> length (map2 f x y) = length x.
Proof.
  revert y. induction x as [|a x IH]; intros [|b y] H; simpl in *;
    try discriminate; [reflexivity|].
  now rewrite IH by lia.
Qed.

Lemma np_fft_arr (x : list C) :
  x <> [] -> np_fft (arr x) = Ok (fft x).
Proof.
  intros Hx. unfold np_fft. rewrite is_numeric_arr, values_arr.
  cbn [negb]. destruct x; [congruence|reflexivity].
Qed.

Lemma np_ifft_nonempty (X : list C) :
  X <> [] -> np_ifft X = Ok (ifft X).
Proof. intros HX. destruct X; [congruence|reflexivity]. Qed.

(** The FFT branch on two reconciled signals of a common length. *)
Lemma fft_branch_arr (x y : list C) (normalized : bool) :
  length x = length y -> x <> [] ->
  let n := length x in
  fft_branch (arr x) (arr y) (if normalized then Some n else None) normalized
  = Ok (map (fun z => if normalized then Cdiv_R z (INR n) else z)
            (ifft (map2 Cmul (fft x) (map Cconj (fft y))))).
Proof.
  intros Hlen Hx n. unfold fft_branch.
  assert (Hy : y <> []) by (destruct y; [destruct x; [congruence|discriminate]|discriminate]).
  rewrite (np_fft_arr x Hx), (np_fft_arr y Hy). cbn [rbind].
  assert (Hl : length (fft x) = length (map Cconj (fft y)))
    by (unfold fft; now rewrite length_map, !dft_length).
  unfold np_mul. rewrite Hl, Nat.eqb_refl. cbn [rbind].
  rewrite np_ifft_nonempty.
  - cbn [rbind]. destruct normalized; cbn [read_n rbind]; [reflexivity|].
    now rewrite map_id.
  - intros E. apply (f_equal (@length C)) in E.
    rewrite map2_length in E by (now rewrite <- Hl).
    unfold fft in E. rewrite dft_length in E.
    destruct x; [congruence|discriminate].
Qed.


Lemma engine_fft_arr (method : pyobj) (normalized : bool) (x y : list C) :
  eq_analytic method = false ->
  length x = length y -> x <> [] ->
  let n := length x in
  engine method normalized (arr x) (arr y)
  = statistics
      (map (fun z => if normalized then Cdiv_R z (INR n) else z)
           (ifft (map2 Cmul (fft x) (map Cconj (fft y))))).
Proof.
  intros Hm Hlen Hx n. unfold engine. rewrite Hm.
  rewrite !shape0_arr, <- Hlen, Nat.min_id.
  rewrite (fft_branch_arr x y normalized Hlen Hx). reflexivity.
Qed.

(** ** The convolution theorem *)

Section BigSum.

Lemma big_sum_ext (f g : nat -> C) (n : nat) :
  (forall k, (k < n)%nat -> f k = g k) -> big_sum f n = big_sum g n.
Proof.
  induction n as [|n IH]; intros H; simpl; [reflexivity|].
  rewrite IH by (intros; apply H; lia). now rewrite H by lia.
Qed.

Lemma big_sum_add (f g : nat -> C) (n : nat) :
  big_sum (fun k => (f k + g k)%C) n = (big_sum f n + big_sum g n)%C.
Proof. induction n as [|n IH]; simpl; [|rewrite IH]; ring. Qed.

Lemma big_sum_scale_l (c : C) (f : nat -> C) (n : nat) :
  big_sum (fun k => (c * f k)%C) n = (c * big_sum f n)%C.
Proof. induction n as [|n IH]; simpl; [|rewrite IH]; ring. Qed.

Lemma big_sum_scale_r (c : C) (f : nat -> C) (n : nat) :
  big_sum (fun k => (f k * c)%C) n = (big_sum f n * c)%C.
Proof. induction n as [|n IH]; simpl; [|rewrite IH]; ring. Qed.

Lemma big_sum_zero (n : nat) : big_sum (fun _ => C0) n = C0.
Proof. induction n as [|n IH]; simpl; [|rewrite IH]; ring. Qed.

Lemma big_sum_swap (f : nat -> nat -> C) (n m : nat) :
  big_sum (fun j => big_sum (fun k => f j k) m) n
  = big_sum (fun k => big_sum (fun j => f j k) n) m.
Proof.
  induction n as [|n IH]; simpl.
  - now rewrite big_sum_zero.
  - rewrite IH, <- big_sum_add. reflexivity.
Qed.

(** A sum with a single non-zero term. *)
Lemma big_sum_delta (f : nat -> C) (i n : nat) :
  (i < n)%nat ->
  big_sum (fun k => if (k =? i)%nat then f k else C0) n = f i.
Proof.
  induction n as [|n IH]; intros Hi; [lia|]. simpl.
  destruct (Nat.eqb_spec n i) as [->|Hne].
  - rewrite big_sum_ext with (g := fun _ => C0).
    + rewrite big_sum_zero. ring.
    + intros k Hk. destruct (Nat.eqb_spec k i); [lia|reflexivity].
  - rewrite IH by lia. ring.
Qed.

Lemma big_sum_conj (f : nat -> C) (n : nat) :
  Cconj (big_sum f n) = big_sum (fun k => Cconj (f k)) n.
Proof.
  induction n as [|n IH]; simpl.
  - apply C_eq; simpl; ring.
  - rewrite <- IH. apply C_eq; simpl; ring.
Qed.

Lemma big_sum_const (c : C) (n : nat) :
  big_sum (fun _ => c) n = (RtoC (INR n) * c)%C.
Proof.
  induction n as [|n IH].
  - simpl. apply C_eq; simpl; ring.
  - cbn [big_sum]. rewrite IH, S_INR. apply C_eq; simpl; ring.
Qed.
End BigSum.

Section Orthogonality.
Local Open Scope R_scope.

(** The geometric sum of the powers of [cis a]. *)
Lemma geometric_cis (a : R) (n : nat) :
  (big_sum (fun k => cis (INR k * a)) n * Csub (cis a) C1)%C
  = Csub (cis (INR n * a)) C1.
Proof.
  induction n as [|n IH].
  - simpl. rewrite Rmult_0_l, cis_0. unfold Csub. ring.
  - cbn [big_sum].
    replace (INR (S n) * a) with (INR n * a + a) by (rewrite S_INR; ring).
    rewrite cis_add.
    transitivity
      ((big_sum (fun k => cis (INR k * a)) n * Csub (cis a) C1
        + cis (INR n * a) * Csub (cis a) C1)%C);
      [ring|].
    rewrite IH. unfold Csub. ring.
Qed.

(** The sum over a full period of the [d]-th harmonic: [n] when [n]
    divides [d], zero otherwise. *)
Lemma harmonic_sum (n d : nat) :
  (0 < n)%nat ->
  big_sum (fun k => cis (INR k * (2 * PI * INR d / INR n))) n
  = if (d mod n =? 0)%nat then RtoC (INR n) else C0.
Proof.
  intros Hn.
  assert (Hn0 : INR n <> 0) by (apply not_0_INR; lia).
  destruct (Nat.eqb_spec (d mod n) 0) as [Hd|Hd].
  - apply Nat.Div0.mod_divides in Hd. destruct Hd as (c & ->).
    rewrite big_sum_ext with (g := fun _ => C1).
    + rewrite big_sum_const. ring.
    + intros k _. rewrite mult_INR.
      replace (INR k * (2 * PI * (INR n * INR c) / INR n))
        with (2 * INR (k * c) * PI) by (rewrite mult_INR; field; assumption).
      apply cis_multiple.
  - apply Cmul_cancel with (b := Csub (cis (2 * PI * INR d / INR n)) C1).
    + rewrite geometric_cis.
      replace (INR n * (2 * PI * INR d / INR n)) with (2 * INR d * PI)
        by (field; assumption).
      rewrite cis_multiple. unfold Csub. ring.
    + intros E. apply Hd.
      assert (E1 : cis (2 * (PI * INR d / INR n)) = C1).
      { replace (2 * (PI * INR d / INR n)) with (2 * PI * INR d / INR n)
          by (field; assumption).
        unfold Csub in E.
        transitivity ((cis (2 * PI * INR d / INR n) + - C1) + C1)%C; [ring|].
        rewrite E. ring. }
      apply cis_eq_1 in E1. destruct E1 as (k & Hk).
      assert (Hk' : INR d = IZR k * INR n).
      { apply Rmult_eq_reg_l with PI; [|apply PI_neq0].
        replace (PI * INR d) with (PI * INR d / INR n * INR n)
          by (field; assumption).
        rewrite Hk. ring. }
      rewrite !INR_IZR_INZ, <- mult_IZR in Hk'. apply eq_IZR in Hk'.
      assert (Hk0 : (0 <= k)%Z) by nia.
      apply Nat.Div0.mod_divides. exists (Z.to_nat k). nia.
Qed.
End Orthogonality.

Section Convolution.
Local Open Scope R_scope.

Lemma dft_nth (sign : R) (a : list C) (k : nat) :
  (k < length a)%nat ->
  nth k (dft sign a) C0
  = big_sum (fun j => (nth j a C0 * twiddle sign (length a) j k)%C)
            (length a).
Proof.
  intros Hk. unfold dft.
  rewrite nth_indep
    with (d' := big_sum (fun j => (nth j a C0 * twiddle sign (length a) j 0)%C)
                        (length a))
    by now rewrite length_map, length_seq.
  rewrite (map_nth (fun k => big_sum (fun j => (nth j a C0
                                        * twiddle sign (length a) j k)%C)
                                     (length a))).
  now rewrite seq_nth.
Qed.

Lemma map2_nth (f : C -> C -> C) (x y : list C) (k : nat) :
  length x = length y -> (k < length x)%nat ->
  nth k (map2 f x y) C0 = f (nth k x C0) (nth k y C0).
Proof.
  revert y k. induction x as [|a x IH]; intros [|b y] k Hl Hk; simpl in *;
    try lia.
  destruct k; [reflexivity|]. apply IH; lia.
Qed.

Lemma map_Cconj_nth (y : list C) (k : nat) :
  (k < length y)%nat -> nth k (map Cconj y) C0 = Cconj (nth k y C0).
Proof.
  intros Hk. rewrite nth_indep with (d' := Cconj C0) by now rewrite length_map.
  apply map_nth.
Qed.

Lemma ifft_nth (X : list C) (t : nat) :
  (t < length X)%nat ->
  nth t (ifft X) C0
  = Cdiv_R (big_sum (fun k => (nth k X C0 * twiddle 1 (length X) k t)%C)
                    (length X))
           (INR (length X)).
Proof.
  intros Ht. unfold ifft.
  rewrite nth_indep with (d' := Cdiv_R C0 (INR (length X)))
    by now rewrite length_map, dft_length.
  rewrite (map_nth (fun z => Cdiv_R z (INR (length X)))).
  now rewrite dft_nth.
Qed.

(** The three transform factors of one term combine to one harmonic. *)
Lemma twiddle_product (n j m k t : nat) :
  (0 < n)%nat -> (j < n)%nat ->
  (twiddle (-1) n j k * Cconj (twiddle (-1) n m k) * twiddle 1 n k t)%C
  = cis (INR k * (2 * PI * INR (m + t + n - j) / INR n)).
Proof.
  intros Hn Hj.
  assert (Hn0 : INR n <> 0) by (apply not_0_INR; lia).
  rewrite !twiddle_cis, cis_conj, <- !cis_add.
  rewrite minus_INR, !plus_INR by lia.
  replace (INR k * (2 * PI * (INR m + INR t + INR n - INR j) / INR n))
    with (-1 * (2 * PI * INR j * INR k / INR n)
          + - (-1 * (2 * PI * INR m * INR k / INR n))
          + 1 * (2 * PI * INR k * INR t / INR n)
          + 2 * INR k * PI)
    by (field; assumption).
  now rewrite cis_period.
Qed.

Lemma shifted_index (n j m t : nat) :
  (0 < n)%nat -> (j < n)%nat ->
  ((m + t + n - j) mod n =? 0)%nat = (j =? (m + t) mod n)%nat.
Proof.
  intros Hn Hj.
  destruct (Nat.eqb_spec j ((m + t) mod n)) as [->|Hne].
  - apply Nat.eqb_eq.
    pose proof (Nat.div_mod_eq (m + t) n) as E.
    apply Nat.Div0.mod_divides. exists (S ((m + t) / n)). nia.
  - apply Nat.eqb_neq. intros E. apply Hne.
    apply Nat.Div0.mod_divides in E. destruct E as (c & E).
    destruct c as [|c]; [lia|]. rewrite Nat.mul_succ_r in E.
    assert (E' : (m + t = j + c * n)%nat) by lia.
    rewrite E', Nat.Div0.mod_add. now rewrite Nat.mod_small.
Qed.

Lemma Cdiv_R_scaled (z : C) (r : R) :
  r <> 0 -> Cdiv_R (z * RtoC r)%C r = z.
Proof. intros Hr. apply C_eq; simpl; field; assumption. Qed.

(** The convolution theorem for the transforms of the model: the inverse
    transform of [fft(x) * conj(fft(y))] is the cyclic cross-correlation
    [sum_m x[(m+t) mod n] conj(y[m])]. *)
Theorem ifft_fft_cross_correlation (x y : list C) (t : nat) :
  length x = length y -> (t < length x)%nat ->
  nth t (ifft (map2 Cmul (fft x) (map Cconj (fft y)))) C0
  = cross_correlation x y (length x) t.
Proof.
  intros Hlen Ht. set (n := length x).
  assert (Hn : (0 < n)%nat) by (unfold n; lia).
  assert (Hn0 : INR n <> 0) by (apply not_0_INR; lia).
  assert (LX : length (fft x) = n) by apply dft_length.
  assert (LY : length (fft y) = n)
    by (unfold fft; now rewrite dft_length, <- Hlen).
  assert (LP : length (map2 Cmul (fft x) (map Cconj (fft y))) = n)
    by (rewrite map2_length; [assumption|now rewrite length_map, LX, LY]).
  rewrite ifft_nth by (rewrite LP; exact Ht). rewrite LP.
  rewrite big_sum_ext
    with (g := fun k =>
                 big_sum (fun m =>
                   big_sum (fun j =>
                     ((nth j x C0 * Cconj (nth m y C0))
                      * cis (INR k * (2 * PI * INR (m + t + n - j) / INR n)))%C)
                     n) n).
  2:{ intros k Hk.
      rewrite map2_nth by (rewrite ?length_map, ?LX, ?LY; lia).
      rewrite map_Cconj_nth by (rewrite LY; lia).
      unfold fft. rewrite !dft_nth by lia. rewrite <- Hlen. fold n.
      rewrite big_sum_conj, <- big_sum_scale_l, <- big_sum_scale_r.
      apply big_sum_ext. intros m Hm.
      rewrite <- big_sum_scale_r, <- big_sum_scale_r.
      apply big_sum_ext. intros j Hj.
      rewrite <- (twiddle_product n j m k t Hn Hj).
      apply C_eq; simpl; ring. }
  rewrite big_sum_swap.
  rewrite big_sum_ext
    with (g := fun m => (nth ((m + t) mod n) x C0 * Cconj (nth m y C0)
                         * RtoC (INR n))%C).
  2:{ intros m Hm. rewrite big_sum_swap.
      rewrite big_sum_ext
        with (g := fun j => if (j =? (m + t) mod n)%nat
                            then (nth j x C0 * Cconj (nth m y C0)
                                  * RtoC (INR n))%C
                            else C0).
      - apply (big_sum_delta
                 (fun j => (nth j x C0 * Cconj (nth m y C0) * RtoC (INR n))%C)).
        now apply Nat.mod_upper_bound, Nat.neq_0_lt_0.
      - intros j Hj. rewrite big_sum_scale_l, harmonic_sum by assumption.
        rewrite shifted_index by assumption.
        destruct (j =? (m + t) mod n)%nat; [reflexivity|ring]. }
  rewrite big_sum_scale_r. rewrite Cdiv_R_scaled by assumption.
  reflexivity.
Qed.
End Convolution.

(** ** The engine: claims *)

Section EngineClaims.
Local Open Scope R_scope.

Lemma accepted_analytic : accepted valid_methods (PyStr "analytic").
Proof. exists "analytic"%string. split; reflexivity. Qed.

Lemma accepted_Analytic : accepted valid_methods (PyStr "Analytic").
Proof. exists "Analytic"%string. split; reflexivity. Qed.

Lemma accepted_fft : accepted valid_methods (PyStr "fft").
Proof. exists "fft"%string. split; reflexivity. Qed.




(** The product of the two sums is not the single-sum cross-correlation:
    on [s1 = [2]], [s2 = [1]] the call returns [4] where the single sum
    [Zk(0)] is [2]. *)
Lemma analytic_differs_from_single_sum :
  exists z : C,
    cyclic_corr (PyList [PyInt 2]) (PyList [PyInt 1]) (PyStr "analytic")
      true (PyStr "short") true
    = (Ok ([z], Cabs z, 0%nat, Cabs z), [])
    /\ Re z = 4 /\ Im z = 0
    /\ Zk_sum [ZtoC 2] [ZtoC 1] 1 0 = mkC 2 0.
Proof.
  eexists. split; [reflexivity|]. cbn. repeat split; try lra.
  apply C_eq; cbn; lra.
Qed.

(** On valid signals the method "analytic" with [normalized=False] always
    raises: [n] is assigned only under [if(normalized):], and the analytic
    branch reads it in [range(n)]. *)
Lemma analytic_unnormalized_raises (s1 s2 : pyobj) (w : string)
    (padded : bool) (x y : list C) :
  is_signal s1 x -> is_signal s2 y ->
  str_in (lower w) valid_wrt = true ->
  cyclic_corr s1 s2 (PyStr "analytic") padded (PyStr w) false
  = (Raise (UnboundLocalError "n"), reconcile_warnings padded (lower w) x y).
Proof.
  intros H1 H2 Hw.
  rewrite (cyclic_corr_signals s1 s2 (PyStr "analytic") w padded false x y
             H1 H2 accepted_analytic Hw).
  reflexivity.
Qed.

(** C2 (the code departs from the claim). The call
    [cyclic_corr([1, 2], [3, 4], method="analytic", normalized=False)]
    raises [UnboundLocalError] for the local [n] instead of returning a
    correlation of length 2. *)
Theorem C2_analytic_unnormalized_crashes :
  cyclic_corr (PyList [PyInt 1; PyInt 2]) (PyList [PyInt 3; PyInt 4])
    (PyStr "analytic") true (PyStr "short") false
  = (Raise (UnboundLocalError "n"), []).
Proof. reflexivity. Qed.

Lemma ifft_length (X : list C) : length (ifft X) = length X.
Proof. unfold ifft. now rewrite length_map, dft_length. Qed.

(** The sequence the FFT branch computes from two reconciled signals. *)
Lemma fft_result_length (normalized : bool) (n : nat) (x y : list C) :
  length x = length y ->
  length (map (fun z => if normalized then Cdiv_R z (INR n) else z)
              (ifft (map2 Cmul (fft x) (map Cconj (fft y)))))
  = length x.
Proof.
  intros Hlen. rewrite length_map, ifft_length, map2_length.
  - apply dft_length.
  - unfold fft. now rewrite length_map, !dft_length.
Qed.

(** On reconciled signals the engine with an FFT-selecting method returns,
    with the sequence of the FFT branch. *)
Lemma engine_fft_returns (method : pyobj) (normalized : bool)
    (x y : list C) :
  eq_analytic method = false -> length x = length y -> x <> [] ->
  exists (max_val min_val : R) (t_max : nat),
    engine method normalized (arr x) (arr y)
    = Ok (map (fun z => if normalized then Cdiv_R z (INR (length x)) else z)
              (ifft (map2 Cmul (fft x) (map Cconj (fft y)))),
          max_val, t_max, min_val).
Proof.
  intros Hna Hlen Hx.
  rewrite (engine_fft_arr method normalized x y Hna Hlen Hx).
  destruct (statistics_nonempty
              (map (fun z => if normalized
                             then Cdiv_R z (INR (length x)) else z)
                   (ifft (map2 Cmul (fft x) (map Cconj (fft y))))))
    as (mx & t & mn & Hs).
  - intros E. apply (f_equal (@length C)) in E.
    rewrite (fft_result_length normalized (length x) x y Hlen) in E.
    destruct x; [congruence|discriminate].
  - now exists mx, mn, t.
Qed.

(** C4. With a method that selects the FFT branch, on two valid signals
    reconciled to the common length [n], the call returns
    [ifft(fft(s1) * conj(fft(s2)))], divided by [n] (not [n] squared) when
    [normalized] holds and undivided otherwise; the result has [n] items,
    and by the convolution theorem its item [t] is the cyclic
    cross-correlation [sum_m s1[(m+t) mod n] conj(s2[m])] (divided by [n]
    when [normalized] holds). *)
Theorem C4_fft_branch_result (s1 s2 method : pyobj) (w : string)
    (padded normalized : bool) (x y : list C) :
  is_signal s1 x -> is_signal s2 y -> x <> [] -> y <> [] ->
  accepted valid_methods method -> eq_analytic method = false ->
  str_in (lower w) valid_wrt = true ->
  exists (x' y' : list C) (ws : list string)
         (Z : list C) (max_val min_val : R) (t_max : nat),
    let n := length x' in
    check_inputs_define_limits s1 s2 method (PyStr w) padded
    = (Ok (arr x', arr y'), ws)
    /\ length y' = n /\ (1 <= n)%nat
    /\ cyclic_corr s1 s2 method padded (PyStr w) normalized
       = (Ok (Z, max_val, t_max, min_val), ws)
    /\ length Z = n
    /\ np_fft (arr x') = Ok (fft x') /\ np_fft (arr y') = Ok (fft y')
    /\ np_ifft (map2 Cmul (fft x') (map Cconj (fft y')))
       = Ok (ifft (map2 Cmul (fft x') (map Cconj (fft y'))))
    /\ Z = (if normalized
            then map (fun z => Cdiv_R z (INR n))
                     (ifft (map2 Cmul (fft x') (map Cconj (fft y'))))
            else ifft (map2 Cmul (fft x') (map Cconj (fft y'))))
    /\ forall t, (t < n)%nat ->
         nth t Z C0
         = if normalized
           then Cdiv_R (big_sum (fun m => nth ((m + t) mod n) x' C0
                                          * Cconj (nth m y' C0))%C n)
                       (INR n)
           else big_sum (fun m => nth ((m + t) mod n) x' C0
                                  * Cconj (nth m y' C0))%C n.
Proof.
  intros H1 H2 Hx Hy Hm Hna Hw.
  set (x' := fst (reconciled padded (lower w) x y)).
  set (y' := snd (reconciled padded (lower w) x y)).
  assert (Hlen : length x' = length y') by apply reconciled_same_length.
  assert (Hpos : (1 <= length x')%nat) by now apply reconciled_nonempty.
  assert (Hx' : x' <> []) by (intros E; rewrite E in Hpos; simpl in Hpos; lia).
  assert (Hy' : y' <> [])
    by (intros E; rewrite E in Hlen; simpl in Hlen; lia).
  destruct (engine_fft_returns method normalized x' y' Hna Hlen Hx')
    as (mx & mn & t & He).
  assert (HW : length (ifft (map2 Cmul (fft x') (map Cconj (fft y'))))
               = length x')
    by (pose proof (fft_result_length false 0 x' y' Hlen) as HL;
        now rewrite length_map in HL).
  exists x', y', (reconcile_warnings padded (lower w) x y).
  eexists. exists mx, mn, t.
  cbv zeta. split; [|split; [|split; [|split; [|split; [|split; [|split;
    [|split; [|split]]]]]]]].
  - now apply check_inputs_signals.
  - now symmetry.
  - assumption.
  - rewrite (cyclic_corr_signals s1 s2 method w padded normalized x y
               H1 H2 Hm Hw).
    fold x' y'. rewrite He. reflexivity.
  - apply (fft_result_length normalized (length x') x' y' Hlen).
  - now apply np_fft_arr.
  - now apply np_fft_arr.
  - apply np_ifft_nonempty. intros E. rewrite E in HW. simpl in HW. lia.
  - destruct normalized; [reflexivity|apply map_id].
  - intros k Hk.
    pose proof (ifft_fft_cross_correlation x' y' k Hlen Hk) as Hcc.
    unfold cross_correlation in Hcc.
    destruct normalized.
    + rewrite nth_indep with (d' := Cdiv_R C0 (INR (length x')))
        by (rewrite length_map, HW; exact Hk).
      rewrite (map_nth (fun z => Cdiv_R z (INR (length x')))).
      now rewrite Hcc.
    + rewrite map_id. exact Hcc.
Qed.

Lemma C4_witness :
  exists (x' y' Z : list C) (max_val min_val : R) (t_max : nat)
         (ws : list string),
    cyclic_corr (PyList (map PyInt [1; 2; 3]%Z))
                (PyList (map PyInt [4; 5]%Z))
                (PyStr "FFT") false (PyStr "long") true
    = (Ok (Z, max_val, t_max, min_val), ws)
    /\ length Z = length x'
    /\ Z = map (fun z => Cdiv_R z (INR (length x')))
               (ifft (map2 Cmul (fft x') (map Cconj (fft y')))).
Proof.
  destruct (C4_fft_branch_result
              (PyList (map PyInt [1; 2; 3]%Z)) (PyList (map PyInt [4; 5]%Z))
              (PyStr "FFT") "long" false true
              (map ZtoC [1; 2; 3]%Z) (map ZtoC [4; 5]%Z))
    as (x' & y' & ws & Z & mx & mn & t & _ & _ & _ & Hr & HZ & _ & _ & _ & E
        & _).
  - constructor. repeat constructor.
  - constructor. repeat constructor.
  - discriminate.
  - discriminate.
  - exists "FFT"%string. split; reflexivity.
  - reflexivity.
  - reflexivity.
  - exists x', y', Z, mx, mn, t, ws. repeat split; assumption.
Defined.

(** C1. On two valid signals the mixed-case method "Analytic" passes the
    validation of [check_inputs_define_limits], and [cyclic_corr] then runs
    its FFT branch: the call returns, and its outcome is the FFT branch on
    the reconciled signals followed by the statistics, the same outcome as
    with the method "fft". *)
Theorem C1_mixed_case_method_runs_fft (s1 s2 : pyobj) (w : string)
    (padded normalized : bool) (x y : list C) :
  is_signal s1 x -> is_signal s2 y -> x <> [] -> y <> [] ->
  str_in (lower w) valid_wrt = true ->
  exists (a1 a2 : ndarray) (ws : list string),
    check_inputs_define_limits s1 s2 (PyStr "Analytic") (PyStr w) padded
    = (Ok (a1, a2), ws)
    /\ cyclic_corr s1 s2 (PyStr "Analytic") padded (PyStr w) normalized
       = (rbind (fft_branch a1 a2
                   (if normalized
                    then Some (Nat.min (shape0 a1) (shape0 a2)) else None)
                   normalized)
                statistics,
          ws)
    /\ cyclic_corr s1 s2 (PyStr "Analytic") padded (PyStr w) normalized
       = cyclic_corr s1 s2 (PyStr "fft") padded (PyStr w) normalized
    /\ exists r, cyclic_corr s1 s2 (PyStr "Analytic") padded (PyStr w)
                   normalized = (Ok r, ws).
Proof.
  intros H1 H2 Hx Hy Hw.
  set (x' := fst (reconciled padded (lower w) x y)).
  set (y' := snd (reconciled padded (lower w) x y)).
  assert (Hlen : length x' = length y') by apply reconciled_same_length.
  assert (Hpos : (1 <= length x')%nat) by now apply reconciled_nonempty.
  assert (Hx' : x' <> []) by (intros E; rewrite E in Hpos; simpl in Hpos; lia).
  pose proof (cyclic_corr_signals s1 s2 (PyStr "Analytic") w padded normalized
                x y H1 H2 accepted_Analytic Hw) as Hc.
  fold x' y' in Hc.
  exists (arr x'), (arr y'), (reconcile_warnings padded (lower w) x y).
  split; [|split; [|split]].
  - now apply check_inputs_signals; auto using accepted_Analytic.
  - rewrite Hc. reflexivity.
  - rewrite Hc.
    rewrite (cyclic_corr_signals s1 s2 (PyStr "fft") w padded normalized
               x y H1 H2 accepted_fft Hw).
    reflexivity.
  - destruct (engine_fft_returns (PyStr "Analytic") normalized x' y'
                eq_refl Hlen Hx') as (mx & mn & t & He).
    rewrite Hc, He. eexists. reflexivity.
Qed.

Lemma C1_witness :
  exists r ws,
    cyclic_corr (PyList (map PyInt [1; 2; 3]%Z))
                (PyList (map PyInt [4; 5; 6]%Z))
                (PyStr "Analytic") true (PyStr "short") true
    = (Ok r, ws)
    /\ cyclic_corr (PyList (map PyInt [1; 2; 3]%Z))
                   (PyList (map PyInt [4; 5; 6]%Z))
                   (PyStr "Analytic") true (PyStr "short") true
       = cyclic_corr (PyList (map PyInt [1; 2; 3]%Z))
                     (PyList (map PyInt [4; 5; 6]%Z))
                     (PyStr "fft") true (PyStr "short") true.
Proof.
  destruct (C1_mixed_case_method_runs_fft
              (PyList (map PyInt [1; 2; 3]%Z))
              (PyList (map PyInt [4; 5; 6]%Z))
              "short" true true
              (map ZtoC [1; 2; 3]%Z) (map ZtoC [4; 5; 6]%Z))
    as (a1 & a2 & ws & _ & _ & E & r & Hr).
  - constructor. repeat constructor.
  - constructor. repeat constructor.
  - discriminate.
  - discriminate.
  - reflexivity.
  - exists r, ws. split; assumption.
Defined.

(** The branch taken matters: on [s1 = [2]], [s2 = [1]] the method
    "Analytic" (FFT branch) and the method "analytic" return different
    sequences. *)
Lemma mixed_case_differs_from_analytic :
  cyclic_corr (PyList [PyInt 2]) (PyList [PyInt 1])
    (PyStr "Analytic") true (PyStr "short") true
  <> cyclic_corr (PyList [PyInt 2]) (PyList [PyInt 1])
       (PyStr "analytic") true (PyStr "short") true.
Proof.
  intros E.
  assert (E1 : cyclic_corr (PyList [PyInt 2]) (PyList [PyInt 1])
                 (PyStr "Analytic") true (PyStr "short") true
               = (Ok ([_], Cabs _, 0%nat, Cabs _), [])) by reflexivity.
  assert (E2 : cyclic_corr (PyList [PyInt 2]) (PyList [PyInt 1])
                 (PyStr "analytic") true (PyStr "short") true
               = (Ok ([_], Cabs _, 0%nat, Cabs _), [])) by reflexivity.
  rewrite E1, E2 in E. injection E as E _. clear E1 E2.
  replace (-1 * (2 * PI * 0 * 0 / 1)) with 0 in E by lra.
  replace (1 * (2 * PI * 0 * 0 / 1)) with 0 in E by lra.
  rewrite exp_0, cos_0, sin_0 in E. lra.
Qed.
End EngineClaims.

(** ** Which inputs the validation rejects *)

Lemma choice_ok_accepted (valid : list string) (o : pyobj) :
  choice_ok valid o = true <-> accepted valid o.
Proof.
  split.
  - destruct o; try discriminate. intros H. now exists s.
  - intros (s & -> & H). exact H.
Qed.

Lemma stack_rows_shapes (s : list nat)
    (rows : list (option (list nat * list elem))) (d : list elem) :
  stack_rows s rows = Some d ->
  Forall (fun r => exists d0, r = Some (s, d0)) rows.
Proof.
  revert d. induction rows as [|[[s' d']|] rows IH]; intros d; simpl.
  - constructor.
  - destruct (list_nat_eqb s s') eqn:E; [|discriminate].
    destruct (stack_rows s rows) as [d1|] eqn:E1; [|discriminate].
    intros _. constructor; [|now apply (IH d1)].
    exists d'. f_equal. f_equal.
    clear -E. revert s' E. induction s as [|a s IHs]; intros [|b s'] E;
      simpl in E; try discriminate; [reflexivity|].
    apply andb_prop in E. destruct E as [E1 E2].
    apply Nat.eqb_eq in E1. subst b. now rewrite (IHs s' E2).
  - discriminate.
Qed.

Lemma stack_rows_scalars (rows : list (option (list nat * list elem))) :
  Forall (fun r => exists d0, r = Some (@nil nat, d0)) rows ->
  exists d, stack_rows [] rows = Some d.
Proof.
  induction 1 as [|r rows (d0 & ->) _ (d & IH)]; simpl.
  - now exists [].
  - rewrite IH. now exists (d0 ++ d).
Qed.

(** An item is scalar-like exactly when its discovered shape is [()]. *)
Lemma scalar_like_discover (o : pyobj) :
  scalar_like o = true <-> exists d, discover o = Some (@nil nat, d).
Proof.
  destruct o as [| z | c | s | l | a]; simpl;
    try (split; [intros _; eexists; reflexivity|reflexivity]).
  - split; [discriminate|]. intros (d & H). exfalso.
    unfold stack in H. destruct (map discover l) as [|[[s0 d0]|] rows];
      [discriminate| |discriminate].
    destruct (stack_rows s0 _); discriminate.
  - destruct a as [sh da]; simpl. split.
    + destruct sh; [|discriminate]. intros _. now exists da.
    + intros (d & [= -> _]). reflexivity.
Qed.

(** A list converts to a 1-D array exactly when all its items are
    scalar-like; otherwise [np.array] raises or yields another [ndim]. *)
Lemma np_array_list_one_dim (l : list pyobj) :
  if forallb scalar_like l
  then exists a, np_array (PyList l) = Ok a /\ ndim a = 1%nat
  else (exists msg, np_array (PyList l) = Raise (ValueError msg))
       \/ (exists a, np_array (PyList l) = Ok a /\ ndim a <> 1%nat).
Proof.
  destruct (forallb scalar_like l) eqn:E.
  - rewrite forallb_forall in E.
    assert (F : Forall (fun r => exists d0, r = Some (@nil nat, d0))
                       (map discover l)).
    { apply Forall_forall. intros r Hr. apply in_map_iff in Hr.
      destruct Hr as (o & <- & Ho). apply scalar_like_discover. now apply E. }
    unfold np_array. cbn [discover]. unfold stack.
    destruct (map discover l) as [|r rows] eqn:Er.
    + eexists. split; reflexivity.
    + destruct (stack_rows_scalars _ F) as (d & Hd).
      inversion F as [|? ? (d0 & ->) _]; subst.
      rewrite Hd. cbn [option_map]. eexists. split; reflexivity.
  - unfold np_array. cbn [discover].
    destruct (stack (map discover l)) as [[s d]|] eqn:Es.
    + right. eexists. split; [reflexivity|]. unfold ndim; cbn [shape].
      unfold stack in Es.
      destruct (map discover l) as [|[[s0 d0]|] rows] eqn:Er;
        [|  |discriminate].
      * destruct l; [discriminate E|discriminate Er].
      * destruct (stack_rows s0 (Some (s0, d0) :: rows)) as [d1|] eqn:Ed;
          [|discriminate].
        injection Es as <- <-. simpl.
        destruct s0 as [|k s0]; [|discriminate].
        exfalso. apply stack_rows_shapes in Ed. rewrite <- Er in Ed.
        assert (T : forallb scalar_like l = true); [|congruence].
        apply forallb_forall. intros o Ho. apply scalar_like_discover.
        rewrite Forall_forall in Ed. apply Ed. now apply in_map.
    + left. eexists. reflexivity.
Qed.

Lemma to_ndarray_one_dim (o : pyobj) :
  is_list_or_ndarray o = true ->
  if one_dim o
  then exists a, to_ndarray o = Ok a /\ ndim a = 1%nat
  else (exists msg, to_ndarray o = Raise (ValueError msg))
       \/ (exists a, to_ndarray o = Ok a /\ ndim a <> 1%nat).
Proof.
  destruct o as [| z | c | s | l | a]; try discriminate; intros _.
  - exact (np_array_list_one_dim l).
  - cbn [one_dim to_ndarray]. unfold ndim.
    destruct (Nat.eqb_spec (length (shape a)) 1).
    + now exists a.
    + right. now exists a.
Qed.

Lemma check_choice_outcome (what plural repr : string) (valid : list string)
    (o : pyobj) :
  if choice_ok valid o
  then exists s, check_choice what plural repr valid o = (Ok s, [])
  else exists msg,
      check_choice what plural repr valid o = (Raise (ValueError msg), []).
Proof.
  destruct o as [| z | c | s | l | a]; cbn [choice_ok check_choice];
    try (eexists; reflexivity).
  destruct (str_in (lower s) valid); cbn [negb]; eexists; reflexivity.
Qed.

(** The outcome of the validation: a pair of arrays when both signals are
    one-dimensional lists or arrays and both options are accepted, a
    [ValueError] (and no warning) otherwise. *)
Lemma check_inputs_outcome (s1 s2 method wrt : pyobj) (padded : bool) :
  if one_dim s1 && one_dim s2
     && choice_ok valid_methods method && choice_ok valid_wrt wrt
  then exists a1 a2 ws,
      check_inputs_define_limits s1 s2 method wrt padded = (Ok (a1, a2), ws)
  else exists msg,
      check_inputs_define_limits s1 s2 method wrt padded
      = (Raise (ValueError msg), []).
Proof.
  unfold check_inputs_define_limits.
  destruct (is_None s1 || is_None s2) eqn:EN.
  { replace (one_dim s1 && one_dim s2) with false.
    - eexists; reflexivity.
    - destruct s1; try reflexivity; destruct s2;
        try discriminate EN; symmetry; apply andb_false_r. }
  destruct (is_list_or_ndarray s1) eqn:L1; cbn [andb negb].
  2:{ replace (one_dim s1) with false by (now destruct s1).
      eexists; reflexivity. }
  destruct (is_list_or_ndarray s2) eqn:L2; cbn [andb negb].
  2:{ replace (one_dim s2) with false by (now destruct s2).
      rewrite andb_false_r. eexists; reflexivity. }
  pose proof (to_ndarray_one_dim s1 L1) as T1.
  pose proof (to_ndarray_one_dim s2 L2) as T2.
  assert (R2 : (exists b, to_ndarray s2 = Ok b)
               \/ (exists msg, to_ndarray s2 = Raise (ValueError msg))).
  { destruct (one_dim s2).
    - destruct T2 as (b & Hb & _). left. now exists b.
    - destruct T2 as [(msg & Hm)|(b & Hb & _)].
      + right. now exists msg.
      + left. now exists b. }
  destruct (one_dim s1).
  2:{ cbn [andb]. destruct T1 as [(msg & ->)|(a & -> & Ha)].
      - eexists; reflexivity.
      - unfold lift. cbn [bind].
        destruct R2 as [(b & ->)|(msg & ->)].
        + apply Nat.eqb_neq in Ha. rewrite Ha. cbn [negb orb].
          eexists; reflexivity.
        + eexists; reflexivity. }
  destruct T1 as (a1 & -> & Ha1). unfold lift. cbn [bind andb].
  destruct (one_dim s2).
  2:{ cbn [andb]. destruct T2 as [(msg & ->)|(a & -> & Ha)].
      - eexists; reflexivity.
      - apply Nat.eqb_neq in Ha. rewrite Ha, orb_true_r.
        eexists; reflexivity. }
  destruct T2 as (a2 & -> & Ha2). cbn [andb].
  rewrite Ha1, Ha2. cbn [Nat.eqb negb orb].
  pose proof (check_choice_outcome "method" "methods" "('fft', 'analytic')"
                valid_methods method) as Cm.
  destruct (choice_ok valid_methods method).
  2:{ destruct Cm as (msg & ->). eexists; reflexivity. }
  destruct Cm as (m & ->). cbn [bind andb].
  pose proof (check_choice_outcome "wrt" "options" "('short', 'long')"
                valid_wrt wrt) as Cw.
  destruct (choice_ok valid_wrt wrt).
  2:{ destruct Cw as (msg & ->). eexists; reflexivity. }
  destruct Cw as (w & ->). cbn [bind].
  destruct (negb (shape0 a1 =? shape0 a2)%nat).
  - destruct padded; [destruct (shape0 a2 <? shape0 a1)%nat
                     |destruct (String.eqb w "short")];
      do 3 eexists; reflexivity.
  - do 3 eexists; reflexivity.
Qed.

(** C6, amended. [check_inputs_define_limits] raises [ValueError], with no
    result and no warning, exactly when a signal is not a one-dimensional
    list or array ([None], a value of another type, a nested or ragged list,
    an array with [ndim != 1]), or [method] is not a string that is,
    ignoring case, "fft" or "analytic", or [wrt] is not a string that is,
    ignoring case, "short" or "long"; in every other case it returns two
    arrays.  The element type is not inspected. *)
Theorem C6_validation_rejects (s1 s2 method wrt : pyobj) (padded : bool) :
  let valid :=
    one_dim s1 = true /\ one_dim s2 = true
    /\ accepted valid_methods method /\ accepted valid_wrt wrt in
  ((exists msg, check_inputs_define_limits s1 s2 method wrt padded
                = (Raise (ValueError msg), []))
   <-> ~ valid)
  /\ ((exists a1 a2 ws, check_inputs_define_limits s1 s2 method wrt padded
                        = (Ok (a1, a2), ws))
      <-> valid).
Proof.
  intros valid.
  pose proof (check_inputs_outcome s1 s2 method wrt padded) as H.
  assert (V : one_dim s1 && one_dim s2 && choice_ok valid_methods method
              && choice_ok valid_wrt wrt = true <-> valid).
  { unfold valid. rewrite !andb_true_iff, !choice_ok_accepted. tauto. }
  destruct (one_dim s1 && one_dim s2 && choice_ok valid_methods method
            && choice_ok valid_wrt wrt).
  - assert (Hv : valid) by now apply V.
    destruct H as (a1 & a2 & ws & H). split; split.
    + intros (msg & E). rewrite H in E. discriminate.
    + intros Hn. contradiction.
    + intros _. exact Hv.
    + intros _. now exists a1, a2, ws.
  - assert (Hv : ~ valid) by (intros Hv; apply V in Hv; discriminate).
    destruct H as (msg & H). split; split.
    + intros _. exact Hv.
    + intros _. now exists msg.
    + intros (a1 & a2 & ws & E). rewrite H in E. discriminate.
    + intros Hv'. contradiction.
Qed.

Lemma C6_witness :
  exists msg,
    check_inputs_define_limits (PyList [PyInt 1; PyInt 2]) PyNone
      (PyStr "fft") (PyStr "short") true
    = (Raise (ValueError msg), []).
Proof.
  apply (proj1 (C6_validation_rejects (PyList [PyInt 1; PyInt 2]) PyNone
                  (PyStr "fft") (PyStr "short") true)).
  intros (_ & H & _). discriminate H.
Defined.

(** C6 as stated fails: a list of strings is not a numeric sequence, and the
    validation accepts it. *)
Lemma C6_counterexample :
  (forall x, ~ is_signal (PyList [PyStr "a"; PyStr "b"]) x)
  /\ check_inputs_define_limits
       (PyList [PyStr "a"; PyStr "b"]) (PyList [PyStr "c"; PyStr "d"])
       (PyStr "fft") (PyStr "short") true
     = (Ok (mk_ndarray [2%nat] [EObj; EObj], mk_ndarray [2%nat] [EObj; EObj]),
        []).
Proof.
  split; [|reflexivity].
  intros x H. inversion H as [items x' F|]; subst.
  inversion F as [|? ? ? ? E _]; subst. discriminate E.
Qed.

(** ** The store: what a call may change *)

Section Frame.
Context (n0 : nat).

Lemma preserved_refl (h : list obj) : (n0 <= length h)%nat -> preserved n0 h h.
Proof. intros H. split; [assumption|reflexivity]. Qed.

Lemma preserved_trans (h1 h2 h3 : list obj) :
  preserved n0 h1 h2 -> preserved n0 h2 h3 -> preserved n0 h1 h3.
Proof.
  intros [L1 E1] [L2 E2]. split; [assumption|].
  intros l Hl. now rewrite E2, E1.
Qed.

Lemma safe_weaken {A : Type} (m : St A) (P Q : A -> Prop) :
  safe n0 m P -> (forall a, P a -> Q a) -> safe n0 m Q.
Proof.
  intros Hm HPQ st Hst. destruct (Hm st Hst) as [Hp Hq].
  split; [assumption|]. intros a Ha. apply HPQ, Hq, Ha.
Qed.

Lemma safe_ret {A : Type} (a : A) (Q : A -> Prop) :
  Q a -> safe n0 (ret_s a) Q.
Proof.
  intros HQ st Hst. split; [now apply preserved_refl|].
  simpl. now intros a' [= <-].
Qed.

Lemma safe_raise {A : Type} (e : exn) (Q : A -> Prop) :
  safe n0 (raise_s e) Q.
Proof.
  intros st Hst. split; [now apply preserved_refl|]. simpl. discriminate.
Qed.

Lemma safe_bind {A B : Type} (m : St A) (k : A -> St B)
    (P : A -> Prop) (Q : B -> Prop) :
  safe n0 m P -> (forall a, P a -> safe n0 (k a) Q) ->
  safe n0 (bind_s m k) Q.
Proof.
  intros Hm Hk st Hst. unfold bind_s.
  destruct (Hm st Hst) as [Hp HP].
  destruct (m st) as [[a|e] st1]; simpl in *.
  - destruct (Hk a (HP a eq_refl) st1 (proj1 Hp)) as [Hp2 HQ].
    split; [now apply preserved_trans with (heap st1)|exact HQ].
  - split; [assumption|discriminate].
Qed.

Lemma safe_lift_r {A : Type} (r : result A) :
  safe n0 (lift_r r) (fun a => r = Ok a).
Proof.
  intros st Hst. split; [now apply preserved_refl|]. simpl. auto.
Qed.

Lemma safe_lift_M {A : Type} (m : M A) :
  safe n0 (lift_M m) (fun a => fst m = Ok a).
Proof.
  intros st Hst. split; [now apply preserved_refl|]. simpl. auto.
Qed.

Lemma safe_warn (msg : string) : safe n0 (warn_s msg) (fun _ => True).
Proof. eapply safe_weaken; [apply safe_lift_M|auto]. Qed.

(** A new object lies beyond the part of the store that is preserved. *)
Lemma safe_alloc (o : obj) : safe n0 (alloc o) (fun l => (n0 <= l)%nat).
Proof.
  intros st Hst. unfold alloc; simpl. split.
  - split; [rewrite length_app; lia|].
    intros l Hl. apply nth_error_app1. lia.
  - now intros a [= <-].
Qed.

Lemma safe_load (l : loc) :
  safe n0 (load l) (fun _ => True).
Proof.
  intros st Hst. unfold load.
  destruct (nth_error (heap st) l); simpl;
    (split; [now apply preserved_refl|auto]).
Qed.

(** An update in place is allowed beyond the preserved part only. *)
Lemma safe_store (l : loc) (o : obj) :
  (n0 <= l)%nat -> safe n0 (store l o) (fun _ => True).
Proof.
  intros Hl st Hst. unfold store.
  destruct (Nat.ltb_spec l (length (heap st))) as [Hlt|Hge]; simpl.
  - split; [|auto]. split.
    + rewrite length_app, length_firstn. simpl. lia.
    + intros l' Hl'. rewrite nth_error_app1
        by (rewrite length_firstn; lia).
      rewrite nth_error_firstn.
      destruct (Nat.ltb_spec l' l); [reflexivity|lia].
  - split; [now apply preserved_refl|discriminate].
Qed.

Lemma safe_for_each {A S : Type} (l : list A) (s : S)
    (body : A -> S -> St S) :
  (forall a s', safe n0 (body a s') (fun _ => True)) ->
  safe n0 (for_each_s l s body) (fun _ => True).
Proof.
  intros Hb. revert s. induction l as [|a l IH]; intros s; simpl.
  - now apply safe_ret.
  - eapply safe_bind; [apply Hb|]. intros s' _. apply IH.
Qed.
End Frame.

Create HintDb safe.

#[export] Hint Resolve safe_alloc safe_load safe_lift_r safe_lift_M safe_warn
  safe_raise : safe.

(** One step through a stateful definition: a bind whose first call is
    covered by a hint, a case distinction, or a final return. *)
Ltac safe_step :=
  match goal with
  | |- safe _ (raise_s _) _ => apply safe_raise
  | |- safe _ (ret_s _) _ => apply safe_ret
  | |- safe _ (bind_s _ _) _ =>
      eapply safe_bind; [solve [eauto with safe]|intros]
  | |- safe _ (match ?x with _ => _ end) _ => destruct x
  end.

Section FrameOfCalls.
Context (n0 : nat).

Lemma safe_read_array (l : loc) : safe n0 (read_array l) (fun _ => True).
Proof. unfold read_array. repeat safe_step; auto. Qed.

Lemma safe_alloc_array (a : ndarray) :
  safe n0 (alloc_array a) (fun l => (n0 <= l)%nat).
Proof. unfold alloc_array. safe_step. apply safe_alloc. Qed.

Lemma safe_slice_view (l : loc) (m : nat) :
  safe n0 (slice_view l m) (fun l' => (n0 <= l')%nat).
Proof.
  unfold slice_view. safe_step. safe_step; auto with safe.
Qed.

Lemma safe_is_list_or_ndarray (v : val) :
  safe n0 (is_list_or_ndarray_s v) (fun _ => True).
Proof. unfold is_list_or_ndarray_s. repeat safe_step; auto. Qed.

(** The array a signal is converted to is the caller's own array or a new
    object. *)
Lemma safe_to_ndarray (v : val) :
  safe n0 (to_ndarray_s v) (fun l => v = VRef l \/ (n0 <= l)%nat).
Proof.
  unfold to_ndarray_s. destruct v; try apply safe_raise.
  safe_step. destruct a; try apply safe_raise.
  - safe_step. eapply safe_weaken; [apply safe_alloc_array|auto].
  - apply safe_ret. now left.
Qed.

Lemma safe_append (l : loc) (x : pyobj) :
  (n0 <= l)%nat -> safe n0 (append_s l x) (fun _ => True).
Proof.
  intros Hl. unfold append_s. safe_step.
  destruct a; try apply safe_raise. now apply safe_store.
Qed.

Lemma safe_getitem (l : loc) (i : nat) :
  safe n0 (getitem_s l i) (fun _ => True).
Proof.
  unfold getitem_s. eapply safe_bind; [apply safe_read_array|].
  intros a _. eapply safe_weaken; [apply safe_lift_r|auto].
Qed.
End FrameOfCalls.

#[export] Hint Resolve safe_read_array safe_alloc_array safe_slice_view
  safe_is_list_or_ndarray safe_to_ndarray safe_getitem : safe.

Section FrameOfFunctions.
Context (n0 : nat).

Lemma safe_step_Zk (s1 s2 : loc) (i j : nat) (acc : C) :
  safe n0 (step_Zk_s s1 s2 i j acc) (fun _ => True).
Proof. unfold step_Zk_s. repeat safe_step; auto. Qed.

Lemma safe_step_Zl (s1 s2 : loc) (i j : nat) (acc : C) :
  safe n0 (step_Zl_s s1 s2 i j acc) (fun _ => True).
Proof. unfold step_Zl_s. repeat safe_step; auto. Qed.

(** The analytic branch updates in place only the list it has allocated. *)
Lemma safe_analytic_branch (s1 s2 : loc) (n : option nat)
    (normalized : bool) :
  safe n0 (analytic_branch_s s1 s2 n normalized) (fun _ => True).
Proof.
  unfold analytic_branch_s.
  eapply safe_bind; [apply safe_alloc|]. intros Z HZ. cbv beta in HZ.
  safe_step.
  eapply safe_bind.
  - apply safe_for_each. intros t [].
    eapply safe_bind; [apply safe_for_each; intros; apply safe_step_Zk|].
    intros Zk _.
    eapply safe_bind; [apply safe_for_each; intros; apply safe_step_Zl|].
    intros Zl _. now apply safe_append.
  - intros _ _. repeat safe_step; auto.
Qed.

Lemma safe_fft_branch (s1 s2 : loc) (n : option nat) (normalized : bool) :
  safe n0 (fft_branch_s s1 s2 n normalized) (fun _ => True).
Proof.
  unfold fft_branch_s. repeat safe_step.
  eapply safe_weaken; [apply safe_lift_r|auto].
Qed.

(** Each returned array is the caller's own array object or a new one. *)
Lemma safe_check_inputs (s1 s2 method wrt : val) (padded : bool) :
  safe n0 (check_inputs_define_limits_s s1 s2 method wrt padded)
       (fun p => (s1 = VRef (fst p) \/ (n0 <= fst p)%nat)
                 /\ (s2 = VRef (snd p) \/ (n0 <= snd p)%nat)).
Proof.
  unfold check_inputs_define_limits_s.
  destruct (is_None_v s1 || is_None_v s2); [apply safe_raise|].
  safe_step.
  eapply safe_bind.
  { instantiate (1 := fun _ => True). destruct a; auto with safe.
    now apply safe_ret. }
  intros i2 _.
  destruct (negb (a && i2)); [apply safe_raise|].
  eapply safe_bind; [apply safe_to_ndarray|]. intros l1 H1.
  eapply safe_bind; [apply safe_to_ndarray|]. intros l2 H2.
  do 2 safe_step.
  destruct (negb (ndim a0 =? 1)%nat || negb (ndim a1 =? 1)%nat);
    [apply safe_raise|].
  do 2 safe_step.
  destruct (negb (shape0 a0 =? shape0 a1)%nat); [|now apply safe_ret].
  destruct padded; [destruct (shape0 a1 <? shape0 a0)%nat
                   |destruct (String.eqb a3 "short")].
  - eapply safe_bind; [apply safe_alloc_array|]. intros l2' H2'.
    safe_step. apply safe_ret. simpl. auto.
  - eapply safe_bind; [apply safe_alloc_array|]. intros l1' H1'.
    safe_step. apply safe_ret. simpl. auto.
  - eapply safe_bind; [apply safe_slice_view|]. intros l1' H1'.
    eapply safe_bind; [apply safe_slice_view|]. intros l2' H2'.
    safe_step. apply safe_ret. simpl. auto.
  - eapply safe_bind; [apply safe_alloc_array|]. intros l1' H1'.
    eapply safe_bind; [apply safe_alloc_array|]. intros l2' H2'.
    safe_step. apply safe_ret. simpl. auto.
Qed.

(** The returned correlation is a new array object. *)
Lemma safe_cyclic_corr (s1 s2 method wrt : val) (padded normalized : bool) :
  safe n0 (cyclic_corr_s s1 s2 method padded wrt normalized)
       (fun r => (n0 <= fst (fst (fst r)))%nat).
Proof.
  unfold cyclic_corr_s.
  safe_step.
  eapply safe_bind.
  { instantiate (1 := fun _ => True). destruct a; auto with safe.
    now apply safe_ret. }
  intros i2 _.
  destruct (negb (a && i2)); [apply safe_raise|].
  eapply safe_bind; [apply safe_check_inputs|]. intros [l1 l2] _.
  do 2 safe_step.
  eapply safe_bind.
  { instantiate (1 := fun _ => True).
    destruct (eq_analytic (scalar_of method));
      [apply safe_analytic_branch|apply safe_fft_branch]. }
  intros Z _. safe_step. destruct a2 as [[[Z' mx] t] mn].
  eapply safe_bind; [apply safe_alloc_array|]. intros lZ HlZ.
  now apply safe_ret.
Qed.
End FrameOfFunctions.

(** ** The caller's signals after a call *)

Lemma preserved_lookup (h h' : list obj) (l : loc) (o : obj) :
  preserved (length h) h h' ->
  nth_error h l = Some o -> nth_error h' l = Some o.
Proof.
  intros [_ E] H. rewrite E; [assumption|].
  apply nth_error_Some. congruence.
Qed.

(** A value denotes the same list or array in a store that preserves the
    objects of the first. *)
Lemma preserved_denotes (h h' : list obj) (v : val) (o : pyobj) :
  preserved (length h) h h' ->
  denotes h v = Some o -> denotes h' v = Some o.
Proof.
  intros Hp. destruct v as [| | | |l]; simpl; try congruence.
  destruct (nth_error h l) as [[items|s b|d]|] eqn:El; try discriminate.
  - rewrite (preserved_lookup h h' l _ Hp El). congruence.
  - rewrite (preserved_lookup h h' l _ Hp El).
    destruct (nth_error h b) as [[|?|d]|] eqn:Eb; try discriminate.
    now rewrite (preserved_lookup h h' b _ Hp Eb).
Qed.

(** C10. Neither [check_inputs_define_limits] nor [cyclic_corr] updates an
    object of the caller: after the call (returned or raised) every object
    of the caller's store is what it was, so each signal denotes the same
    list or array with the same items; the arrays handed back are the
    caller's own array objects, untouched, or new objects, and the returned
    correlation is a new object. *)
Theorem C10_inputs_not_mutated (st : state) (s1 s2 method wrt : val)
    (padded normalized : bool) :
  let checked := check_inputs_define_limits_s s1 s2 method wrt padded st in
  let correlated :=
    cyclic_corr_s s1 s2 method padded wrt normalized st in
  (forall l o, nth_error (heap st) l = Some o ->
               nth_error (heap (snd checked)) l = Some o
               /\ nth_error (heap (snd correlated)) l = Some o)
  /\ (forall v o, denotes (heap st) v = Some o ->
                  denotes (heap (snd checked)) v = Some o
                  /\ denotes (heap (snd correlated)) v = Some o)
  /\ (forall l1 l2, fst checked = Ok (l1, l2) ->
                    (s1 = VRef l1 \/ (length (heap st) <= l1)%nat)
                    /\ (s2 = VRef l2 \/ (length (heap st) <= l2)%nat))
  /\ (forall lZ max_val t_max min_val,
         fst correlated = Ok (lZ, max_val, t_max, min_val) ->
         (length (heap st) <= lZ)%nat).
Proof.
  intros checked correlated.
  destruct (safe_check_inputs (length (heap st)) s1 s2 method wrt padded st
              (Nat.le_refl _)) as [P1 Q1].
  destruct (safe_cyclic_corr (length (heap st)) s1 s2 method wrt padded
              normalized st (Nat.le_refl _)) as [P2 Q2].
  fold checked in P1, Q1. fold correlated in P2, Q2.
  split; [|split; [|split]].
  - intros l o H. split; eapply preserved_lookup; eassumption.
  - intros v o H. split; eapply preserved_denotes; eassumption.
  - intros l1 l2 H. exact (Q1 _ H).
  - intros lZ mx t mn H. exact (Q2 _ H).
Qed.

Lemma C10_witness :
  let st := mk_state [OList [PyInt 1; PyInt 2; PyInt 3];
                      OBuf [ENum (ZtoC 4); ENum (ZtoC 5)];
                      OArray [2%nat] 1%nat] [] in
  let st' := snd (cyclic_corr_s (VRef 0%nat) (VRef 2%nat) (VStr "analytic")
                    true (VStr "short") true st) in
  denotes (heap st') (VRef 0%nat) = Some (PyList [PyInt 1; PyInt 2; PyInt 3])
  /\ denotes (heap st') (VRef 2%nat)
     = Some (PyNdarray (arr [ZtoC 4; ZtoC 5])).
Proof.
  intros st st'.
  destruct (C10_inputs_not_mutated st (VRef 0%nat) (VRef 2%nat)
              (VStr "analytic") (VStr "short") true true)
    as (_ & H & _).
  split.
  - apply (H (VRef 0%nat)). reflexivity.
  - apply (H (VRef 2%nat)). reflexivity.
Defined.

(** ** The store model agrees with the value model *)

Lemma bind_s_Ok {A B : Type} (m : St A) (k : A -> St B) (st st1 : state)
    (a : A) :
  m st = (Ok a, st1) -> bind_s m k st = k a st1.
Proof. intros H. unfold bind_s. now rewrite H. Qed.

Lemma bind_s_Raise {A B : Type} (m : St A) (k : A -> St B) (st st1 : state)
    (e : exn) :
  m st = (Raise e, st1) -> bind_s m k st = (Raise e, st1).
Proof. intros H. unfold bind_s. now rewrite H. Qed.

Lemma array_at_arr (h : list obj) (l : loc) (x : list C) :
  array_at h l (arr x)
  <-> exists b d, nth_error h l = Some (OArray [length x] b)
                  /\ nth_error h b = Some (OBuf d)
                  /\ firstn (length x) d = map ENum x.
Proof.
  unfold array_at, denotes, arr. split.
  - destruct (nth_error h l) as [[items|s b|d0]|]; try discriminate.
    destruct (nth_error h b) as [[|?|d]|] eqn:Eb; try discriminate.
    intros [= -> E]. exists b, d. simpl in E. rewrite Nat.mul_1_r in E.
    repeat split; assumption.
  - intros (b & d & -> & -> & E). simpl. rewrite Nat.mul_1_r, E. reflexivity.
Qed.

Lemma array_at_extend (h ext : list obj) (l : loc) (a : ndarray) :
  array_at h l a -> array_at (h ++ ext) l a.
Proof.
  unfold array_at. apply preserved_denotes. split.
  - rewrite length_app. lia.
  - intros l' Hl'. now apply nth_error_app1.
Qed.

Lemma read_array_at (st : state) (l : loc) (a : ndarray) :
  array_at (heap st) l a -> read_array l st = (Ok a, st).
Proof.
  unfold array_at, denotes, read_array, bind_s, load.
  destruct (nth_error (heap st) l) as [[items|s b|d0]|]; try discriminate.
  destruct (nth_error (heap st) b) as [[|?|d]|]; try discriminate.
  now intros [= <-].
Qed.

(** Allocation of the array of the numbers [x]: a buffer, then a header. *)
Lemma alloc_array_arr (st : state) (x : list C) :
  let h' := heap st ++ [OBuf (map ENum x);
                        OArray [length x] (length (heap st))] in
  alloc_array (arr x) st = (Ok (S (length (heap st))), mk_state h' (log st))
  /\ array_at h' (S (length (heap st))) (arr x).
Proof.
  intros h'. split.
  - unfold alloc_array, bind_s, alloc. cbn [heap log data shape arr].
    rewrite length_app, <- app_assoc. cbn [length app].
    now rewrite Nat.add_1_r.
  - apply array_at_arr. exists (length (heap st)), (map ENum x). unfold h'.
    repeat split.
    + rewrite nth_error_app2 by lia.
      replace (S (length (heap st)) - length (heap st))%nat with 1%nat by lia.
      reflexivity.
    + rewrite nth_error_app2, Nat.sub_diag by lia. reflexivity.
    + rewrite <- (length_map ENum x). apply firstn_all.
Qed.

(** The slice of an array of numbers: a new header on the same buffer. *)
Lemma slice_view_arr (st : state) (l : loc) (x : list C) (m : nat) :
  array_at (heap st) l (arr x) ->
  exists o,
    slice_view l m st
    = (Ok (length (heap st)), mk_state (heap st ++ [o]) (log st))
    /\ array_at (heap st ++ [o]) (length (heap st)) (arr (firstn m x)).
Proof.
  intros H. apply array_at_arr in H. destruct H as (b & d & Hl & Hb & Hd).
  exists (OArray [Nat.min m (length x)] b). split.
  - unfold slice_view, bind_s, load, alloc. rewrite Hl. reflexivity.
  - apply array_at_arr. exists b, d. rewrite length_firstn. repeat split.
    + rewrite nth_error_app2, Nat.sub_diag by lia. reflexivity.
    + rewrite nth_error_app1; [assumption|].
      apply nth_error_Some. congruence.
    + rewrite <- firstn_map, <- Hd, firstn_firstn. reflexivity.
Qed.

(** A value that denotes a signal is a reference to a list or an array. *)
Lemma denotes_signal (h : list obj) (v : val) (o : pyobj) (x : list C) :
  denotes h v = Some o -> is_signal o x ->
  exists l, v = VRef l
            /\ ((exists items, o = PyList items
                               /\ nth_error h l = Some (OList items))
                \/ array_at h l (arr x)).
Proof.
  intros Hd Hs. destruct v as [| | | |l].
  1-4: simpl in Hd; injection Hd as <-; inversion Hs.
  exists l. split; [reflexivity|].
  destruct Hs as [items x F|x].
  - left. exists items. split; [reflexivity|]. simpl in Hd.
    destruct (nth_error h l) as [[items'|s b|d0]|]; try discriminate.
    + now injection Hd as ->.
    + destruct (nth_error h b) as [[|?|d]|]; discriminate.
  - right. exact Hd.
Qed.

Lemma is_list_or_ndarray_s_signal (st : state) (v : val) (o : pyobj)
    (x : list C) :
  denotes (heap st) v = Some o -> is_signal o x ->
  is_list_or_ndarray_s v st = (Ok true, st) /\ is_None_v v = false.
Proof.
  intros Hd Hs.
  destruct (denotes_signal _ _ _ _ Hd Hs) as (l & -> & [(? & _ & Hl)|Ha]).
  - unfold is_list_or_ndarray_s, bind_s, load. now rewrite Hl.
  - apply array_at_arr in Ha. destruct Ha as (b & d & Hl & _).
    unfold is_list_or_ndarray_s, bind_s, load. now rewrite Hl.
Qed.

(** The conversion of a signal: the caller's array, or a new array with the
    items of the caller's list. *)
Lemma to_ndarray_s_signal (st : state) (v : val) (o : pyobj) (x : list C) :
  denotes (heap st) v = Some o -> is_signal o x ->
  exists l ext,
    to_ndarray_s v st = (Ok l, mk_state (heap st ++ ext) (log st))
    /\ array_at (heap st ++ ext) l (arr x).
Proof.
  intros Hd Hs.
  destruct (denotes_signal _ _ _ _ Hd Hs)
    as (l & -> & [(items & -> & Hl)|Ha]).
  - destruct (alloc_array_arr st x) as [Ea Aa].
    eexists. eexists. split; [|exact Aa].
    unfold to_ndarray_s. unfold bind_s at 1. unfold load. rewrite Hl.
    pose proof (to_ndarray_signal _ _ Hs) as Hn. cbn [to_ndarray] in Hn.
    unfold bind_s at 1. unfold lift_r. rewrite Hn. exact Ea.
  - exists l, []. rewrite app_nil_r. split; [|assumption].
    pose proof Ha as Ha'.
    apply array_at_arr in Ha'. destruct Ha' as (b & d & Hl & _).
    unfold to_ndarray_s, bind_s, load. rewrite Hl. now destruct st.
Qed.

Lemma lift_M_check_choice (what plural repr : string) (valid : list string)
    (o : pyobj) (st : state) :
  accepted valid o ->
  exists s, o = PyStr s
            /\ lift_M (check_choice what plural repr valid o) st
               = (Ok (lower s), st).
Proof.
  intros Ha.
  destruct (check_choice_accepted what plural repr valid o Ha) as (s & -> & E).
  exists s. split; [reflexivity|].
  unfold lift_M. rewrite E. cbn [fst snd]. rewrite app_nil_r. now destruct st.
Qed.

(** On two signals in the store and accepted options,
    [check_inputs_define_limits_s] returns references to the arrays that
    [check_inputs_define_limits] returns, logs the same warning, and only
    extends the store. *)
Lemma check_inputs_s_signals (st : state) (s1 s2 method : val) (w : string)
    (padded : bool) (o1 o2 : pyobj) (x y : list C) :
  denotes (heap st) s1 = Some o1 -> is_signal o1 x ->
  denotes (heap st) s2 = Some o2 -> is_signal o2 y ->
  accepted valid_methods (scalar_of method) ->
  str_in (lower w) valid_wrt = true ->
  exists l1 l2 st',
    check_inputs_define_limits_s s1 s2 method (VStr w) padded st
    = (Ok (l1, l2), st')
    /\ (exists ext, heap st' = heap st ++ ext)
    /\ log st' = log st ++ reconcile_warnings padded (lower w) x y
    /\ array_at (heap st') l1 (arr (fst (reconciled padded (lower w) x y)))
    /\ array_at (heap st') l2 (arr (snd (reconciled padded (lower w) x y))).
Proof.
  intros D1 S1 D2 S2 Hm Hw.
  destruct (is_list_or_ndarray_s_signal st s1 o1 x D1 S1) as [I1 N1].
  destruct (is_list_or_ndarray_s_signal st s2 o2 y D2 S2) as [I2 N2].
  destruct (to_ndarray_s_signal st s1 o1 x D1 S1) as (l1 & e1 & T1 & A1).
  set (st1 := mk_state (heap st ++ e1) (log st)) in *.
  assert (D2' : denotes (heap st1) s2 = Some o2).
  { apply preserved_denotes with (h := heap st); [|assumption].
    split; [simpl; rewrite length_app; lia|].
    intros l Hl. simpl. now apply nth_error_app1. }
  destruct (to_ndarray_s_signal st1 s2 o2 y D2' S2) as (l2 & e2 & T2 & A2).
  cbn [heap log st1] in T2, A2.
  set (h2 := (heap st ++ e1) ++ e2) in *.
  set (st2 := mk_state h2 (log st)) in *.
  assert (A1' : array_at h2 l1 (arr x)) by now apply array_at_extend.
  assert (R1 : read_array l1 st2 = (Ok (arr x), st2))
    by now apply read_array_at.
  assert (R2 : read_array l2 st2 = (Ok (arr y), st2))
    by now apply read_array_at.
  destruct (lift_M_check_choice "method" "methods" "('fft', 'analytic')"
              valid_methods (scalar_of method) st2 Hm) as (m & _ & Cm).
  assert (Cw : lift_M (check_choice "wrt" "options" "('short', 'long')"
                         valid_wrt (scalar_of (VStr w))) st2
               = (Ok (lower w), st2)).
  { destruct (lift_M_check_choice "wrt" "options" "('short', 'long')"
                valid_wrt (PyStr w) st2) as (w' & [= <-] & E);
      [now exists w|exact E]. }
  assert (X2 : forall r, exists ext, h2 ++ r = heap st ++ ext).
  { intros r. unfold h2. rewrite <- !app_assoc. eexists. reflexivity. }
  unfold check_inputs_define_limits_s. rewrite N1, N2. cbn [orb].
  rewrite (bind_s_Ok _ _ _ _ _ I1). rewrite (bind_s_Ok _ _ _ _ _ I2).
  cbn [andb negb].
  rewrite (bind_s_Ok _ _ _ _ _ T1). rewrite (bind_s_Ok _ _ _ _ _ T2).
  rewrite (bind_s_Ok _ _ _ _ _ R1). rewrite (bind_s_Ok _ _ _ _ _ R2).
  rewrite !ndim_arr. cbn [Nat.eqb negb orb].
  rewrite (bind_s_Ok _ _ _ _ _ Cm). rewrite (bind_s_Ok _ _ _ _ _ Cw).
  rewrite !shape0_arr.
  unfold reconciled, reconcile_warnings.
  destruct (Nat.eqb_spec (length x) (length y)) as [E|E]; cbn [negb fst snd].
  - exists l1, l2, st2. split; [reflexivity|]. cbn [heap log st2].
    split; [|split; [now rewrite app_nil_r|split; assumption]].
    destruct (X2 []) as (ext & Hext). rewrite app_nil_r in Hext. now exists ext.
  - destruct padded.
    + destruct (Nat.ltb_spec (length y) (length x)) as [Hlt|Hge].
      * rewrite np_pad_arr.
        destruct (alloc_array_arr st2 (y ++ repeat C0 (length x - length y)))
          as [Ea Aa].
        rewrite (bind_s_Ok _ _ _ _ _ Ea).
        unfold warn_s, lift_M, warn, bind_s, ret_s. cbn [fst snd heap log st2].
        do 3 eexists. split; [reflexivity|]. cbn [heap log].
        split; [apply X2|]. split; [reflexivity|].
        unfold pad_to.
        replace (Nat.max (length x) (length y)) with (length x) by lia.
        replace (length x - length x)%nat with 0%nat by lia.
        cbn [repeat]. rewrite app_nil_r.
        split; [now apply array_at_extend|exact Aa].
      * rewrite np_pad_arr.
        destruct (alloc_array_arr st2 (x ++ repeat C0 (length y - length x)))
          as [Ea Aa].
        rewrite (bind_s_Ok _ _ _ _ _ Ea).
        unfold warn_s, lift_M, warn, bind_s, ret_s. cbn [fst snd heap log st2].
        do 3 eexists. split; [reflexivity|]. cbn [heap log].
        split; [apply X2|]. split; [reflexivity|].
        unfold pad_to.
        replace (Nat.max (length x) (length y)) with (length y) by lia.
        replace (length y - length y)%nat with 0%nat by lia.
        cbn [repeat]. rewrite app_nil_r.
        split; [exact Aa|now apply array_at_extend].
    + destruct (String.eqb (lower w) "short").
      * destruct (slice_view_arr st2 l1 x (Nat.min (length x) (length y)) A1')
          as (v1 & V1 & B1).
        rewrite (bind_s_Ok _ _ _ _ _ V1).
        set (st3 := mk_state (heap st2 ++ [v1]) (log st2)) in *.
        assert (A2' : array_at (heap st3) l2 (arr y))
          by now apply array_at_extend.
        destruct (slice_view_arr st3 l2 y (Nat.min (length x) (length y)) A2')
          as (v2 & V2 & B2).
        rewrite (bind_s_Ok _ _ _ _ _ V2).
        unfold warn_s, lift_M, warn, bind_s, ret_s.
        cbn [fst snd heap log st2 st3] in *.
        do 3 eexists. split; [reflexivity|]. cbn [heap log].
        split; [rewrite <- app_assoc; apply X2|]. split; [reflexivity|].
        split; [now apply array_at_extend|exact B2].
      * rewrite !np_resize_arr.
        destruct (alloc_array_arr st2
                    (tile x (Nat.max (length x) (length y)))) as [Ea Aa].
        rewrite (bind_s_Ok _ _ _ _ _ Ea).
        match type of Ea with _ = (_, ?s) => set (st3 := s) in * end.
        destruct (alloc_array_arr st3
                    (tile y (Nat.max (length x) (length y)))) as [Eb Ab].
        rewrite (bind_s_Ok _ _ _ _ _ Eb).
        unfold warn_s, lift_M, warn, bind_s, ret_s.
        cbn [fst snd heap log st2 st3] in *.
        do 3 eexists. split; [reflexivity|]. cbn [heap log].
        split; [rewrite <- app_assoc; apply X2|]. split; [reflexivity|].
        split; [now apply array_at_extend|exact Ab].
Qed.

Lemma getitem_s_arr (st : state) (l : loc) (x : list C) (k : nat) :
  array_at (heap st) l (arr x) -> (k < length x)%nat ->
  getitem_s l k st = (Ok (ENum (nth k x C0)), st).
Proof.
  intros Ha Hk. unfold getitem_s.
  rewrite (bind_s_Ok _ _ _ _ _ (read_array_at st l _ Ha)).
  unfold lift_r. now rewrite getitem_arr.
Qed.

Lemma for_each_s_app {A S : Type} (l1 l2 : list A) (s : S)
    (body : A -> S -> St S) (st : state) :
  for_each_s (l1 ++ l2) s body st
  = bind_s (for_each_s l1 s body) (fun s' => for_each_s l2 s' body) st.
Proof.
  revert s st. induction l1 as [|a l1 IH]; intros s st; simpl.
  - reflexivity.
  - unfold bind_s. destruct (body a s st) as [[s'|e] st1]; [|reflexivity].
    rewrite IH. reflexivity.
Qed.

(** An accumulation loop that only reads the store. *)
Lemma for_each_s_sum (f : nat -> C) (body : nat -> C -> St C) (m : nat)
    (st : state) :
  (forall k acc, (k < m)%nat -> body k acc st = (Ok (acc + f k)%C, st)) ->
  for_each_s (seq 0 m) C0 body st = (Ok (big_sum f m), st).
Proof.
  induction m as [|m IH]; intros Hb; [reflexivity|].
  rewrite seq_S, for_each_s_app.
  rewrite (bind_s_Ok _ _ _ _ _ (IH (fun k acc Hk => Hb k acc (Nat.lt_lt_succ_r _ _ Hk)))).
  simpl. unfold bind_s. rewrite Hb by lia. reflexivity.
Qed.

(** A loop whose rounds append one number each to the list at the end of
    the store. *)
Lemma for_each_s_collect (g : nat -> C) (body : nat -> unit -> St unit)
    (m : nat) (h : list obj) (lg : list string) :
  (forall t items, (t < m)%nat ->
     body t tt (mk_state (h ++ [OList items]) lg)
     = (Ok tt, mk_state (h ++ [OList (items ++ [PyNum (g t)])]) lg)) ->
  for_each_s (seq 0 m) tt body (mk_state (h ++ [OList []]) lg)
  = (Ok tt, mk_state (h ++ [OList (map PyNum (map g (seq 0 m)))]) lg).
Proof.
  induction m as [|m IH]; intros Hb; [reflexivity|].
  rewrite seq_S, for_each_s_app.
  rewrite (bind_s_Ok _ _ _ _ _
             (IH (fun t items Ht => Hb t items (Nat.lt_lt_succ_r _ _ Ht)))).
  simpl. unfold bind_s. rewrite Hb by lia. unfold ret_s.
  now rewrite !map_app.
Qed.

Lemma append_s_last (h : list obj) (lg : list string) (items : list pyobj)
    (v : pyobj) :
  append_s (length h) v (mk_state (h ++ [OList items]) lg)
  = (Ok tt, mk_state (h ++ [OList (items ++ [v])]) lg).
Proof.
  unfold append_s, bind_s, load, store. cbn [heap log].
  rewrite nth_error_app2, Nat.sub_diag by lia. cbn [nth_error heap log].
  rewrite length_app. cbn [length].
  destruct (Nat.ltb_spec (length h) (length h + 1)); [|lia].
  rewrite firstn_app, Nat.sub_diag, firstn_all. cbn [firstn].
  rewrite app_nil_r.
  rewrite skipn_all2 by (rewrite length_app; simpl; lia).
  reflexivity.
Qed.

Lemma np_array_numbers (zs : list C) :
  np_array (PyList (map PyNum zs)) = Ok (arr zs).
Proof.
  apply (to_ndarray_signal (PyList (map PyNum zs)) zs).
  constructor. induction zs as [|z zs IH]; constructor; auto.
Qed.

(** The analytic branch over the store computes what the analytic branch
    on values computes; the store gains the list [Z]. *)
Lemma analytic_branch_s_arr (h : list obj) (lg : list string) (l1 l2 : loc)
    (x y : list C) (normalized : bool) :
  array_at h l1 (arr x) -> array_at h l2 (arr y) ->
  length x = length y ->
  exists ext,
    analytic_branch_s l1 l2 (Some (length x)) normalized (mk_state h lg)
    = (analytic_branch (arr x) (arr y) (Some (length x)) normalized,
       mk_state (h ++ ext) lg).
Proof.
  intros A1 A2 Hlen.
  rewrite (analytic_branch_arr x y normalized Hlen).
  set (n := length x).
  set (g := fun t => (Zk_sum x y n t * Zl_sum x y n t)%C).
  exists [OList (map PyNum (map g (seq 0 n)))].
  unfold analytic_branch_s.
  unfold bind_s at 1. unfold alloc. cbn [heap log].
  unfold bind_s at 1. cbn [lift_r read_n].
  erewrite bind_s_Ok; cycle 1.
  { apply (for_each_s_collect g). intros t items Ht.
    set (st := mk_state (h ++ [OList items]) lg).
    assert (B1 : array_at (heap st) l1 (arr x)) by now apply array_at_extend.
    assert (B2 : array_at (heap st) l2 (arr y)) by now apply array_at_extend.
    assert (Hmod : forall k, ((k + t) mod n < length y)%nat).
    { intros k. rewrite <- Hlen. apply Nat.mod_upper_bound.
      unfold n in *. lia. }
    erewrite bind_s_Ok; cycle 1.
    { apply for_each_s_sum
        with (f := fun k => (nth k x C0
                             * Cconj (nth ((k + t) mod n) y C0))%C).
      intros k acc Hk. unfold step_Zk_s.
      rewrite (bind_s_Ok _ _ _ _ _ (getitem_s_arr st l1 x k B1 Hk)).
      rewrite (bind_s_Ok _ _ _ _ _ (getitem_s_arr st l2 y _ B2 (Hmod k))).
      reflexivity. }
    erewrite bind_s_Ok; cycle 1.
    { apply for_each_s_sum
        with (f := fun l => (Cconj (nth l x C0)
                             * nth ((l + t) mod n) y C0)%C).
      intros k acc Hk. unfold step_Zl_s.
      rewrite (bind_s_Ok _ _ _ _ _ (getitem_s_arr st l1 x k B1 Hk)).
      unfold bind_s at 1. cbn [lift_r num].
      rewrite (bind_s_Ok _ _ _ _ _ (getitem_s_arr st l2 y _ B2 (Hmod k))).
      reflexivity. }
    apply append_s_last. }
  unfold bind_s at 1. unfold load. cbn [heap].
  rewrite nth_error_app2, Nat.sub_diag by lia. cbn [nth_error].
  unfold bind_s at 1. unfold lift_r. rewrite np_array_numbers.
  rewrite values_arr.
  destruct normalized; [|now rewrite map_id].
  reflexivity.
Qed.

Lemma analytic_branch_s_unbound (st : state) (l1 l2 : loc)
    (normalized : bool) :
  analytic_branch_s l1 l2 None normalized st
  = (Raise (UnboundLocalError "n"),
     mk_state (heap st ++ [OList []]) (log st)).
Proof. reflexivity. Qed.

Lemma fft_branch_s_arr (st : state) (l1 l2 : loc) (a1 a2 : ndarray)
    (n : option nat) (normalized : bool) :
  array_at (heap st) l1 a1 -> array_at (heap st) l2 a2 ->
  fft_branch_s l1 l2 n normalized st
  = (fft_branch a1 a2 n normalized, st).
Proof.
  intros A1 A2. unfold fft_branch_s.
  rewrite (bind_s_Ok _ _ _ _ _ (read_array_at st l1 a1 A1)).
  rewrite (bind_s_Ok _ _ _ _ _ (read_array_at st l2 a2 A2)).
  reflexivity.
Qed.

Lemma bind_s_result {A B : Type} (m : St A) (k : A -> St B) (st st1 : state)
    (r : result A) :
  m st = (r, st1) -> bind_s m k st = bind_s (lift_r r) k st1.
Proof. intros H. unfold bind_s, lift_r. now rewrite H. Qed.

(** The end of [cyclic_corr_s]: the statistics, then the allocation of the
    returned array. *)
Lemma cyclic_corr_s_tail (B : result (list C)) (st : state) :
  let tail :=
    bind_s (lift_r B) (fun Z =>
    bind_s (lift_r (statistics Z)) (fun r =>
      let '(Z, max_val, t_max, min_val) := r in
      bind_s (alloc_array (arr Z)) (fun lZ =>
      ret_s (lZ, max_val, t_max, min_val)))) in
  match rbind B statistics with
  | Ok (Z, max_val, t_max, min_val) =>
      exists lZ st',
        tail st = (Ok (lZ, max_val, t_max, min_val), st')
        /\ array_at (heap st') lZ (arr Z)
        /\ log st' = log st
        /\ exists ext, heap st' = heap st ++ ext
  | Raise e => tail st = (Raise e, st)
  end.
Proof.
  intros tail. unfold tail. destruct B as [Z0|e]; [|reflexivity].
  cbn [rbind]. unfold bind_s, lift_r.
  destruct (statistics Z0) as [[[[Z mx] t] mn]|e]; [|reflexivity].
  destruct (alloc_array_arr st Z) as [Ea Aa].
  rewrite Ea. unfold ret_s.
  do 2 eexists. split; [reflexivity|]. cbn [heap log].
  split; [exact Aa|]. split; [reflexivity|]. eexists. reflexivity.
Qed.

(** The selected branch over the store computes what the selected branch
    on values computes. *)
Lemma branch_s_arr (st : state) (l1 l2 : loc) (x y : list C)
    (method : pyobj) (normalized : bool) :
  array_at (heap st) l1 (arr x) -> array_at (heap st) l2 (arr y) ->
  length x = length y ->
  let n := if normalized then Some (length x) else None in
  exists st',
    (if eq_analytic method then analytic_branch_s l1 l2 n normalized
     else fft_branch_s l1 l2 n normalized) st
    = (if eq_analytic method then analytic_branch (arr x) (arr y) n normalized
       else fft_branch (arr x) (arr y) n normalized, st')
    /\ (exists ext, heap st' = heap st ++ ext)
    /\ log st' = log st.
Proof.
  intros A1 A2 Hlen n. destruct (eq_analytic method).
  - destruct normalized; cbv zeta; unfold n.
    + destruct st as [h lg]. cbn [heap log] in *.
      destruct (analytic_branch_s_arr h lg l1 l2 x y true A1 A2 Hlen)
        as (ext & Ea).
      eexists. split; [exact Ea|]. cbn [heap log].
      split; [now exists ext|reflexivity].
    + eexists. split; [apply analytic_branch_s_unbound|]. cbn [heap log].
      split; [now exists [OList []]|reflexivity].
  - exists st. split; [now apply fft_branch_s_arr|].
    split; [exists []; now rewrite app_nil_r|reflexivity].
Qed.

(** On two signals in the store and accepted options, [cyclic_corr_s]
    returns or raises as [cyclic_corr] does on the values, with the same
    statistics, the same warnings, and a reference to the same sequence. *)
Lemma cyclic_corr_s_signals (st : state) (s1 s2 method : val) (w : string)
    (padded normalized : bool) (o1 o2 : pyobj) (x y : list C) :
  denotes (heap st) s1 = Some o1 -> is_signal o1 x ->
  denotes (heap st) s2 = Some o2 -> is_signal o2 y ->
  accepted valid_methods (scalar_of method) ->
  str_in (lower w) valid_wrt = true ->
  let pure := cyclic_corr o1 o2 (scalar_of method) padded (PyStr w)
                normalized in
  let run := cyclic_corr_s s1 s2 method padded (VStr w) normalized st in
  (exists ext, heap (snd run) = heap st ++ ext)
  /\ log (snd run) = log st ++ snd pure
  /\ match fst pure with
     | Ok (Z, max_val, t_max, min_val) =>
         exists lZ, fst run = Ok (lZ, max_val, t_max, min_val)
                    /\ array_at (heap (snd run)) lZ (arr Z)
     | Raise e => fst run = Raise e
     end.
Proof.
  intros D1 S1 D2 S2 Hm Hw pure run.
  unfold pure. rewrite (cyclic_corr_signals o1 o2 (scalar_of method) w padded
                          normalized x y S1 S2 Hm Hw).
  cbn [fst snd].
  destruct (is_list_or_ndarray_s_signal st s1 o1 x D1 S1) as [I1 _].
  destruct (is_list_or_ndarray_s_signal st s2 o2 y D2 S2) as [I2 _].
  destruct (check_inputs_s_signals st s1 s2 method w padded o1 o2 x y
              D1 S1 D2 S2 Hm Hw)
    as (l1 & l2 & st1 & Hc & (ext1 & Hext) & Hlog & A1 & A2).
  set (x' := fst (reconciled padded (lower w) x y)) in *.
  set (y' := snd (reconciled padded (lower w) x y)) in *.
  assert (Hlen : length x' = length y') by apply reconciled_same_length.
  destruct (branch_s_arr st1 l1 l2 x' y' (scalar_of method) normalized
              A1 A2 Hlen) as (st2 & Hb & (ext2 & Hh2) & Hl2).
  cbv zeta in Hb.
  unfold run, cyclic_corr_s.
  rewrite (bind_s_Ok _ _ _ _ _ I1). rewrite (bind_s_Ok _ _ _ _ _ I2).
  cbn [andb negb].
  rewrite (bind_s_Ok _ _ _ _ _ Hc).
  rewrite (bind_s_Ok _ _ _ _ _ (read_array_at st1 l1 _ A1)).
  rewrite (bind_s_Ok _ _ _ _ _ (read_array_at st1 l2 _ A2)).
  unfold engine.
  rewrite !shape0_arr, <- Hlen, Nat.min_id.
  rewrite (bind_s_result _ _ _ _ _ Hb).
  pose proof (cyclic_corr_s_tail
                (if eq_analytic (scalar_of method)
                 then analytic_branch (arr x') (arr y')
                        (if normalized then Some (length x') else None)
                        normalized
                 else fft_branch (arr x') (arr y')
                        (if normalized then Some (length x') else None)
                        normalized) st2) as Ht.
  cbv zeta in Ht.
  destruct (rbind _ statistics) as [[[[Z mx] t] mn]|e].
  - destruct Ht as (lZ & st3 & Hr & Az & Hl3 & ext3 & Hh3).
    rewrite Hr. cbn [fst snd].
    split; [|split].
    + exists (ext1 ++ ext2 ++ ext3).
      now rewrite Hh3, Hh2, Hext, <- !app_assoc.
    + now rewrite Hl3, Hl2, Hlog.
    + now exists lZ.
  - rewrite Ht. cbn [fst snd].
    split; [|split].
    + exists (ext1 ++ ext2). now rewrite Hh2, Hext, <- !app_assoc.
    + now rewrite Hl2, Hlog.
    + reflexivity.
Qed.

(** * Further properties of the three functions *)

(** ** The Zadoff-Chu generator *)

Section ZadoffChuMore.
Local Open Scope Z_scope.

Lemma ZC_sequence_nth (r q N k : Z) (l : list C) :
  ZC_sequence (PyInt r) (PyInt q) (PyInt N) = Ok l -> 0 <= k < N ->
  nth (Z.to_nat k) l C0 = Cexp (ZC_phase r q N k).
Proof.
  unfold ZC_sequence.
  destruct (N <? 1); [discriminate|].
  destruct (negb _); [discriminate|].
  destruct (q <? 0); [discriminate|].
  intros [= <-] Hk.
  rewrite nth_indep with (d' := Cexp (ZC_phase r q N 0))
    by (rewrite length_map, arange_length; lia).
  rewrite (map_nth (fun k => Cexp (ZC_phase r q N k))).
  rewrite arange_nth by lia. now rewrite Z2Nat.id by lia.
Qed.

(** X1. For all valid parameters, prime length or not, [ZC_sequence]
    returns [N] elements that all have magnitude 1. *)
Theorem X1_ZC_constant_amplitude (r q N : Z) :
  1 <= N -> 1 <= r <= N -> 0 <= q ->
  exists l, ZC_sequence (PyInt r) (PyInt q) (PyInt N) = Ok l
            /\ length l = Z.to_nat N
            /\ Forall (fun z => Cabs z = 1%R) l.
Proof.
  intros HN Hr Hq. eexists. split; [now apply ZC_sequence_valid|].
  split; [now rewrite length_map, arange_length|].
  eapply ZC_sequence_unit_modulus. now apply ZC_sequence_valid.
Qed.

Lemma X1_witness :
  exists l, ZC_sequence (PyInt 4) (PyInt 3) (PyInt 6) = Ok l
            /\ length l = 6%nat
            /\ Forall (fun z => Cabs z = 1%R) l.
Proof.
  apply (X1_ZC_constant_amplitude 4 3 6); lia.
Defined.

(** X2. The sequence is periodic in the shift [q] with period [N]: adding a
    multiple of [N] to a non-negative shift changes nothing, for valid and
    for rejected [r] and [N] alike. *)
Theorem X2_ZC_periodic_in_shift (r q N j : Z) :
  0 <= q -> 0 <= j ->
  ZC_sequence (PyInt r) (PyInt (q + j * N)) (PyInt N)
  = ZC_sequence (PyInt r) (PyInt q) (PyInt N).
Proof.
  intros Hq Hj. unfold ZC_sequence.
  destruct (Z.ltb_spec N 1) as [|HN]; [reflexivity|].
  destruct (negb _); [reflexivity|].
  destruct (Z.ltb_spec q 0); [lia|].
  destruct (Z.ltb_spec (q + j * N) 0); [nia|].
  f_equal. apply map_ext. intros k. unfold ZC_phase.
  now rewrite Z.mod_add by lia.
Qed.

Lemma X2_witness :
  ZC_sequence (PyInt 2) (PyInt (1 + 3 * 5)) (PyInt 5)
  = ZC_sequence (PyInt 2) (PyInt 1) (PyInt 5).
Proof. apply (X2_ZC_periodic_in_shift 2 1 5 3); lia. Defined.

Lemma cos_integer_multiple (j : Z) :
  (cos (IZR j * PI) = 1 \/ cos (IZR j * PI) = -1)%R.
Proof.
  assert (Hs : sin (IZR j * PI) = 0%R) by (apply sin_eq_0_1; now exists j).
  pose proof (sin2_cos2 (IZR j * PI)) as H. unfold Rsqr in H.
  rewrite Hs in H.
  assert (E : ((cos (IZR j * PI) - 1) * (cos (IZR j * PI) + 1) = 0)%R)
    by (ring_simplify; ring_simplify in H; lra).
  apply Rmult_integral in E. destruct E; [left|right]; lra.
Qed.

(** X3. The root [r = N] passes the validation and gives a degenerate
    sequence: every element is the real number 1 or -1. *)
Theorem X3_ZC_root_equal_length (q N : Z) :
  1 <= N -> 0 <= q ->
  exists l, ZC_sequence (PyInt N) (PyInt q) (PyInt N) = Ok l
            /\ length l = Z.to_nat N
            /\ Forall (fun z => Im z = 0%R /\ (Re z = 1 \/ Re z = -1)%R) l.
Proof.
  intros HN Hq. eexists. split; [apply ZC_sequence_valid; lia|].
  split; [now rewrite length_map, arange_length|].
  apply Forall_map, Forall_forall. intros k _.
  rewrite ZC_element_trig. cbn [Re Im].
  assert (E : ZC_angle N q N k
              = (IZR (((k mod N) + N mod 2 + 2 * (q mod N)) * (k mod N))
                 * PI)%R).
  { unfold ZC_angle. rewrite mult_IZR. field.
    apply not_0_IZR. lia. }
  rewrite E. split.
  - rewrite sin_eq_0_1 by (eexists; reflexivity). apply Ropp_0.
  - apply cos_integer_multiple.
Qed.

Lemma X3_witness :
  exists l, ZC_sequence (PyInt 6) (PyInt 1) (PyInt 6) = Ok l
            /\ length l = 6%nat
            /\ Forall (fun z => Im z = 0%R /\ (Re z = 1 \/ Re z = -1)%R) l.
Proof. apply (X3_ZC_root_equal_length 1 6); lia. Defined.
(** For odd [N] the product that multiplies [pi / N * r] in the angle is an
    even number. *)
Lemma ZC_product_even (q N k : Z) :
  1 <= N -> N mod 2 = 1 ->
  exists j : nat,
    ((k mod N) + N mod 2 + 2 * (q mod N)) * (k mod N) = 2 * Z.of_nat j.
Proof.
  intros HN Hodd. rewrite Hodd.
  pose proof (Z.mod_pos_bound k N ltac:(lia)) as HK.
  pose proof (Z.mod_pos_bound q N ltac:(lia)) as HQ.
  set (K := k mod N) in *. set (Q := q mod N) in *.
  destruct (Z.Even_or_Odd K) as [[c Hc]|[c Hc]].
  - exists (Z.to_nat (c * (K + 1 + 2 * Q))).
    rewrite Z2Nat.id by nia. nia.
  - exists (Z.to_nat (K * (c + 1 + Q))).
    rewrite Z2Nat.id by nia. nia.
Qed.

(** X4. Conjugate roots.  For an odd length [N] and a root [1 <= r < N], the
    sequence of root [N - r] is the element-wise complex conjugate of the
    sequence of root [r], for every shift [q]. *)
Theorem X4_ZC_conjugate_root (r q N : Z) (l : list C) :
  N mod 2 = 1 -> 1 <= r < N -> 0 <= q ->
  ZC_sequence (PyInt r) (PyInt q) (PyInt N) = Ok l ->
  ZC_sequence (PyInt (N - r)) (PyInt q) (PyInt N) = Ok (map Cconj l).
Proof.
  intros Hodd Hr Hq H.
  rewrite ZC_sequence_valid in H by lia. injection H as <-.
  rewrite ZC_sequence_valid by lia. f_equal.
  rewrite map_map. apply map_ext. intros k.
  rewrite !ZC_element_trig. unfold Cconj. cbn [Re Im].
  destruct (ZC_product_even q N k ltac:(lia) Hodd) as (j & Hj).
  assert (E : ZC_angle (N - r) q N k
              = (- ZC_angle r q N k + 2 * INR j * PI)%R).
  { unfold ZC_angle.
    rewrite !Rmult_assoc, <- (mult_IZR _ (k mod N)), Hj.
    rewrite minus_IZR, mult_IZR, <- INR_IZR_INZ. field.
    apply not_0_IZR. lia. }
  rewrite E, cos_period, sin_period, cos_neg, sin_neg.
  f_equal; ring.
Qed.

Lemma X4_witness :
  ZC_sequence (PyInt 5) (PyInt 1) (PyInt 7)
  = Ok (map Cconj (map (fun k => Cexp (ZC_phase 2 1 7 k)) (arange 7))).
Proof.
  apply (X4_ZC_conjugate_root 2 1 7).
  - reflexivity.
  - lia.
  - lia.
  - reflexivity.
Defined.
End ZadoffChuMore.

(** ** Validation and reconciliation *)

Lemma lower_ascii_idempotent (c : ascii) :
  lower_ascii (lower_ascii c) = lower_ascii c.
Proof.
  destruct c as [[] [] [] [] [] [] [] []]; reflexivity.
Qed.

Lemma lower_idempotent (s : string) : lower (lower s) = lower s.
Proof.
  induction s as [|c s IH]; simpl; [reflexivity|].
  now rewrite lower_ascii_idempotent, IH.
Qed.

(** X5. [check_inputs_define_limits] depends on the strings [method] and
    [wrt] only through their lower-cased forms: for all inputs, valid or
    not, the outcome (arrays, warnings, or the error with its message) is
    the same for a string and for its lower-cased form. *)
Theorem X5_check_inputs_ignores_case (s1 s2 : pyobj) (m w : string)
    (padded : bool) :
  check_inputs_define_limits s1 s2 (PyStr m) (PyStr w) padded
  = check_inputs_define_limits s1 s2 (PyStr (lower m)) (PyStr (lower w))
      padded.
Proof.
  unfold check_inputs_define_limits, check_choice.
  now rewrite !lower_idempotent.
Qed.

(** Two accepted values of an option are validated alike, up to the
    canonical string handed back. *)
Lemma check_choice_accepted_Ok (what plural repr : string)
    (valid : list string) (o : pyobj) :
  accepted valid o ->
  exists s, check_choice what plural repr valid o = (Ok s, [])
            /\ str_in s valid = true.
Proof.
  intros (s & -> & H). exists (lower s). split; [|assumption].
  unfold check_choice. now rewrite H.
Qed.

(** X6. The accepted value of [method] has no effect on the reconciliation:
    for all signals, valid or not, two accepted methods give the same
    outcome. *)
Theorem X6_method_does_not_affect_reconciliation
    (s1 s2 m1 m2 wrt : pyobj) (padded : bool) :
  accepted valid_methods m1 -> accepted valid_methods m2 ->
  check_inputs_define_limits s1 s2 m1 wrt padded
  = check_inputs_define_limits s1 s2 m2 wrt padded.
Proof.
  intros H1 H2. unfold check_inputs_define_limits.
  destruct (check_choice_accepted_Ok "method" "methods" "('fft', 'analytic')"
              valid_methods m1 H1) as (c1 & -> & _).
  destruct (check_choice_accepted_Ok "method" "methods" "('fft', 'analytic')"
              valid_methods m2 H2) as (c2 & -> & _).
  reflexivity.
Qed.

Lemma X6_witness :
  check_inputs_define_limits (PyList [PyInt 1; PyInt 2]) (PyList [PyInt 3])
    (PyStr "FFT") (PyStr "long") false
  = check_inputs_define_limits (PyList [PyInt 1; PyInt 2]) (PyList [PyInt 3])
      (PyStr "analytic") (PyStr "long") false.
Proof.
  apply X6_method_does_not_affect_reconciliation.
  - exists "FFT"%string. split; reflexivity.
  - exists "analytic"%string. split; reflexivity.
Defined.

(** X7. With [padded=True] the accepted value of [wrt] has no effect
    either: the window only matters when the signals are not padded. *)
Theorem X7_padding_ignores_window (s1 s2 method w1 w2 : pyobj) :
  accepted valid_wrt w1 -> accepted valid_wrt w2 ->
  check_inputs_define_limits s1 s2 method w1 true
  = check_inputs_define_limits s1 s2 method w2 true.
Proof.
  intros H1 H2. unfold check_inputs_define_limits.
  destruct (check_choice_accepted_Ok "wrt" "options" "('short', 'long')"
              valid_wrt w1 H1) as (c1 & -> & _).
  destruct (check_choice_accepted_Ok "wrt" "options" "('short', 'long')"
              valid_wrt w2 H2) as (c2 & -> & _).
  destruct (is_None s1 || is_None s2); [reflexivity|].
  destruct (negb _); [reflexivity|].
  destruct (to_ndarray s1) as [a1|]; [|reflexivity].
  destruct (to_ndarray s2) as [a2|]; [|reflexivity].
  unfold lift, bind. 
  destruct (negb (ndim a1 =? 1)%nat || negb (ndim a2 =? 1)%nat);
    [reflexivity|].
  destruct (check_choice _ _ _ _ method) as [[c|e] ws]; reflexivity.
Qed.

Lemma X7_witness :
  check_inputs_define_limits (PyList [PyInt 1; PyInt 2]) (PyList [PyInt 3])
    (PyStr "fft") (PyStr "short") true
  = check_inputs_define_limits (PyList [PyInt 1; PyInt 2]) (PyList [PyInt 3])
      (PyStr "fft") (PyStr "LONG") true.
Proof.
  apply X7_padding_ignores_window.
  - exists "short"%string. split; reflexivity.
  - exists "LONG"%string. split; reflexivity.
Defined.

(** X8. On two valid signals a warning is emitted exactly when the lengths
    differ, and then exactly one; signals of equal length are handed back
    with their values unchanged, whatever [padded] and the window are. *)
Theorem X8_warning_iff_lengths_differ (s1 s2 method : pyobj) (w : string)
    (padded : bool) (x y : list C) :
  is_signal s1 x -> is_signal s2 y ->
  accepted valid_methods method -> str_in (lower w) valid_wrt = true ->
  exists a1 a2 ws,
    check_inputs_define_limits s1 s2 method (PyStr w) padded
    = (Ok (a1, a2), ws)
    /\ (length x = length y -> a1 = arr x /\ a2 = arr y /\ ws = [])
    /\ (length x <> length y -> length ws = 1%nat).
Proof.
  intros H1 H2 Hm Hw.
  rewrite (check_inputs_signals s1 s2 method w padded x y H1 H2 Hm Hw).
  do 3 eexists. split; [reflexivity|].
  unfold reconciled, reconcile_warnings.
  destruct (Nat.eqb_spec (length x) (length y)) as [E|E]; split;
    try (intros; congruence); try (intros; now repeat split).
  intros _. destruct padded; [destruct (length y <? length x)%nat|
                              destruct (String.eqb (lower w) "short")];
    reflexivity.
Qed.

Lemma X8_witness :
  exists a1 a2 ws,
    check_inputs_define_limits (PyList [PyInt 1; PyInt 2])
      (PyList [PyInt 3; PyInt 4]) (PyStr "fft") (PyStr "short") false
    = (Ok (a1, a2), ws)
    /\ a1 = arr [ZtoC 1; ZtoC 2] /\ a2 = arr [ZtoC 3; ZtoC 4] /\ ws = [].
Proof.
  destruct (X8_warning_iff_lengths_differ
              (PyList [PyInt 1; PyInt 2]) (PyList [PyInt 3; PyInt 4])
              (PyStr "fft") "short" false
              [ZtoC 1; ZtoC 2] [ZtoC 3; ZtoC 4])
    as (a1 & a2 & ws & E & Heq & _).
  - constructor. repeat constructor.
  - constructor. repeat constructor.
  - exists "fft"%string. split; reflexivity.
  - reflexivity.
  - exists a1, a2, ws. split; [exact E|]. apply Heq. reflexivity.
Defined.

(** X9. Reconciliation is idempotent: the two arrays it returns for valid
    signals pass a second call unchanged and without a warning, for any
    accepted options of that second call. *)
Theorem X9_reconciliation_idempotent (s1 s2 method method' : pyobj)
    (w w' : string) (padded padded' : bool) (x y : list C)
    (a1 a2 : ndarray) (ws : list string) :
  is_signal s1 x -> is_signal s2 y ->
  accepted valid_methods method -> str_in (lower w) valid_wrt = true ->
  accepted valid_methods method' -> str_in (lower w') valid_wrt = true ->
  check_inputs_define_limits s1 s2 method (PyStr w) padded
  = (Ok (a1, a2), ws) ->
  check_inputs_define_limits (PyNdarray a1) (PyNdarray a2) method'
    (PyStr w') padded'
  = (Ok (a1, a2), []).
Proof.
  intros H1 H2 Hm Hw Hm' Hw' Hc.
  rewrite (check_inputs_signals s1 s2 method w padded x y H1 H2 Hm Hw) in Hc.
  injection Hc as <- <- _.
  set (x' := fst (reconciled padded (lower w) x y)).
  set (y' := snd (reconciled padded (lower w) x y)).
  assert (Hlen : length x' = length y') by apply reconciled_same_length.
  rewrite (check_inputs_signals (PyNdarray (arr x')) (PyNdarray (arr y'))
             method' w' padded' x' y'
             (signal_array x') (signal_array y') Hm' Hw').
  unfold reconciled, reconcile_warnings.
  apply Nat.eqb_eq in Hlen. now rewrite Hlen.
Qed.

Lemma X9_witness :
  check_inputs_define_limits
    (PyNdarray (arr [ZtoC 1; ZtoC 2; ZtoC 1]))
    (PyNdarray (arr [ZtoC 3; ZtoC 4; ZtoC 5]))
    (PyStr "analytic") (PyStr "short") true
  = (Ok (arr [ZtoC 1; ZtoC 2; ZtoC 1], arr [ZtoC 3; ZtoC 4; ZtoC 5]), []).
Proof.
  apply (X9_reconciliation_idempotent
           (PyList [PyInt 1; PyInt 2]) (PyList [PyInt 3; PyInt 4; PyInt 5])
           (PyStr "fft") (PyStr "analytic") "long" "short" false true
           [ZtoC 1; ZtoC 2] [ZtoC 3; ZtoC 4; ZtoC 5] _ _
           ["Signals are resized to the length of the longer one"%string]).
  - constructor. repeat constructor.
  - constructor. repeat constructor.
  - exists "fft"%string. split; reflexivity.
  - reflexivity.
  - exists "analytic"%string. split; reflexivity.
  - reflexivity.
  - reflexivity.
Defined.

Lemma tile_self (x : list C) : tile x (length x) = x.
Proof.
  apply nth_ext with (d := C0) (d' := C0); [apply tile_length|].
  rewrite tile_length. intros i Hi. rewrite tile_nth by assumption.
  now rewrite Nat.mod_small.
Qed.

Lemma tile_nil (m : nat) : tile [] m = repeat C0 m.
Proof.
  unfold tile. simpl.
  erewrite map_ext with (g := fun _ => C0)
    by (intros i; simpl; destruct i; reflexivity).
  apply map_const_seq.
Qed.

(** X10. An empty first signal beside a non-empty second one is no error.
    With [padded], and without it under the window "long", the empty signal
    is replaced by zeros of the other signal's length (tiling an empty
    signal fills with zeros) and the other signal is unchanged; under the
    window "short" both signals become empty. *)
Theorem X10_empty_signal_reconciled (s1 s2 method : pyobj) (w : string)
    (y : list C) :
  is_signal s1 [] -> is_signal s2 y -> y <> [] ->
  accepted valid_methods method -> str_in (lower w) valid_wrt = true ->
  check_inputs_define_limits s1 s2 method (PyStr w) true
  = (Ok (arr (repeat C0 (length y)), arr y),
     ["s1 is padded to s2 length"%string])
  /\ (lower w = "long"%string ->
      check_inputs_define_limits s1 s2 method (PyStr w) false
      = (Ok (arr (repeat C0 (length y)), arr y),
         ["Signals are resized to the length of the longer one"%string]))
  /\ (lower w = "short"%string ->
      check_inputs_define_limits s1 s2 method (PyStr w) false
      = (Ok (arr [], arr []),
         ["Signals are truncated to the length of the shorter one"%string])).
Proof.
  intros H1 H2 Hy Hm Hw.
  pose proof (fun padded =>
                check_inputs_signals s1 s2 method w padded [] y H1 H2 Hm Hw)
    as Hc.
  assert (Hpos : (0 < length y)%nat) by (destruct y; [congruence|simpl; lia]).
  assert (Hneb : (length (@nil C) =? length y)%nat = false)
    by (apply Nat.eqb_neq; simpl; lia).
  repeat split.
  - rewrite Hc. unfold reconciled, reconcile_warnings, pad_to.
    rewrite Hneb. cbn [fst snd length app Nat.max Nat.ltb Nat.leb].
    rewrite Nat.sub_0_r, Nat.sub_diag. cbn [repeat].
    now rewrite app_nil_r.
  - intros Hl. rewrite Hc. unfold reconciled, reconcile_warnings.
    rewrite Hneb, Hl. cbn [String.eqb fst snd length Nat.max].
    now rewrite tile_nil, tile_self.
  - intros Hs. rewrite Hc. unfold reconciled, reconcile_warnings.
    rewrite Hneb, Hs. reflexivity.
Qed.

Lemma X10_witness :
  check_inputs_define_limits (PyList []) (PyList [PyInt 5; PyInt 6])
    (PyStr "fft") (PyStr "long") false
  = (Ok (arr [C0; C0], arr [ZtoC 5; ZtoC 6]),
     ["Signals are resized to the length of the longer one"%string]).
Proof.
  refine (proj1 (proj2 (X10_empty_signal_reconciled
                          (PyList []) (PyList [PyInt 5; PyInt 6])
                          (PyStr "fft") "long" [ZtoC 5; ZtoC 6]
                          _ _ _ _ _)) _).
  - constructor. constructor.
  - constructor. repeat constructor.
  - discriminate.
  - exists "fft"%string. split; reflexivity.
  - reflexivity.
  - reflexivity.
Defined.

(** X11. Empty signals pass the validation, and the call fails later: when
    the reconciled signals are empty (both inputs empty, or one input empty
    under truncation) [cyclic_corr] raises [ValueError], from the transform
    in the FFT branch and from the maximum of an empty array in the
    normalized analytic branch. *)
Theorem X11_empty_signals_raise (s1 s2 method : pyobj) (w : string)
    (padded normalized : bool) (x y : list C) :
  is_signal s1 x -> is_signal s2 y ->
  accepted valid_methods method -> str_in (lower w) valid_wrt = true ->
  (x = [] /\ y = [])
  \/ ((x = [] \/ y = []) /\ padded = false /\ lower w = "short"%string) ->
  (exists a1 a2 ws,
      check_inputs_define_limits s1 s2 method (PyStr w) padded
      = (Ok (a1, a2), ws))
  /\ (eq_analytic method = false \/ normalized = true ->
      exists msg ws,
        cyclic_corr s1 s2 method padded (PyStr w) normalized
        = (Raise (ValueError msg), ws)).
Proof.
  intros H1 H2 Hm Hw He.
  split.
  - rewrite (check_inputs_signals s1 s2 method w padded x y H1 H2 Hm Hw).
    do 3 eexists. reflexivity.
  - intros Hb.
    rewrite (cyclic_corr_signals s1 s2 method w padded normalized x y
               H1 H2 Hm Hw).
    assert (E : reconciled padded (lower w) x y = ([], [])).
    { unfold reconciled.
      destruct He as [[-> ->]|([-> | ->] & -> & ->)].
      - reflexivity.
      - destruct (Nat.eqb_spec (length (@nil C)) (length y)) as [E|E].
        + destruct y; [reflexivity|discriminate].
        + reflexivity.
      - destruct (Nat.eqb_spec (length x) (length (@nil C))) as [E|E].
        + destruct x; [reflexivity|discriminate].
        + cbn [String.eqb length]. rewrite Nat.min_0_r. reflexivity. }
    rewrite E. cbn [fst snd]. unfold engine.
    destruct (eq_analytic method).
    + destruct Hb as [Hb| ->]; [discriminate|].
      do 2 eexists. reflexivity.
    + destruct normalized; do 2 eexists; reflexivity.
Qed.

Lemma X11_witness :
  exists msg ws,
    cyclic_corr (PyList []) (PyList [PyInt 1; PyInt 2]) (PyStr "fft") false
      (PyStr "short") true
    = (Raise (ValueError msg), ws).
Proof.
  refine (proj2 (X11_empty_signals_raise
                   (PyList []) (PyList [PyInt 1; PyInt 2]) (PyStr "fft")
                   "short" false true [] [ZtoC 1; ZtoC 2] _ _ _ _ _) _).
  - constructor. constructor.
  - constructor. repeat constructor.
  - exists "fft"%string. split; reflexivity.
  - reflexivity.
  - right. repeat split. now left.
  - now left.
Defined.

(** X12. A [None] signal never reaches the [None] test of the validation
    through [cyclic_corr]: the type test at the head of [cyclic_corr]
    rejects it first, with the message about lists and arrays, while
    [check_inputs_define_limits] called directly reports the [None]. *)
Theorem X12_None_signal_messages (s1 s2 method wrt : pyobj)
    (padded normalized : bool) :
  s1 = PyNone \/ s2 = PyNone ->
  cyclic_corr s1 s2 method padded wrt normalized
  = (Raise (ValueError
              "Input signals s1 and s2 must be lists or numpy arrays."), [])
  /\ check_inputs_define_limits s1 s2 method wrt padded
     = (Raise (ValueError "Input signals s1 and s2 must not be None."), []).
Proof.
  intros [-> | ->].
  - split; reflexivity.
  - split.
    + unfold cyclic_corr. now rewrite andb_false_r.
    + unfold check_inputs_define_limits. now rewrite orb_true_r.
Qed.

Lemma X12_witness :
  cyclic_corr (PyList [PyInt 1]) PyNone (PyStr "fft") true (PyStr "short")
    true
  = (Raise (ValueError
              "Input signals s1 and s2 must be lists or numpy arrays."), []).
Proof.
  apply (X12_None_signal_messages (PyList [PyInt 1]) PyNone (PyStr "fft")
           (PyStr "short") true true).
  now right.
Defined.



(** ** The engine: magnitudes and scaling *)

Section Magnitudes.
Local Open Scope R_scope.

Lemma Cabs_square (z : C) : Cabs z * Cabs z = Re z * Re z + Im z * Im z.
Proof. unfold Cabs. apply sqrt_sqrt. nra. Qed.

Lemma Cmul_conj_self (z : C) : (z * Cconj z)%C = RtoC (Cabs z * Cabs z).
Proof. rewrite Cabs_square. apply C_eq; simpl; ring. Qed.

Lemma Cabs_RtoC (r : R) : 0 <= r -> Cabs (RtoC r) = r.
Proof.
  intros Hr. unfold Cabs, RtoC; simpl.
  replace (r * r + 0 * 0) with (r * r) by ring. now apply sqrt_square.
Qed.

Lemma Cabs_Cconj (z : C) : Cabs (Cconj z) = Cabs z.
Proof. unfold Cabs, Cconj; simpl. f_equal. ring. Qed.

Lemma Cabs_Cmul (a b : C) : Cabs (a * b) = Cabs a * Cabs b.
Proof.
  unfold Cabs, Cmul; simpl. rewrite <- sqrt_mult by nra. f_equal. ring.
Qed.

Lemma Cabs_Cdiv_R (z : C) (c : R) : 0 < c -> Cabs (Cdiv_R z c) = Cabs z / c.
Proof.
  intros Hc. unfold Cabs, Cdiv_R; simpl.
  replace (Re z / c * (Re z / c) + Im z / c * (Im z / c))
    with ((Re z * Re z + Im z * Im z) / (c * c)) by (field; lra).
  rewrite sqrt_div_alt by nra. now rewrite sqrt_square by lra.
Qed.

Lemma Cdiv_R_RtoC (r c : R) : Cdiv_R (RtoC r) c = RtoC (r / c).
Proof. apply C_eq; simpl; unfold Rdiv; ring. Qed.

(** The triangle inequality. *)
Lemma Cabs_triangle (a b : C) : Cabs (a + b) <= Cabs a + Cabs b.
Proof.
  apply Rsqr_incr_0_var;
    [|pose proof (Cabs_nonneg a); pose proof (Cabs_nonneg b); lra].
  unfold Rsqr.
  replace ((Cabs a + Cabs b) * (Cabs a + Cabs b))
    with (Cabs a * Cabs a + 2 * (Cabs a * Cabs b) + Cabs b * Cabs b) by ring.
  rewrite !Cabs_square. cbn [Cadd Re Im].
  assert (H : Re a * Re b + Im a * Im b <= Cabs a * Cabs b).
  { unfold Cabs. rewrite <- sqrt_mult by nra.
    apply Rle_trans with (Rabs (Re a * Re b + Im a * Im b));
      [apply Rle_abs|].
    rewrite <- sqrt_Rsqr_abs. apply sqrt_le_1_alt. unfold Rsqr.
    pose proof (Rle_0_sqr (Re a * Im b - Im a * Re b)) as Hs.
    unfold Rsqr in Hs.
    replace ((Re a * Re a + Im a * Im a) * (Re b * Re b + Im b * Im b))
      with ((Re a * Re b + Im a * Im b) * (Re a * Re b + Im a * Im b)
            + (Re a * Im b - Im a * Re b) * (Re a * Im b - Im a * Re b))
      by ring.
    lra. }
  nra.
Qed.
End Magnitudes.

(** ** The reductions under a positive scaling *)

Section Scaling.
Local Open Scope R_scope.
Context (c : R) (Hc : 0 < c).

Lemma div_le_iff (a b : R) : a / c <= b / c <-> a <= b.
Proof.
  split; intros H.
  - apply Rmult_le_reg_r with (/ c); [now apply Rinv_0_lt_compat|exact H].
  - apply Rmult_le_compat_r; [left; now apply Rinv_0_lt_compat|exact H].
Qed.

Lemma div_lt_iff (a b : R) : a / c < b / c <-> a < b.
Proof.
  split; intros H.
  - apply Rmult_lt_reg_r with (/ c); [now apply Rinv_0_lt_compat|exact H].
  - apply Rmult_lt_compat_r; [now apply Rinv_0_lt_compat|exact H].
Qed.

Lemma Rmax_div (a b : R) : Rmax (a / c) (b / c) = Rmax a b / c.
Proof.
  unfold Rmax. destruct (Rle_dec (a / c) (b / c)) as [H|H];
    destruct (Rle_dec a b) as [H'|H']; try reflexivity; exfalso.
  - apply H'. now apply div_le_iff.
  - apply H. now apply div_le_iff.
Qed.

Lemma Rmin_div (a b : R) : Rmin (a / c) (b / c) = Rmin a b / c.
Proof.
  unfold Rmin. destruct (Rle_dec (a / c) (b / c)) as [H|H];
    destruct (Rle_dec a b) as [H'|H']; try reflexivity; exfalso.
  - apply H'. now apply div_le_iff.
  - apply H. now apply div_le_iff.
Qed.

Lemma fold_left_Rmax_div (xs : list R) (x : R) :
  fold_left Rmax (map (fun v => v / c) xs) (x / c) = fold_left Rmax xs x / c.
Proof.
  revert x. induction xs as [|y xs IH]; intros x; simpl; [reflexivity|].
  now rewrite Rmax_div, IH.
Qed.

Lemma fold_left_Rmin_div (xs : list R) (x : R) :
  fold_left Rmin (map (fun v => v / c) xs) (x / c) = fold_left Rmin xs x / c.
Proof.
  revert x. induction xs as [|y xs IH]; intros x; simpl; [reflexivity|].
  now rewrite Rmin_div, IH.
Qed.

Lemma argmax_from_div (xs : list R) (best i : nat) (v : R) :
  argmax_from best (v / c) i (map (fun u => u / c) xs)
  = argmax_from best v i xs.
Proof.
  revert best i v. induction xs as [|x xs IH]; intros best i v; simpl;
    [reflexivity|].
  destruct (Rlt_dec (v / c) (x / c)) as [H|H];
    destruct (Rlt_dec v x) as [H'|H']; try apply IH; exfalso.
  - apply H'. now apply div_lt_iff.
  - apply H. now apply div_lt_iff.
Qed.

(** Dividing a sequence by a positive number divides its largest and
    smallest magnitude and keeps the place of the maximum. *)
Lemma statistics_scaled (Z : list C) (max_val min_val : R) (t_max : nat) :
  statistics Z = Ok (Z, max_val, t_max, min_val) ->
  statistics (map (fun z => Cdiv_R z c) Z)
  = Ok (map (fun z => Cdiv_R z c) Z, max_val / c, t_max, min_val / c).
Proof.
  unfold statistics.
  assert (E : map Cabs (map (fun z => Cdiv_R z c) Z)
              = map (fun v => v / c) (map Cabs Z)).
  { rewrite !map_map. apply map_ext. intros z. now apply Cabs_Cdiv_R. }
  rewrite E. destruct Z as [|z Z]; [discriminate|].
  cbn [map np_max np_min np_argmax rbind].
  intros [= <- <- <-].
  now rewrite fold_left_Rmax_div, fold_left_Rmin_div, argmax_from_div.
Qed.
End Scaling.

(** ** The analytic branch returns squared magnitudes *)

Section AnalyticMore.
Local Open Scope R_scope.





End AnalyticMore.

(** ** Normalization in the FFT branch *)

Section FftMore.
Local Open Scope R_scope.

(** X15. In the FFT branch [normalized] only rescales: the normalized call
    returns the sequence, the largest and the smallest magnitude of the
    unnormalized call divided by the common length [n], and the same
    [t_max]. *)
Theorem X15_fft_normalization_rescales (s1 s2 method : pyobj) (w : string)
    (padded : bool) (x y : list C) :
  is_signal s1 x -> is_signal s2 y -> x <> [] -> y <> [] ->
  accepted valid_methods method -> eq_analytic method = false ->
  str_in (lower w) valid_wrt = true ->
  exists (Z : list C) (max_val min_val : R) (t_max : nat)
         (ws : list string),
    let n := INR (length Z) in
    cyclic_corr s1 s2 method padded (PyStr w) false
    = (Ok (Z, max_val, t_max, min_val), ws)
    /\ cyclic_corr s1 s2 method padded (PyStr w) true
       = (Ok (map (fun z => Cdiv_R z n) Z, max_val / n, t_max, min_val / n),
          ws).
Proof.
  intros H1 H2 Hx Hy Hm Hna Hw.
  set (x' := fst (reconciled padded (lower w) x y)).
  set (y' := snd (reconciled padded (lower w) x y)).
  assert (Hlen : length x' = length y') by apply reconciled_same_length.
  assert (Hpos : (1 <= length x')%nat) by now apply reconciled_nonempty.
  assert (Hx' : x' <> []) by (intros E; rewrite E in Hpos; simpl in Hpos; lia).
  destruct (engine_fft_returns method false x' y' Hna Hlen Hx')
    as (mx & mn & t & He).
  rewrite map_id in He.
  set (W := ifft (map2 Cmul (fft x') (map Cconj (fft y')))) in *.
  assert (HW : length W = length x').
  { pose proof (fft_result_length false 0 x' y' Hlen) as HL.
    now rewrite length_map in HL. }
  exists W, mx, mn, t, (reconcile_warnings padded (lower w) x y).
  cbv zeta. rewrite HW. split.
  - rewrite (cyclic_corr_signals s1 s2 method w padded false x y
               H1 H2 Hm Hw).
    fold x' y'. now rewrite He.
  - rewrite (cyclic_corr_signals s1 s2 method w padded true x y
               H1 H2 Hm Hw).
    fold x' y'.
    rewrite (engine_fft_arr method true x' y' Hna Hlen Hx'). fold W.
    rewrite (engine_fft_arr method false x' y' Hna Hlen Hx') in He.
    fold W in He. rewrite map_id in He.
    rewrite (statistics_scaled (INR (length x'))
               ltac:(apply lt_0_INR; lia) W mx mn t He).
    reflexivity.
Qed.

Lemma X15_witness :
  exists (Z : list C) (max_val min_val : R) (t_max : nat)
         (ws : list string),
    cyclic_corr (PyList (map PyInt [1; 2; 3]%Z))
                (PyList (map PyInt [4; 5]%Z))
                (PyStr "fft") false (PyStr "long") false
    = (Ok (Z, max_val, t_max, min_val), ws)
    /\ cyclic_corr (PyList (map PyInt [1; 2; 3]%Z))
                   (PyList (map PyInt [4; 5]%Z))
                   (PyStr "fft") false (PyStr "long") true
       = (Ok (map (fun z => Cdiv_R z (INR (length Z))) Z,
              max_val / INR (length Z), t_max, min_val / INR (length Z)),
          ws).
Proof.
  apply (X15_fft_normalization_rescales
           (PyList (map PyInt [1; 2; 3]%Z)) (PyList (map PyInt [4; 5]%Z))
           (PyStr "fft") "long" false
           (map ZtoC [1; 2; 3]%Z) (map ZtoC [4; 5]%Z)).
  - constructor. repeat constructor.
  - constructor. repeat constructor.
  - discriminate.
  - discriminate.
  - exists "fft"%string. split; reflexivity.
  - reflexivity.
  - reflexivity.
Defined.
End FftMore.

(** ** Cyclic shifts of a sum *)

Section CyclicSums.
Local Open Scope nat_scope.

Lemma big_sum_split (f : nat -> C) (a b : nat) :
  big_sum f (a + b)
  = (big_sum f a + big_sum (fun k => f (a + k)%nat) b)%C.
Proof.
  induction b as [|b IH].
  - rewrite Nat.add_0_r. simpl. ring.
  - rewrite Nat.add_succ_r. cbn [big_sum]. rewrite IH. ring.
Qed.

(** A sum over a full period does not change under a cyclic shift of its
    index. *)
Lemma big_sum_cyclic_shift (g : nat -> C) (n t : nat) :
  big_sum (fun k => g ((k + t) mod n)) n = big_sum g n.
Proof.
  destruct n as [|n']; [reflexivity|]. set (n := S n').
  assert (Hn : (0 < n)%nat) by (unfold n; lia).
  rewrite big_sum_ext with (g := fun k => g ((k + t mod n) mod n))
    by (intros k _; now rewrite Nat.Div0.add_mod_idemp_r).
  assert (Ht : (t mod n < n)%nat) by (apply Nat.mod_upper_bound; lia).
  set (s := (t mod n)%nat) in *.
  transitivity (big_sum (fun k => g ((k + s) mod n)) ((n - s) + s));
    [f_equal; lia|].
  rewrite big_sum_split.
  rewrite big_sum_ext with (g := fun k => g (s + k)%nat) (n := (n - s)%nat)
    by (intros k Hk; rewrite Nat.mod_small by lia; f_equal; lia).
  rewrite big_sum_ext with (f := fun k => g ((n - s + k + s) mod n))
                           (g := g) (n := s).
  2:{ intros k Hk. f_equal.
      replace (n - s + k + s)%nat with (k + 1 * n)%nat by lia.
      rewrite Nat.Div0.mod_add. apply Nat.mod_small. lia. }
  transitivity (big_sum g (s + (n - s))); [|f_equal; lia].
  rewrite big_sum_split. ring.
Qed.


End CyclicSums.

(** ** The two methods compared *)

Section MethodsCompared.
Local Open Scope R_scope.

(** On two valid signals a call that selects the FFT branch returns, with
    the sequence of the FFT branch on the reconciled signals. *)
Lemma cyclic_corr_fft_returns (s1 s2 method : pyobj) (w : string)
    (padded normalized : bool) (x y : list C) :
  is_signal s1 x -> is_signal s2 y -> x <> [] -> y <> [] ->
  accepted valid_methods method -> eq_analytic method = false ->
  str_in (lower w) valid_wrt = true ->
  let x' := fst (reconciled padded (lower w) x y) in
  let y' := snd (reconciled padded (lower w) x y) in
  exists (max_val min_val : R) (t_max : nat),
    cyclic_corr s1 s2 method padded (PyStr w) normalized
    = (Ok (map (fun z => if normalized
                         then Cdiv_R z (INR (length x')) else z)
               (ifft (map2 Cmul (fft x') (map Cconj (fft y')))),
           max_val, t_max, min_val),
       reconcile_warnings padded (lower w) x y).
Proof.
  intros H1 H2 Hx Hy Hm Hna Hw x' y'.
  assert (Hlen : length x' = length y') by apply reconciled_same_length.
  assert (Hpos : (1 <= length x')%nat) by now apply reconciled_nonempty.
  assert (Hx' : x' <> []) by (intros E; rewrite E in Hpos; simpl in Hpos; lia).
  destruct (engine_fft_returns method normalized x' y' Hna Hlen Hx')
    as (mx & mn & t & He).
  exists mx, mn, t.
  rewrite (cyclic_corr_signals s1 s2 method w padded normalized x y
             H1 H2 Hm Hw).
  fold x' y'. now rewrite He.
Qed.

(** One item of the FFT branch, by the convolution theorem. *)
Lemma fft_item (x y : list C) (normalized : bool) (t : nat) :
  length x = length y -> (t < length x)%nat ->
  nth t (map (fun z => if normalized then Cdiv_R z (INR (length x)) else z)
             (ifft (map2 Cmul (fft x) (map Cconj (fft y))))) C0
  = if normalized
    then Cdiv_R (cross_correlation x y (length x) t) (INR (length x))
    else cross_correlation x y (length x) t.
Proof.
  intros Hlen Ht.
  assert (HW : length (ifft (map2 Cmul (fft x) (map Cconj (fft y))))
               = length x).
  { pose proof (fft_result_length false 0 x y Hlen) as HL.
    now rewrite length_map in HL. }
  rewrite <- (ifft_fft_cross_correlation x y t Hlen Ht).
  destruct normalized.
  - rewrite nth_indep with (d' := Cdiv_R C0 (INR (length x)))
      by (rewrite length_map, HW; exact Ht).
    apply (map_nth (fun z => Cdiv_R z (INR (length x)))).
  - now rewrite map_id.
Qed.


End MethodsCompared.

(** ** Autocorrelation *)

Section Autocorrelation.
Local Open Scope R_scope.

Lemma Rsum_big_sum (f : nat -> R) (n : nat) :
  big_sum (fun k => RtoC (f k)) n = RtoC (Rsum f n).
Proof.
  induction n as [|n IH]; [reflexivity|].
  cbn [big_sum Rsum]. rewrite IH. apply C_eq; simpl; ring.
Qed.

Lemma Rsum_ext (f g : nat -> R) (n : nat) :
  (forall k, (k < n)%nat -> f k = g k) -> Rsum f n = Rsum g n.
Proof.
  induction n as [|n IH]; intros H; simpl; [reflexivity|].
  rewrite IH by (intros; apply H; lia). now rewrite H by lia.
Qed.

Lemma Rsum_cyclic_shift (f : nat -> R) (n t : nat) :
  Rsum (fun k => f ((k + t) mod n)%nat) n = Rsum f n.
Proof.
  pose proof (big_sum_cyclic_shift (fun k => RtoC (f k)) n t) as H.
  rewrite (Rsum_big_sum f n) in H.
  rewrite (Rsum_big_sum (fun k => f ((k + t) mod n)%nat) n) in H.
  now injection H.
Qed.

Lemma Rsum_nonneg (f : nat -> R) (n : nat) :
  (forall k, 0 <= f k) -> 0 <= Rsum f n.
Proof.
  intros H. induction n as [|n IH]; simpl; [lra|].
  specialize (H n). lra.
Qed.

Lemma Cabs_C0 : Cabs C0 = 0.
Proof. apply (Cabs_RtoC 0). lra. Qed.

(** The magnitude of a sum is at most the sum of the magnitudes. *)
Lemma Cabs_big_sum_le (f : nat -> C) (n : nat) :
  Cabs (big_sum f n) <= Rsum (fun k => Cabs (f k)) n.
Proof.
  induction n as [|n IH]; cbn [big_sum Rsum].
  - rewrite Cabs_C0. lra.
  - pose proof (Cabs_triangle (big_sum f n) (f n)). lra.
Qed.

(** The Cauchy-Schwarz inequality for finite sums of non-negative terms. *)
Lemma Cauchy_Schwarz (u v : nat -> R) (n : nat) :
  (forall k, 0 <= u k) -> (forall k, 0 <= v k) ->
  Rsum (fun k => u k * v k) n * Rsum (fun k => u k * v k) n
  <= Rsum (fun k => u k * u k) n * Rsum (fun k => v k * v k) n.
Proof.
  intros Hu Hv. induction n as [|n IH]; cbn [Rsum]; [lra|].
  set (T := Rsum (fun k => u k * v k) n) in *.
  set (A := Rsum (fun k => u k * u k) n) in *.
  set (B := Rsum (fun k => v k * v k) n) in *.
  assert (HT : 0 <= T)
    by (apply Rsum_nonneg; intros k; apply Rmult_le_pos; auto).
  assert (HA : 0 <= A) by (apply Rsum_nonneg; intros k; apply Rle_0_sqr).
  assert (HB : 0 <= B) by (apply Rsum_nonneg; intros k; apply Rle_0_sqr).
  pose proof (Hu n) as Hun. pose proof (Hv n) as Hvn.
  set (a := u n) in *. set (b := v n) in *.
  (* 2 T a b <= A b^2 + B a^2 *)
  assert (Hmix : 2 * (T * (a * b)) <= A * (b * b) + B * (a * a)).
  { apply Rsqr_incr_0_var; [|nra].
    unfold Rsqr.
    pose proof (Rle_0_sqr (A * (b * b) - B * (a * a))) as Hs.
    unfold Rsqr in Hs.
    assert (Hab : 0 <= (a * b) * (a * b)) by apply Rle_0_sqr.
    assert (H4 : 4 * ((a * b) * (a * b)) * (T * T)
                 <= 4 * ((a * b) * (a * b)) * (A * B)).
    { apply Rmult_le_compat_l; [nra|exact IH]. }
    nra. }
  nra.
Qed.

(** The cyclic autocorrelation at lag 0 is the energy of the signal. *)
Lemma autocorrelation_at_zero (x : list C) :
  cross_correlation x x (length x) 0 = RtoC (energy x).
Proof.
  unfold cross_correlation, energy. rewrite <- Rsum_big_sum.
  apply big_sum_ext. intros m Hm.
  rewrite Nat.add_0_r, Nat.mod_small by assumption.
  apply Cmul_conj_self.
Qed.

(** No lag beats lag 0. *)
Lemma autocorrelation_bounded (x : list C) (t : nat) :
  Cabs (cross_correlation x x (length x) t) <= energy x.
Proof.
  set (n := length x).
  set (u := fun m => Cabs (nth ((m + t) mod n) x C0)).
  set (v := fun m => Cabs (nth m x C0)).
  assert (Hu : forall k, 0 <= u k) by (intros; apply Cabs_nonneg).
  assert (Hv : forall k, 0 <= v k) by (intros; apply Cabs_nonneg).
  assert (H1 : Cabs (cross_correlation x x n t)
               <= Rsum (fun m => u m * v m) n).
  { unfold cross_correlation.
    eapply Rle_trans; [apply Cabs_big_sum_le|].
    right. apply Rsum_ext. intros m _.
    now rewrite Cabs_Cmul, Cabs_Cconj. }
  pose proof (Cauchy_Schwarz u v n Hu Hv) as Hcs.
  assert (Eu : Rsum (fun k => u k * u k) n = energy x)
    by apply (Rsum_cyclic_shift (fun m => v m * v m) n t).
  assert (Ev : Rsum (fun k => v k * v k) n = energy x) by reflexivity.
  rewrite Eu, Ev in Hcs.
  assert (He : 0 <= energy x)
    by (apply Rsum_nonneg; intros k; apply Rle_0_sqr).
  assert (HT : 0 <= Rsum (fun m => u m * v m) n)
    by (apply Rsum_nonneg; intros k; apply Rmult_le_pos; auto).
  assert (Rsum (fun m => u m * v m) n <= energy x)
    by (apply Rsqr_incr_0_var; [exact Hcs|exact He]).
  fold n. lra.
Qed.
End Autocorrelation.

Section AutocorrelationPeak.
Local Open Scope R_scope.

Lemma nth_Cabs (Z : list C) (j : nat) :
  nth j (map Cabs Z) 0 = Cabs (nth j Z C0).
Proof. rewrite <- Cabs_C0 at 1. apply map_nth. Qed.

(** A list whose head is at least every item has its first maximum there. *)
Lemma first_max_at_head (l : list R) (t : nat) :
  is_first_max l t ->
  (forall j, (j < length l)%nat -> nth j l 0 <= nth 0 l 0) ->
  t = 0%nat.
Proof.
  intros (Ht & _ & Hfirst) Hhead.
  destruct t as [|t]; [reflexivity|].
  specialize (Hfirst 0%nat ltac:(lia)). specialize (Hhead (S t) Ht). lra.
Qed.

(** A signal correlated with itself by the FFT branch: the call returns,
    without a warning, the peak is at lag 0 and it is the energy of the
    signal (divided by the length when [normalized]). *)
Lemma autocorrelation_returns (s method : pyobj) (w : string)
    (padded normalized : bool) (x : list C) :
  is_signal s x -> x <> [] ->
  accepted valid_methods method -> eq_analytic method = false ->
  str_in (lower w) valid_wrt = true ->
  exists (Z : list C) (min_val : R),
    cyclic_corr s s method padded (PyStr w) normalized
    = (Ok (Z,
           if normalized then energy x / INR (length x) else energy x,
           0%nat, min_val), [])
    /\ length Z = length x
    /\ forall t, (t < length x)%nat ->
         nth t Z C0
         = if normalized
           then Cdiv_R (cross_correlation x x (length x) t) (INR (length x))
           else cross_correlation x x (length x) t.
Proof.
  intros Hs Hx Hm Hna Hw.
  destruct (cyclic_corr_fft_returns s s method w padded normalized x x
              Hs Hs Hx Hx Hm Hna Hw) as (mx & mn & t & Hc).
  unfold reconciled, reconcile_warnings in Hc.
  rewrite Nat.eqb_refl in Hc. cbn [fst snd] in Hc.
  set (Z := map (fun z => if normalized then Cdiv_R z (INR (length x)) else z)
                (ifft (map2 Cmul (fft x) (map Cconj (fft x))))) in *.
  assert (Hn : (1 <= length x)%nat)
    by (destruct x; [congruence|simpl; lia]).
  assert (Hpos : 0 < INR (length x)) by (apply lt_0_INR; lia).
  assert (HZ : length Z = length x).
  { unfold Z. rewrite length_map.
    pose proof (fft_result_length false 0 x x eq_refl) as HL.
    now rewrite length_map in HL. }
  assert (Hitem : forall t, (t < length x)%nat ->
            nth t Z C0
            = if normalized
              then Cdiv_R (cross_correlation x x (length x) t)
                          (INR (length x))
              else cross_correlation x x (length x) t)
    by (intros k Hk; apply (fft_item x x normalized k eq_refl Hk)).
  assert (Hhead : Cabs (nth 0 Z C0)
                  = if normalized then energy x / INR (length x)
                    else energy x).
  { assert (He : 0 <= energy x)
      by (apply Rsum_nonneg; intros k; apply Rle_0_sqr).
    rewrite (Hitem 0%nat) by lia. rewrite autocorrelation_at_zero.
    destruct normalized.
    - rewrite Cabs_Cdiv_R by assumption. now rewrite Cabs_RtoC.
    - now apply Cabs_RtoC. }
  assert (Hle : forall j, (j < length (map Cabs Z))%nat ->
            nth j (map Cabs Z) 0 <= nth 0 (map Cabs Z) 0).
  { intros j Hj. rewrite length_map, HZ in Hj.
    rewrite !nth_Cabs, Hhead, (Hitem j Hj).
    pose proof (autocorrelation_bounded x j) as Hb.
    destruct normalized.
    - rewrite Cabs_Cdiv_R by assumption. now apply div_le_iff.
    - exact Hb. }
  pose proof Hc as Hc'.
  rewrite (cyclic_corr_signals s s method w padded normalized x x
             Hs Hs Hm Hw) in Hc'.
  injection Hc' as He _.
  apply engine_inv, statistics_inv in He.
  destruct He as (_ & Hmax & _ & Harg).
  apply np_argmax_first_max in Harg.
  assert (t = 0%nat) as -> by (eapply first_max_at_head; eassumption).
  apply np_max_at_first_max with (t := 0%nat) in Hmax; [|assumption].
  rewrite nth_Cabs, Hhead in Hmax. subst mx.
  exists Z, mn. repeat split; assumption.
Qed.
End AutocorrelationPeak.

Section AutocorrelationExtras.
Local Open Scope R_scope.

(** X17. Autocorrelation by the FFT branch.  For a non-empty signal [x]
    passed as both inputs, with an accepted method other than "analytic"
    and an accepted window, [cyclic_corr] returns without a warning, the
    reported peak is at lag 0 ([t_max = 0]), [max_val] is the energy
    [sum |x_m|^2] of the signal (divided by the length when
    [normalized=True]), and no item of [Z] has a larger magnitude than
    [max_val]. *)
Theorem X17_autocorrelation_peak_at_zero_lag (s method : pyobj) (w : string)
    (padded normalized : bool) (x : list C) :
  is_signal s x -> x <> [] ->
  accepted valid_methods method -> eq_analytic method = false ->
  str_in (lower w) valid_wrt = true ->
  exists (Z : list C) (max_val min_val : R),
    cyclic_corr s s method padded (PyStr w) normalized
    = (Ok (Z, max_val, 0%nat, min_val), [])
    /\ length Z = length x
    /\ max_val = (if normalized then energy x / INR (length x)
                  else energy x)
    /\ Cabs (nth 0 Z C0) = max_val
    /\ forall t, Cabs (nth t Z C0) <= max_val.
Proof.
  intros Hs Hx Hm Hna Hw.
  destruct (autocorrelation_returns s method w padded normalized x
              Hs Hx Hm Hna Hw) as (Z & mn & Hc & HZ & Hitem).
  assert (Hn : (1 <= length x)%nat)
    by (destruct x; [congruence|simpl; lia]).
  assert (Hpos : 0 < INR (length x)) by (apply lt_0_INR; lia).
  assert (He : 0 <= energy x)
    by (apply Rsum_nonneg; intros k; apply Rle_0_sqr).
  assert (Hbound : forall t, (t < length x)%nat ->
            Cabs (nth t Z C0)
            <= if normalized then energy x / INR (length x) else energy x).
  { intros t Ht. rewrite (Hitem t Ht).
    pose proof (autocorrelation_bounded x t) as Hb.
    destruct normalized.
    - rewrite Cabs_Cdiv_R by assumption. now apply div_le_iff.
    - exact Hb. }
  exists Z, (if normalized then energy x / INR (length x) else energy x), mn.
  split; [exact Hc|]. split; [exact HZ|]. split; [reflexivity|]. split.
  - rewrite (Hitem 0%nat) by lia. rewrite autocorrelation_at_zero.
    destruct normalized.
    + rewrite Cabs_Cdiv_R by assumption. now rewrite Cabs_RtoC.
    + now apply Cabs_RtoC.
  - intros t. destruct (Nat.lt_ge_cases t (length x)) as [Ht|Ht].
    + now apply Hbound.
    + rewrite nth_overflow by lia. rewrite Cabs_C0.
      destruct normalized; [|exact He].
      apply Rmult_le_pos; [exact He|].
      apply Rlt_le, Rinv_0_lt_compat, Hpos.
Qed.

Lemma X17_witness :
  exists (Z : list C) (max_val min_val : R),
    cyclic_corr (PyList (map PyInt [1; 2; 3]%Z))
                (PyList (map PyInt [1; 2; 3]%Z))
                (PyStr "fft") true (PyStr "short") false
    = (Ok (Z, max_val, 0%nat, min_val), [])
    /\ max_val = energy (map ZtoC [1; 2; 3]%Z).
Proof.
  destruct (X17_autocorrelation_peak_at_zero_lag
              (PyList (map PyInt [1; 2; 3]%Z)) (PyStr "fft") "short"
              true false (map ZtoC [1; 2; 3]%Z))
    as (Z & mx & mn & Hc & _ & Hmx & _).
  - constructor. repeat constructor.
  - discriminate.
  - exact accepted_fft.
  - reflexivity.
  - reflexivity.
  - exists Z, mx, mn. split; assumption.
Defined.

Lemma Rsum_const (c : R) (n : nat) : Rsum (fun _ => c) n = INR n * c.
Proof.
  induction n as [|n IH]; [simpl; ring|].
  cbn [Rsum]. rewrite IH, S_INR. ring.
Qed.

(** A signal on the unit circle has energy equal to its length. *)
Lemma energy_unit_modulus (x : list C) :
  Forall (fun z => Cabs z = 1) x -> energy x = INR (length x).
Proof.
  intros H. unfold energy.
  rewrite (Rsum_ext _ (fun _ => 1) (length x)).
  - rewrite Rsum_const. ring.
  - intros k Hk. rewrite Forall_forall in H.
    rewrite (H (nth k x C0)) by now apply nth_In. ring.
Qed.

(** X18. [ZC_sequence] composed with [cyclic_corr].  For valid arguments
    [1 <= N], [1 <= r <= N], [0 <= q], the generated sequence passed as both
    inputs of [cyclic_corr] with an accepted method other than "analytic"
    and [normalized=True] gives [max_val = 1] at [t_max = 0]; with
    [normalized=False] it gives [max_val = N] at [t_max = 0]. *)
Theorem X18_ZC_autocorrelation_peak (r q N : Z) (method : pyobj)
    (w : string) (padded : bool) :
  (1 <= N)%Z -> (1 <= r <= N)%Z -> (0 <= q)%Z ->
  accepted valid_methods method -> eq_analytic method = false ->
  str_in (lower w) valid_wrt = true ->
  exists (l Zn Zu : list C) (min_n min_u : R),
    ZC_sequence (PyInt r) (PyInt q) (PyInt N) = Ok l
    /\ cyclic_corr (PyNdarray (arr l)) (PyNdarray (arr l)) method padded
                   (PyStr w) true
       = (Ok (Zn, 1, 0%nat, min_n), [])
    /\ cyclic_corr (PyNdarray (arr l)) (PyNdarray (arr l)) method padded
                   (PyStr w) false
       = (Ok (Zu, IZR N, 0%nat, min_u), []).
Proof.
  intros HN Hr Hq Hm Hna Hw.
  pose proof (ZC_sequence_valid r q N HN Hr Hq) as Hl.
  set (l := map (fun k => Cexp (ZC_phase r q N k)) (arange N)) in *.
  assert (Hlen : length l = Z.to_nat N)
    by (unfold l; now rewrite length_map, arange_length).
  assert (Hne : l <> [])
    by (intros E; rewrite E in Hlen; simpl in Hlen; lia).
  assert (HINR : INR (length l) = IZR N)
    by (rewrite Hlen, INR_IZR_INZ, Z2Nat.id by lia; reflexivity).
  assert (Hen : energy l = IZR N).
  { rewrite energy_unit_modulus; [exact HINR|].
    exact (ZC_sequence_unit_modulus r q N l Hl). }
  assert (HNpos : 0 < IZR N) by (apply IZR_lt; lia).
  destruct (autocorrelation_returns (PyNdarray (arr l)) method w padded true
              l (signal_array l) Hne Hm Hna Hw) as (Zn & mn & Hcn & _).
  destruct (autocorrelation_returns (PyNdarray (arr l)) method w padded false
              l (signal_array l) Hne Hm Hna Hw) as (Zu & mu & Hcu & _).
  cbv beta iota in Hcn, Hcu. rewrite Hen in Hcn, Hcu. rewrite HINR in Hcn.
  replace (IZR N / IZR N) with 1 in Hcn by (field; lra).
  exists l, Zn, Zu, mn, mu. repeat split; assumption.
Qed.

Lemma X18_witness :
  exists (l Zn Zu : list C) (min_n min_u : R),
    ZC_sequence (PyInt 1) (PyInt 0) (PyInt 7) = Ok l
    /\ cyclic_corr (PyNdarray (arr l)) (PyNdarray (arr l)) (PyStr "fft") true
                   (PyStr "short") true
       = (Ok (Zn, 1, 0%nat, min_n), [])
    /\ cyclic_corr (PyNdarray (arr l)) (PyNdarray (arr l)) (PyStr "fft") true
                   (PyStr "short") false
       = (Ok (Zu, 7, 0%nat, min_u), []).
Proof.
  apply (X18_ZC_autocorrelation_peak 1 0 7 (PyStr "fft") "short" true).
  - lia.
  - lia.
  - lia.
  - exact accepted_fft.
  - reflexivity.
  - reflexivity.
Defined.
End AutocorrelationExtras.

(** ** Which arrays the validation hands back *)

Section Aliasing.

(** On two references to arrays of numbers and accepted options, the
    validation reads the store only, up to the comparison of the lengths. *)
Lemma check_inputs_s_arrays (st : state) (l1 l2 : loc) (method : val)
    (w : string) (padded : bool) (x y : list C) :
  array_at (heap st) l1 (arr x) -> array_at (heap st) l2 (arr y) ->
  accepted valid_methods (scalar_of method) ->
  str_in (lower w) valid_wrt = true ->
  check_inputs_define_limits_s (VRef l1) (VRef l2) method (VStr w) padded st
  = (if negb (length x =? length y)%nat then
       if padded then
         if (length y <? length x)%nat then
           s2 <~ alloc_array (np_pad (arr y) (length x - length y)) ;;
           warn_s "s2 is padded to s1 length" ;;~
           ret_s (l1, s2)
         else
           s1 <~ alloc_array (np_pad (arr x) (length y - length x)) ;;
           warn_s "s1 is padded to s2 length" ;;~
           ret_s (s1, l2)
       else if String.eqb (lower w) "short" then
         s1 <~ slice_view l1 (Nat.min (length x) (length y)) ;;
         s2 <~ slice_view l2 (Nat.min (length x) (length y)) ;;
         warn_s "Signals are truncated to the length of the shorter one" ;;~
         ret_s (s1, s2)
       else
         s1 <~ alloc_array (np_resize (arr x)
                              (Nat.max (length x) (length y))) ;;
         s2 <~ alloc_array (np_resize (arr y)
                              (Nat.max (length x) (length y))) ;;
         warn_s "Signals are resized to the length of the longer one" ;;~
         ret_s (s1, s2)
     else ret_s (l1, l2)) st.
Proof.
  intros A1 A2 Hm Hw.
  assert (I : forall l z, array_at (heap st) l (arr z) ->
            is_list_or_ndarray_s (VRef l) st = (Ok true, st)
            /\ to_ndarray_s (VRef l) st = (Ok l, st)).
  { intros l z Ha. apply array_at_arr in Ha.
    destruct Ha as (b & d & Hl & _).
    unfold is_list_or_ndarray_s, to_ndarray_s, bind_s, load.
    rewrite Hl. split; reflexivity. }
  destruct (I l1 x A1) as [I1 T1]. destruct (I l2 y A2) as [I2 T2].
  pose proof (read_array_at st l1 (arr x) A1) as R1.
  pose proof (read_array_at st l2 (arr y) A2) as R2.
  destruct (lift_M_check_choice "method" "methods" "('fft', 'analytic')"
              valid_methods (scalar_of method) st Hm) as (m & _ & Cm).
  assert (Cw : lift_M (check_choice "wrt" "options" "('short', 'long')"
                         valid_wrt (scalar_of (VStr w))) st
               = (Ok (lower w), st)).
  { destruct (lift_M_check_choice "wrt" "options" "('short', 'long')"
                valid_wrt (PyStr w) st) as (w' & [= <-] & E);
      [now exists w|exact E]. }
  unfold check_inputs_define_limits_s. cbn [is_None_v orb].
  rewrite (bind_s_Ok _ _ _ _ _ I1). rewrite (bind_s_Ok _ _ _ _ _ I2).
  cbn [andb negb].
  rewrite (bind_s_Ok _ _ _ _ _ T1). rewrite (bind_s_Ok _ _ _ _ _ T2).
  rewrite (bind_s_Ok _ _ _ _ _ R1). rewrite (bind_s_Ok _ _ _ _ _ R2).
  rewrite !ndim_arr. cbn [Nat.eqb negb orb].
  rewrite (bind_s_Ok _ _ _ _ _ Cm). rewrite (bind_s_Ok _ _ _ _ _ Cw).
  rewrite !shape0_arr. reflexivity.
Qed.

(** X19. Two arrays of equal length pass the validation as they are: the
    call returns the caller's own two references, allocates nothing and
    logs nothing.  What the caller gets is the input, not a copy. *)
Theorem X19_equal_length_arrays_returned_as_is (st : state) (l1 l2 : loc)
    (method : val) (w : string) (padded : bool) (x y : list C) :
  array_at (heap st) l1 (arr x) -> array_at (heap st) l2 (arr y) ->
  length x = length y ->
  accepted valid_methods (scalar_of method) ->
  str_in (lower w) valid_wrt = true ->
  check_inputs_define_limits_s (VRef l1) (VRef l2) method (VStr w) padded st
  = (Ok (l1, l2), st).
Proof.
  intros A1 A2 E Hm Hw.
  rewrite (check_inputs_s_arrays st l1 l2 method w padded x y A1 A2 Hm Hw).
  rewrite E, Nat.eqb_refl. reflexivity.
Qed.

Lemma X19_witness :
  let st := mk_state [OBuf [ENum C1; ENum C0]; OArray [2%nat] 0%nat;
                      OBuf [ENum C0; ENum C1]; OArray [2%nat] 2%nat] [] in
  check_inputs_define_limits_s (VRef 1%nat) (VRef 3%nat) (VStr "fft")
    (VStr "long") false st
  = (Ok (1%nat, 3%nat), st).
Proof.
  intros st.
  apply (X19_equal_length_arrays_returned_as_is st 1%nat 3%nat (VStr "fft")
           "long" false [C1; C0] [C0; C1]).
  - reflexivity.
  - reflexivity.
  - reflexivity.
  - exact accepted_fft.
  - reflexivity.
Defined.

(** X20. Truncation gives views.  On two arrays of different lengths with
    [padded=False] and the window "short", the call allocates two array
    headers and no buffer: each returned array has the shorter length and
    views the buffer of the caller's array, so a later write through a
    returned array is a write to the caller's data. *)
Theorem X20_truncation_returns_views (st : state) (l1 l2 : loc)
    (method : val) (w : string) (x y : list C) :
  array_at (heap st) l1 (arr x) -> array_at (heap st) l2 (arr y) ->
  length x <> length y ->
  accepted valid_methods (scalar_of method) ->
  lower w = "short"%string ->
  exists b1 b2 : loc,
    nth_error (heap st) l1 = Some (OArray [length x] b1)
    /\ nth_error (heap st) l2 = Some (OArray [length y] b2)
    /\ check_inputs_define_limits_s (VRef l1) (VRef l2) method (VStr w)
         false st
       = (Ok (length (heap st), S (length (heap st))),
          mk_state
            (heap st
             ++ [OArray [Nat.min (length x) (length y)] b1;
                 OArray [Nat.min (length x) (length y)] b2])
            (log st
             ++ ["Signals are truncated to the length of the shorter one"
                 %string])).
Proof.
  intros A1 A2 E Hm Hw.
  rewrite (check_inputs_s_arrays st l1 l2 method w false x y A1 A2 Hm)
    by (rewrite Hw; reflexivity).
  apply Nat.eqb_neq in E. rewrite E, Hw, String.eqb_refl. cbn [negb].
  apply array_at_arr in A1. destruct A1 as (b1 & d1 & H1 & _).
  apply array_at_arr in A2. destruct A2 as (b2 & d2 & H2 & _).
  exists b1, b2. split; [exact H1|]. split; [exact H2|].
  assert (H2' : nth_error
                  (heap st ++ [OArray [Nat.min (Nat.min (length x) (length y))
                                               (length x)] b1]) l2
                = Some (OArray [length y] b2)).
  { rewrite nth_error_app1; [exact H2|]. apply nth_error_Some. congruence. }
  unfold slice_view, bind_s, load, alloc, warn_s, lift_M, warn, ret_s.
  rewrite H1. cbn [heap log hd]. rewrite H2'. cbn [heap log hd fst snd].
  rewrite length_app, <- app_assoc. cbn [length app].
  rewrite Nat.add_1_r.
  replace (Nat.min (Nat.min (length x) (length y)) (length x))
    with (Nat.min (length x) (length y)) by lia.
  replace (Nat.min (Nat.min (length x) (length y)) (length y))
    with (Nat.min (length x) (length y)) by lia.
  reflexivity.
Qed.

Lemma X20_witness :
  let st := mk_state [OBuf [ENum C1; ENum C0]; OArray [2%nat] 0%nat;
                      OBuf [ENum C0]; OArray [1%nat] 2%nat] [] in
  check_inputs_define_limits_s (VRef 1%nat) (VRef 3%nat) (VStr "fft")
    (VStr "Short") false st
  = (Ok (4%nat, 5%nat),
     mk_state (heap st ++ [OArray [1%nat] 0%nat; OArray [1%nat] 2%nat])
       ["Signals are truncated to the length of the shorter one"%string]).
Proof.
  intros st.
  destruct (X20_truncation_returns_views st 1%nat 3%nat (VStr "fft")
              "Short" [C1; C0] [C0])
    as (b1 & b2 & H1 & H2 & Hc).
  - reflexivity.
  - reflexivity.
  - simpl. lia.
  - exact accepted_fft.
  - reflexivity.
  - injection H1 as <-. injection H2 as <-. exact Hc.
Defined.

(** X21. Padding copies the shorter signal only.  On two arrays of
    different lengths with [padded=True], the longer array comes back as
    the caller's own reference; the shorter one comes back as a new array
    with a buffer of its own, which holds the signal followed by zeros. *)
Theorem X21_padding_keeps_the_longer_array (st : state) (l1 l2 : loc)
    (method : val) (w : string) (x y : list C) :
  array_at (heap st) l1 (arr x) -> array_at (heap st) l2 (arr y) ->
  (length y < length x)%nat ->
  accepted valid_methods (scalar_of method) ->
  str_in (lower w) valid_wrt = true ->
  let n := length (heap st) in
  let zeros := repeat C0 (length x - length y) in
  check_inputs_define_limits_s (VRef l1) (VRef l2) method (VStr w) true st
  = (Ok (l1, S n),
     mk_state (heap st ++ [OBuf (map ENum (y ++ zeros));
                           OArray [length x] n])
              (log st ++ ["s2 is padded to s1 length"%string]))
  /\ check_inputs_define_limits_s (VRef l2) (VRef l1) method (VStr w) true st
     = (Ok (S n, l1),
        mk_state (heap st ++ [OBuf (map ENum (y ++ zeros));
                              OArray [length x] n])
                 (log st ++ ["s1 is padded to s2 length"%string])).
Proof.
  intros A1 A2 Hlt Hm Hw n zeros.
  assert (Hlen : length (y ++ zeros) = length x)
    by (unfold zeros; rewrite length_app, repeat_length; lia).
  destruct (alloc_array_arr st (y ++ zeros)) as [Ea _].
  rewrite Hlen in Ea. fold n in Ea.
  split.
  - rewrite (check_inputs_s_arrays st l1 l2 method w true x y A1 A2 Hm Hw).
    destruct (Nat.eqb_spec (length x) (length y)) as [E|_]; [lia|].
    destruct (Nat.ltb_spec (length y) (length x)) as [_|H]; [|lia].
    cbn [negb]. rewrite np_pad_arr. fold zeros.
    rewrite (bind_s_Ok _ _ _ _ _ Ea). reflexivity.
  - rewrite (check_inputs_s_arrays st l2 l1 method w true y x A2 A1 Hm Hw).
    destruct (Nat.eqb_spec (length y) (length x)) as [E|_]; [lia|].
    destruct (Nat.ltb_spec (length x) (length y)) as [H|_]; [lia|].
    cbn [negb]. rewrite np_pad_arr. fold zeros.
    rewrite (bind_s_Ok _ _ _ _ _ Ea). reflexivity.
Qed.

Lemma X21_witness :
  let st := mk_state [OBuf [ENum C1; ENum C0]; OArray [2%nat] 0%nat;
                      OBuf [ENum C1]; OArray [1%nat] 2%nat] [] in
  check_inputs_define_limits_s (VRef 1%nat) (VRef 3%nat) (VStr "fft")
    (VStr "short") true st
  = (Ok (1%nat, 5%nat),
     mk_state (heap st ++ [OBuf [ENum C1; ENum C0]; OArray [2%nat] 4%nat])
       ["s2 is padded to s1 length"%string]).
Proof.
  intros st.
  apply (X21_padding_keeps_the_longer_array st 1%nat 3%nat (VStr "fft")
           "short" [C1; C0] [C1]).
  - reflexivity.
  - reflexivity.
  - simpl. lia.
  - exact accepted_fft.
  - reflexivity.
Defined.

(** X22. Resizing copies both signals.  On two arrays of different lengths
    with [padded=False] and the window "long", both returned arrays are new
    objects with buffers of their own, also the one that already had the
    longer length; each buffer holds the cyclic repetition of its signal up
    to the longer length. *)
Theorem X22_resizing_copies_both_arrays (st : state) (l1 l2 : loc)
    (method : val) (w : string) (x y : list C) :
  array_at (heap st) l1 (arr x) -> array_at (heap st) l2 (arr y) ->
  length x <> length y ->
  accepted valid_methods (scalar_of method) ->
  lower w = "long"%string ->
  let n := length (heap st) in
  let m := Nat.max (length x) (length y) in
  check_inputs_define_limits_s (VRef l1) (VRef l2) method (VStr w) false st
  = (Ok (S n, S (S (S n))),
     mk_state (heap st ++ [OBuf (map ENum (tile x m)); OArray [m] n;
                           OBuf (map ENum (tile y m)); OArray [m] (S (S n))])
              (log st
               ++ ["Signals are resized to the length of the longer one"
                   %string]))
  /\ tile (if (length y <? length x)%nat then x else y) m
     = (if (length y <? length x)%nat then x else y).
Proof.
  intros A1 A2 E Hm Hw n m. split.
  - rewrite (check_inputs_s_arrays st l1 l2 method w false x y A1 A2 Hm)
      by (rewrite Hw; reflexivity).
    apply Nat.eqb_neq in E. rewrite E, Hw.
    change (String.eqb "long" "short") with false. cbn [negb].
    rewrite !np_resize_arr. fold m.
    destruct (alloc_array_arr st (tile x m)) as [Ea _].
    rewrite tile_length in Ea. fold n in Ea.
    rewrite (bind_s_Ok _ _ _ _ _ Ea).
    match type of Ea with _ = (_, ?s) => set (st1 := s) in * end.
    destruct (alloc_array_arr st1 (tile y m)) as [Eb _].
    rewrite tile_length in Eb.
    assert (Hn1 : length (heap st1) = S (S n))
      by (unfold st1; cbn [heap]; rewrite length_app; simpl; lia).
    rewrite Hn1 in Eb.
    rewrite (bind_s_Ok _ _ _ _ _ Eb).
    unfold warn_s, lift_M, warn, bind_s, ret_s, st1.
    cbn [fst snd heap log]. rewrite <- app_assoc. reflexivity.
  - unfold m. destruct (Nat.ltb_spec (length y) (length x)) as [H|H].
    + replace (Nat.max (length x) (length y)) with (length x) by lia.
      apply tile_self.
    + replace (Nat.max (length x) (length y)) with (length y) by lia.
      apply tile_self.
Qed.

Lemma X22_witness :
  let st := mk_state [OBuf [ENum C1; ENum C0]; OArray [2%nat] 0%nat;
                      OBuf [ENum C1]; OArray [1%nat] 2%nat] [] in
  check_inputs_define_limits_s (VRef 1%nat) (VRef 3%nat) (VStr "fft")
    (VStr "long") false st
  = (Ok (5%nat, 7%nat),
     mk_state (heap st ++ [OBuf [ENum C1; ENum C0]; OArray [2%nat] 4%nat;
                           OBuf [ENum C1; ENum C1]; OArray [2%nat] 6%nat])
       ["Signals are resized to the length of the longer one"%string]).
Proof.
  intros st.
  apply (X22_resizing_copies_both_arrays st 1%nat 3%nat (VStr "fft")
           "long" [C1; C0] [C1]).
  - reflexivity.
  - reflexivity.
  - simpl. lia.
  - exact accepted_fft.
  - reflexivity.
Defined.
End Aliasing.

(** ** The autocorrelation of a Zadoff-Chu sequence *)

Section ZadoffChuAutocorrelation.
Local Open Scope R_scope.

Lemma ZC_element_cis (r q N k : Z) :
  Cexp (ZC_phase r q N k) = cis (- ZC_angle r q N k).
Proof.
  rewrite ZC_element_trig. unfold cis. now rewrite cos_neg, sin_neg.
Qed.

(** The integer that multiplies [pi / N] in the angle of element [k]. *)
Lemma ZC_angle_product (r q N k : Z) :
  (0 <= k < N)%Z ->
  ZC_angle r q N k
  = PI / IZR N * IZR (r * (k + N mod 2 + 2 * (q mod N)) * k).
Proof.
  intros Hk. unfold ZC_angle. rewrite Z.mod_small by assumption.
  rewrite !mult_IZR. ring.
Qed.

(** Moving [t] places along the sequence, cyclically, adds to that integer
    a term linear in the position, up to a multiple of [2 N]. *)
Lemma ZC_shift_product (r q N m t : Z) :
  (0 <= r)%Z -> (0 <= m < N)%Z -> (0 <= t < N)%Z ->
  exists j : nat,
    (r * ((m + t) mod N + N mod 2 + 2 * (q mod N)) * ((m + t) mod N)
     = r * (m + N mod 2 + 2 * (q mod N)) * m
       + r * (t + N mod 2 + 2 * (q mod N)) * t
       + 2 * (r * t * m) - 2 * N * Z.of_nat j)%Z.
Proof.
  intros Hr Hm Ht.
  pose proof (Z.mod_pos_bound q N ltac:(lia)) as HQ.
  pose proof (Z.mod_pos_bound N 2 ltac:(lia)) as HE.
  pose proof (Z.div_mod N 2 ltac:(lia)) as HN.
  set (Q := (q mod N)%Z) in *. set (E := (N mod 2)%Z) in *.
  set (c := (N / 2)%Z) in *.
  destruct (Z_lt_ge_dec (m + t) N) as [Hlt|Hge].
  - exists 0%nat. rewrite Z.mod_small by lia. simpl Z.of_nat. ring.
  - exists (Z.to_nat (r * (m + t + Q - c))).
    assert (Hmod : ((m + t) mod N = m + t - N)%Z).
    { symmetry. apply Z.mod_unique with (q := 1%Z); lia. }
    rewrite Hmod, Z2Nat.id by nia.
    clearbody c E Q. subst N. ring.
Qed.

Lemma ZC_sequence_nth_cis (r q N : Z) (l : list C) (m : nat) :
  ZC_sequence (PyInt r) (PyInt q) (PyInt N) = Ok l ->
  (m < Z.to_nat N)%nat ->
  nth m l C0 = cis (- ZC_angle r q N (Z.of_nat m)).
Proof.
  intros H Hm. rewrite <- ZC_element_cis.
  rewrite <- (ZC_sequence_nth r q N (Z.of_nat m) l H) by lia.
  now rewrite Nat2Z.id.
Qed.

(** The product of an element with the conjugate of the element [t] places
    before it: a constant times a harmonic of the position. *)
Lemma ZC_lag_product (r q N : Z) (l : list C) (m t : nat) :
  ZC_sequence (PyInt r) (PyInt q) (PyInt N) = Ok l ->
  (1 <= r)%Z ->
  (m < Z.to_nat N)%nat -> (t < Z.to_nat N)%nat ->
  (nth ((m + t) mod Z.to_nat N) l C0 * Cconj (nth m l C0))%C
  = (cis (- ZC_angle r q N (Z.of_nat t))
     * Cconj (cis (INR m * (2 * PI * INR (Z.to_nat r * t)
                            / INR (Z.to_nat N)))))%C.
Proof.
  intros H Hr Hm Ht.
  assert (HN : (1 <= N)%Z) by lia.
  assert (HN0 : IZR N <> 0) by (apply not_0_IZR; lia).
  assert (Hlt : ((m + t) mod Z.to_nat N < Z.to_nat N)%nat)
    by (apply Nat.mod_upper_bound; lia).
  rewrite !(ZC_sequence_nth_cis r q N l _ H) by assumption.
  rewrite !cis_conj, <- !cis_add.
  destruct (ZC_shift_product r q N (Z.of_nat m) (Z.of_nat t)
              ltac:(lia) ltac:(lia) ltac:(lia)) as (j & Hj).
  rewrite <- (cis_period (- ZC_angle r q N (Z.of_nat t) + _) j).
  f_equal.
  rewrite !ZC_angle_product by lia.
  rewrite Nat2Z.inj_mod, Nat2Z.inj_add, Z2Nat.id by lia.
  rewrite Hj.
  rewrite (INR_IZR_INZ (Z.to_nat N)), Z2Nat.id by lia.
  rewrite mult_INR, (INR_IZR_INZ (Z.to_nat r)), Z2Nat.id by lia.
  rewrite !(INR_IZR_INZ m), !(INR_IZR_INZ t), (INR_IZR_INZ j).
  rewrite !minus_IZR, !plus_IZR, !mult_IZR.
  set (a := IZR (r * (Z.of_nat m + N mod 2 + 2 * (q mod N)) * Z.of_nat m)).
  set (b := IZR (r * (Z.of_nat t + N mod 2 + 2 * (q mod N)) * Z.of_nat t)).
  field. exact HN0.
Qed.

(** Zero autocorrelation: for a root coprime to the length, the cyclic
    autocorrelation of the sequence vanishes at every lag but 0. *)
Lemma ZC_zero_autocorrelation (r q N : Z) (l : list C) (t : nat) :
  ZC_sequence (PyInt r) (PyInt q) (PyInt N) = Ok l ->
  Z.gcd r N = 1%Z ->
  (0 < t < Z.to_nat N)%nat ->
  cross_correlation l l (Z.to_nat N) t = C0.
Proof.
  intros H Hg Ht.
  assert (HN : (1 <= N)%Z) by lia.
  assert (Hr : (1 <= r)%Z).
  { unfold ZC_sequence in H.
    destruct (N <? 1)%Z; [discriminate|].
    destruct (Z.leb_spec 1 r); [assumption|]. discriminate. }
  unfold cross_correlation.
  rewrite (big_sum_ext _
             (fun m => (cis (- ZC_angle r q N (Z.of_nat t))
                        * Cconj (cis (INR m * (2 * PI * INR (Z.to_nat r * t)
                                               / INR (Z.to_nat N)))))%C)).
  2: { intros m Hm. apply ZC_lag_product; [assumption|lia|lia|lia]. }
  rewrite big_sum_scale_l, <- big_sum_conj, harmonic_sum by lia.
  destruct (Nat.eqb_spec ((Z.to_nat r * t) mod Z.to_nat N) 0) as [E|_].
  - exfalso. apply Nat.Div0.mod_divides in E. destruct E as (c & Hc).
    assert (Hdiv : (N | r * Z.of_nat t)%Z).
    { exists (Z.of_nat c). apply (f_equal Z.of_nat) in Hc.
      rewrite !Nat2Z.inj_mul, !Z2Nat.id in Hc by lia. lia. }
    apply Z.gauss in Hdiv; [|now rewrite Z.gcd_comm].
    apply Z.divide_pos_le in Hdiv; lia.
  - apply C_eq; simpl; ring.
Qed.
End ZadoffChuAutocorrelation.

Section ZadoffChuCorrelated.
Local Open Scope R_scope.

Lemma np_min_bounds (l : list R) (m : R) :
  np_min l = Ok m -> In m l /\ Forall (fun v => m <= v) l.
Proof.
  destruct l as [|x xs]; [discriminate|]. intros [= <-].
  split; [apply fold_left_Rmin_in|].
  destruct (fold_left_Rmin_lower xs x) as [L1 L2].
  constructor; assumption.
Qed.

(** X23. Ideal autocorrelation.  For valid arguments with the root [r]
    coprime to the length [N], the generated sequence correlated with
    itself by the FFT branch gives a single peak: [Z[0]] is [N] (1 when
    [normalized=True]), every other item of [Z] is 0, [t_max = 0],
    [max_val] is the peak and, for [N >= 2], [min_val = 0]. *)
Theorem X23_ZC_ideal_autocorrelation (r q N : Z) (method : pyobj)
    (w : string) (padded normalized : bool) :
  (1 <= N)%Z -> (1 <= r <= N)%Z -> (0 <= q)%Z -> Z.gcd r N = 1%Z ->
  accepted valid_methods method -> eq_analytic method = false ->
  str_in (lower w) valid_wrt = true ->
  let peak := if normalized then 1 else IZR N in
  exists (l Z : list C) (min_val : R),
    ZC_sequence (PyInt r) (PyInt q) (PyInt N) = Ok l
    /\ cyclic_corr (PyNdarray (arr l)) (PyNdarray (arr l)) method padded
                   (PyStr w) normalized
       = (Ok (Z, peak, 0%nat, min_val), [])
    /\ length Z = Z.to_nat N
    /\ nth 0 Z C0 = RtoC peak
    /\ (forall t, (0 < t < Z.to_nat N)%nat -> nth t Z C0 = C0)
    /\ ((2 <= N)%Z -> min_val = 0).
Proof.
  intros HN Hr Hq Hg Hm Hna Hw peak.
  pose proof (ZC_sequence_valid r q N HN Hr Hq) as Hl.
  set (l := map (fun k => Cexp (ZC_phase r q N k)) (arange N)) in *.
  assert (Hlen : length l = Z.to_nat N)
    by (unfold l; now rewrite length_map, arange_length).
  assert (Hne : l <> [])
    by (intros E; rewrite E in Hlen; simpl in Hlen; lia).
  assert (HINR : INR (length l) = IZR N)
    by (rewrite Hlen, INR_IZR_INZ, Z2Nat.id by lia; reflexivity).
  assert (Hen : energy l = IZR N).
  { rewrite energy_unit_modulus; [exact HINR|].
    exact (ZC_sequence_unit_modulus r q N l Hl). }
  assert (HNpos : 0 < IZR N) by (apply IZR_lt; lia).
  destruct (autocorrelation_returns (PyNdarray (arr l)) method w padded
              normalized l (signal_array l) Hne Hm Hna Hw)
    as (Z & mn & Hc & HZ & Hitem).
  rewrite Hen, HINR in Hc.
  assert (Hpeak : (if normalized then IZR N / IZR N else IZR N) = peak).
  { unfold peak. destruct normalized; [field; lra|reflexivity]. }
  rewrite Hpeak in Hc.
  assert (Hside : forall t, (0 < t < Z.to_nat N)%nat -> nth t Z C0 = C0).
  { intros t Ht. rewrite (Hitem t) by lia. rewrite Hlen.
    rewrite (ZC_zero_autocorrelation r q N l t Hl Hg Ht).
    destruct normalized; [|reflexivity].
    apply C_eq; simpl; unfold Rdiv; ring. }
  exists l, Z, mn.
  split; [exact Hl|]. split; [exact Hc|]. split; [congruence|].
  split; [|split; [exact Hside|]].
  - rewrite (Hitem 0%nat) by lia. rewrite autocorrelation_at_zero, Hen.
    unfold peak. destruct normalized; [|reflexivity].
    rewrite Cdiv_R_RtoC, HINR. f_equal. field. lra.
  - intros H2.
    pose proof Hc as Hc'.
    rewrite (cyclic_corr_signals _ _ method w padded normalized l l
               (signal_array l) (signal_array l) Hm Hw) in Hc'.
    injection Hc' as He _.
    apply engine_inv, statistics_inv in He.
    destruct He as (_ & _ & Hmin & _).
    apply np_min_bounds in Hmin. destruct Hmin as [Hin Hlow].
    apply Rle_antisym.
    + rewrite Forall_forall in Hlow.
      rewrite <- Cabs_C0, <- (Hside 1%nat) by lia.
      apply Hlow. apply in_map, nth_In. lia.
    + apply in_map_iff in Hin. destruct Hin as (z & <- & _).
      apply Cabs_nonneg.
Qed.

Lemma X23_witness :
  exists (l Z : list C) (min_val : R),
    ZC_sequence (PyInt 3) (PyInt 2) (PyInt 7) = Ok l
    /\ cyclic_corr (PyNdarray (arr l)) (PyNdarray (arr l)) (PyStr "fft")
                   true (PyStr "short") true
       = (Ok (Z, 1, 0%nat, min_val), [])
    /\ min_val = 0.
Proof.
  destruct (X23_ZC_ideal_autocorrelation 3 2 7 (PyStr "fft") "short"
              true true)
    as (l & Z & mn & Hl & Hc & _ & _ & _ & Hmin).
  - lia.
  - lia.
  - lia.
  - reflexivity.
  - exact accepted_fft.
  - reflexivity.
  - reflexivity.
  - exists l, Z, mn. split; [exact Hl|]. split; [exact Hc|].
    apply Hmin. lia.
Defined.
End ZadoffChuCorrelated.
